(** * Telegram-Notifier: log classification, secret redaction, truncation,
      service-name validation, token bucket and delivery, verified over a
      shallow embedding of the Go sources.

    Go strings are byte sequences: they are modelled as [list ascii], and
    [len], slicing and concatenation are [length], [firstn]/[skipn] and
    [++].  Functions of Go's standard library that the program calls
    ([strings], [unicode/utf8], [regexp], [strconv]) are modelled from their
    documented behaviour in the modules [Utf8], [Unicode], [Strings],
    [Regexp] and [Trim]; the program's own functions follow, one module per
    Go package ([Journal] and [Systemd] for package systemd, [Constants],
    [Validation], [RateLimit], [Telegram], [Notifier]).  Then come the
    statements the properties are about, and the properties, one pair of
    modules per subject. *)

From Stdlib Require Import Ascii String ZArith NArith Bool Lia Arith List.
From Stdlib Require Import Floats.
From Stdlib Require Uint63.
From Stdlib Require DecimalString.
Import ListNotations.

Set Implicit Arguments.

(** A Go string: a sequence of bytes. *)
Definition gostring : Type := list ascii.

(** String literals. *)
Definition str (s : string) : gostring := list_ascii_of_string s.

Definition byte_of (n : N) : ascii := ascii_of_N n.

Definition nl : gostring := [byte_of 10].

Fixpoint gostring_eqb (a b : gostring) : bool :=
  match a, b with
  | [], [] => true
  | x :: a', y :: b' => Ascii.eqb x y && gostring_eqb a' b'
  | _, _ => false
  end.

(** Go's slice expressions [s[:n]], [s[n:]] on in-range indices. *)
Definition slice_to (s : gostring) (n : Z) : gostring := firstn (Z.to_nat n) s.
Definition slice_from (s : gostring) (n : Z) : gostring := skipn (Z.to_nat n) s.
Definition len (s : gostring) : Z := Z.of_nat (length s).

(** ** unicode/utf8 *)
Module Utf8.

Definition rune : Type := N.

Definition RuneError : rune := 65533%N.
Definition RuneSelf : N := 128%N.

Definition in_range (lo hi b : N) : bool := (lo <=? b)%N && (b <=? hi)%N.

(** Continuation byte, with the accepted range of the second byte given
    by the first one. *)
Definition cont (b : ascii) : option N :=
  let n := N_of_ascii b in
  if in_range 128 191 n then Some (n - 128)%N else None.

Definition second (lo hi : N) (b : ascii) : option N :=
  let n := N_of_ascii b in
  if in_range lo hi n then Some (n - 128)%N else None.

(** [DecodeRuneInString]: the rune at the head of [s] and its width in
    bytes; [(RuneError, 0)] on the empty string, [(RuneError, 1)] on an
    invalid or incomplete encoding. *)
Definition DecodeRune (s : gostring) : rune * nat :=
  match s with
  | [] => (RuneError, 0)
  | b0 :: s1 =>
    let n0 := N_of_ascii b0 in
    if (n0 <? RuneSelf)%N then (n0, 1)
    else if in_range 194 223 n0 then
      match s1 with
      | b1 :: _ =>
        match cont b1 with
        | Some c1 => (((n0 - 192) * 64 + c1)%N, 2)
        | None => (RuneError, 1)
        end
      | _ => (RuneError, 1)
      end
    else if in_range 224 239 n0 then
      let lo := if (n0 =? 224)%N then 160%N else 128%N in
      let hi := if (n0 =? 237)%N then 159%N else 191%N in
      match s1 with
      | b1 :: b2 :: _ =>
        match second lo hi b1, cont b2 with
        | Some c1, Some c2 => ((((n0 - 224) * 64 + c1) * 64 + c2)%N, 3)
        | _, _ => (RuneError, 1)
        end
      | _ => (RuneError, 1)
      end
    else if in_range 240 244 n0 then
      let lo := if (n0 =? 240)%N then 144%N else 128%N in
      let hi := if (n0 =? 244)%N then 143%N else 191%N in
      match s1 with
      | b1 :: b2 :: b3 :: _ =>
        match second lo hi b1, cont b2, cont b3 with
        | Some c1, Some c2, Some c3 =>
          (((((n0 - 240) * 64 + c1) * 64 + c2) * 64 + c3)%N, 4)
        | _, _, _ => (RuneError, 1)
        end
      | _ => (RuneError, 1)
      end
    else (RuneError, 1)
  end.

(** The runes of a string, as [for _, r := range s] yields them. *)
Fixpoint runes_fuel (fuel : nat) (s : gostring) : list rune :=
  match fuel with
  | O => []
  | S fuel' =>
    match s with
    | [] => []
    | _ => let '(r, w) := DecodeRune s in r :: runes_fuel fuel' (skipn w s)
    end
  end.

Definition runes (s : gostring) : list rune := runes_fuel (length s) s.

(** [utf8.ValidString] on the whole string. *)
Fixpoint valid_fuel (fuel : nat) (s : gostring) : bool :=
  match fuel with
  | O => match s with [] => true | _ => false end
  | S fuel' =>
    match s with
    | [] => true
    | b :: _ =>
      let '(_, w) := DecodeRune s in
      if (N_of_ascii b <? RuneSelf)%N then valid_fuel fuel' (skipn 1 s)
      else if Nat.eqb w 1 then false
      else valid_fuel fuel' (skipn w s)
    end
  end.

Definition ValidString (s : gostring) : bool := valid_fuel (length s) s.

End Utf8.

(** ** unicode *)
Module Unicode.
Import Utf8.

(** [unicode.IsControl]: the category Cc. *)
Definition IsControl (r : rune) : bool :=
  (r <? 32)%N || in_range 127 159 r.

(** [unicode.IsSpace]: the White_Space property. *)
Definition IsSpace (r : rune) : bool :=
  in_range 9 13 r || (r =? 32)%N || (r =? 133)%N || (r =? 160)%N
  || (r =? 5760)%N || in_range 8192 8202 r || (r =? 8232)%N
  || (r =? 8233)%N || (r =? 8239)%N || (r =? 8287)%N || (r =? 12288)%N.

End Unicode.

(** ** strings *)
Module Strings.
Import Utf8.

Fixpoint HasPrefix (s prefix : gostring) : bool :=
  match prefix, s with
  | [], _ => true
  | c :: prefix', d :: s' => Ascii.eqb c d && HasPrefix s' prefix'
  | _ :: _, [] => false
  end.

Fixpoint index_from (i : Z) (substr s : gostring) {struct s} : Z :=
  if HasPrefix s substr then i
  else match s with
       | [] => (-1)%Z
       | _ :: s' => index_from (i + 1) substr s'
       end.

(** [strings.Index]: the first position of [substr] in [s], or -1. *)
Definition Index (s substr : gostring) : Z := index_from 0 substr s.

Fixpoint last_index_from (i found : Z) (substr s : gostring) {struct s} : Z :=
  let found' := if HasPrefix s substr then i else found in
  match s with
  | [] => found'
  | _ :: s' => last_index_from (i + 1) found' substr s'
  end.

(** [strings.LastIndex]: the last position of [substr] in [s], or -1. *)
Definition LastIndex (s substr : gostring) : Z :=
  last_index_from 0 (-1) substr s.

Definition Contains (s substr : gostring) : bool := (0 <=? Index s substr)%Z.

Definition ContainsRune (s : gostring) (r : rune) : bool :=
  existsb (N.eqb r) (runes s).

Fixpoint count_fuel (fuel : nat) (substr s : gostring) : Z :=
  match fuel with
  | O => 0
  | S fuel' =>
    match s with
    | [] => 0
    | _ :: s' =>
      if HasPrefix s substr
      then 1 + count_fuel fuel' substr (skipn (length substr) s)
      else count_fuel fuel' substr s'
    end
  end.

(** [strings.Count]: non-overlapping instances of [substr]; for the empty
    [substr], one more than the number of runes. *)
Definition Count (s substr : gostring) : Z :=
  match substr with
  | [] => Z.of_nat (length (runes s)) + 1
  | _ => count_fuel (length s) substr s
  end.

Fixpoint split_fuel (fuel : nat) (sep cur s : gostring) : list gostring :=
  match fuel with
  | O => [rev cur]
  | S fuel' =>
    match s with
    | [] => [rev cur]
    | c :: s' =>
      if HasPrefix s sep
      then rev cur :: split_fuel fuel' sep [] (skipn (length sep) s)
      else split_fuel fuel' sep (c :: cur) s'
    end
  end.

Fixpoint explode (fuel : nat) (s : gostring) : list gostring :=
  match fuel with
  | O => []
  | S fuel' =>
    match s with
    | [] => []
    | _ => let '(_, w) := DecodeRune s in
           firstn w s :: explode fuel' (skipn w s)
    end
  end.

(** [strings.Split]: the substrings between the occurrences of [sep]. *)
Definition Split (s sep : gostring) : list gostring :=
  match sep with
  | [] => explode (length s) s
  | _ => split_fuel (length s) sep [] s
  end.

Fixpoint Join (elems : list gostring) (sep : gostring) : gostring :=
  match elems with
  | [] => []
  | [e] => e
  | e :: rest => e ++ sep ++ Join rest sep
  end.

Definition flush (cur : gostring) : list gostring :=
  match cur with [] => [] | _ => [rev cur] end.

Fixpoint fields_fuel (fuel : nat) (cur s : gostring) : list gostring :=
  match fuel with
  | O => flush cur
  | S fuel' =>
    match s with
    | [] => flush cur
    | _ =>
      let '(r, w) := DecodeRune s in
      if Unicode.IsSpace r
      then flush cur ++ fields_fuel fuel' [] (skipn w s)
      else fields_fuel fuel' (rev (firstn w s) ++ cur) (skipn w s)
    end
  end.

(** [strings.Fields]: the maximal runs of runes that are not white space. *)
Definition Fields (s : gostring) : list gostring :=
  fields_fuel (length s) [] s.

Fixpoint to_valid_fuel (fuel : nat) (invalid : bool)
         (replacement s : gostring) : gostring :=
  match fuel with
  | O => []
  | S fuel' =>
    match s with
    | [] => []
    | c :: s' =>
      if (N_of_ascii c <? RuneSelf)%N
      then c :: to_valid_fuel fuel' false replacement s'
      else
        let '(_, wid) := DecodeRune s in
        if Nat.eqb wid 1
        then (if invalid then [] else replacement)
               ++ to_valid_fuel fuel' true replacement s'
        else firstn wid s
               ++ to_valid_fuel fuel' false replacement (skipn wid s)
    end
  end.

(** [strings.ToValidUTF8]: every run of bytes that are not part of a valid
    encoding is replaced by one copy of [replacement]. *)
Definition ToValidUTF8 (s replacement : gostring) : gostring :=
  to_valid_fuel (length s) false replacement s.

End Strings.

(** ** package systemd: journal classification (journal.go) *)
Module Journal.
Import Strings.

(** [JournalOutput]; the unused [StartTime] field is left out. *)
Record JournalOutput : Type := mkOutput {
  SystemdLogs : list gostring;
  ExecutionResults : list gostring
}.

(** The variables [processJournalLine] updates through its pointer
    arguments. *)
Record scan : Type := mkScan {
  output : JournalOutput;
  foundStart : bool;
  lastProcessName : gostring;
  inCommandOutput : bool
}.

Definition extractProcessName (line : gostring) : gostring :=
  let idx := Index line (str "[") in
  if (0 <? idx)%Z then
    let beforeBracket := slice_to line idx in
    let lastSpace := LastIndex beforeBracket (str " ") in
    if negb (lastSpace =? -1)%Z then
      let processName := slice_from beforeBracket (lastSpace + 1) in
      let endIdx := Index (slice_from line idx) (str "]:") in
      if (0 <? endIdx)%Z then processName else []
    else []
  else [].

Definition extractMessage (line : gostring) : gostring :=
  let indented :=
    if HasPrefix line (str "  ") || HasPrefix line [byte_of 9]
    then line else [] in
  match line with
  | [] => []
  | _ =>
    let idx := Index line (str "]: ") in
    if negb (idx =? -1)%Z then slice_from line (idx + 3)
    else
      let idx := Index line (str ": ") in
      if negb (idx =? -1)%Z then
        let beforeColon := slice_to line idx in
        if (3 <=? Count beforeColon (str " "))%Z then
          let parts := Fields line in
          if (3 <? Z.of_nat (length parts))%Z then
            let msgStart := Index line (nth 3 parts []) in
            if negb (msgStart =? -1)%Z then
              let remaining := slice_from line msgStart in
              let colonIdx := Index remaining (str ": ") in
              if negb (colonIdx =? -1)%Z
              then slice_from remaining (colonIdx + 2)
              else indented
            else indented
          else indented
        else line
      else indented
  end.

Definition is_systemd (processName : gostring) : bool :=
  gostring_eqb processName (str "systemd")
  || Contains processName (str "systemd[").

Definition is_lifecycle (msg : gostring) : bool :=
  Contains msg (str "Starting") || Contains msg (str "Started")
  || Contains msg (str "Finished") || Contains msg (str "Failed")
  || Contains msg (str "Deactivated").

Definition nonempty (s : gostring) : bool :=
  match s with [] => false | _ => true end.

Definition processJournalLine (line serviceName : gostring) (st : scan)
  : scan :=
  if HasPrefix line (str "-- ") || Contains line (str "telegram-notifier")
  then st
  else if Contains line (str "Starting") && Contains line serviceName
  then mkScan (mkOutput [] []) true [] false
  else if negb (foundStart st) then st
  else
    let processName := extractProcessName line in
    let msg := extractMessage line in
    let out := output st in
    if is_systemd processName then
      if is_lifecycle msg
      then mkScan (mkOutput (SystemdLogs out ++ [msg]) (ExecutionResults out))
                  (foundStart st) (lastProcessName st) false
      else st
    else if nonempty processName
              && negb (gostring_eqb processName (str "systemd"))
    then
      if negb (nonempty msg) && inCommandOutput st
      then mkScan (mkOutput (SystemdLogs out) (ExecutionResults out ++ [[]]))
                  (foundStart st) processName (inCommandOutput st)
      else if nonempty msg
      then mkScan (mkOutput (SystemdLogs out) (ExecutionResults out ++ [msg]))
                  (foundStart st) processName true
      else mkScan out (foundStart st) processName (inCommandOutput st)
    else if nonempty (lastProcessName st)
              && negb (gostring_eqb (lastProcessName st) (str "systemd"))
    then mkScan (mkOutput (SystemdLogs out) (ExecutionResults out ++ [msg]))
                (foundStart st) (lastProcessName st) true
    else st.

(** The parsing part of [GetCurrentExecutionLogs]: the journal text is
    split into lines and [processJournalLine] runs over them in order.
    [invocationID] is the value of the INVOCATION_ID environment
    variable. *)
Definition classify (journalRaw serviceName invocationID : gostring)
  : JournalOutput :=
  let lines := Split journalRaw nl in
  let init := mkScan (mkOutput [] []) (nonempty invocationID) [] false in
  output (fold_left (fun st line => processJournalLine line serviceName st)
                    lines init).

Definition raw_example : gostring :=
  str "Jun 1 00:00:00 h systemd[1]: Starting x.service" ++ nl
  ++ str "Jun 1 00:00:01 h myapp[99]: hello" ++ nl
  ++ str "Jun 1 00:00:02 h systemd[1]: Finished x.service".

End Journal.

(** ** regexp

    Go's [regexp] returns the leftmost match and, among the matches that
    start there, the one a backtracking engine finds first.  [run] is that
    backtracking search, written with a continuation for the rest of the
    pattern.  A pattern is matched rune by rune: a class consumes the bytes
    of one decoded rune. *)
Module Regexp.
Import Utf8.

Inductive regex : Type :=
| Empty
| Class (fold neg : bool) (ranges : list (N * N))
| Cat (a b : regex)
| Alt (a b : regex)
| Star (a : regex)
| BeginText
| EndText.

(** The runes that are equal to [r] under simple case folding, for the
    orbits that meet ASCII (the program's patterns name ASCII only): a
    letter and its other case, with U+212A KELVIN SIGN in the orbit of k
    and U+017F LATIN SMALL LETTER LONG S in the orbit of s. *)
Definition orbit (r : rune) : list rune :=
  if in_range 65 90 r then
    r :: (r + 32)%N ::
      (if (r =? 75)%N then [8490%N] else if (r =? 83)%N then [383%N] else [])
  else if in_range 97 122 r then
    r :: (r - 32)%N ::
      (if (r =? 107)%N then [8490%N] else if (r =? 115)%N then [383%N] else [])
  else if (r =? 8490)%N then [r; 75%N; 107%N]
  else if (r =? 383)%N then [r; 83%N; 115%N]
  else [r].

Definition in_ranges (ranges : list (N * N)) (r : rune) : bool :=
  existsb (fun '(lo, hi) => in_range lo hi r) ranges.

Definition member (fold neg : bool) (ranges : list (N * N)) (r : rune)
  : bool :=
  xorb neg (existsb (in_ranges ranges) (if fold then orbit r else [r])).

Fixpoint run (A : Type) (r : regex) (bot : bool) (s : gostring)
         (k : bool -> gostring -> option A) {struct r} : option A :=
  match r with
  | Empty => k bot s
  | Class fold neg ranges =>
    match s with
    | [] => None
    | _ => let '(c, w) := DecodeRune s in
           if member fold neg ranges c then k false (skipn w s) else None
    end
  | Cat a b => run a bot s (fun bot' s' => run b bot' s' k)
  | Alt a b =>
    match run a bot s k with
    | Some x => Some x
    | None => run b bot s k
    end
  | Star a =>
    (fix loop (n : nat) (bot : bool) (s : gostring) {struct n} : option A :=
       match n with
       | O => k bot s
       | S n' =>
         match run a bot s
                   (fun bot' s' =>
                      if length s' <? length s then loop n' bot' s'
                      else None) with
         | Some x => Some x
         | None => k bot s
         end
       end) (length s) bot s
  | BeginText => if bot then k bot s else None
  | EndText => match s with [] => k bot s | _ => None end
  end.

(** The match that starts at the head of [s], as the text left after it. *)
Definition match_here (r : regex) (bot : bool) (s : gostring)
  : option gostring :=
  run r bot s (fun _ s' => Some s').

(** Leftmost search from offset [pos] of the text, whose remaining part is
    [s]: the bounds [(a0, a1)] of the match. *)
Fixpoint search (fuel : nat) (r : regex) (pos : nat) (s : gostring)
  : option (nat * nat) :=
  match match_here r (Nat.eqb pos 0) s with
  | Some rest => Some (pos, pos + (length s - length rest))
  | None =>
    match fuel with
    | O => None
    | S fuel' =>
      match s with
      | [] => None
      | _ => let '(_, w) := DecodeRune s in
             search fuel' r (pos + w) (skipn w s)
      end
    end
  end.

Definition doExecute (r : regex) (src : gostring) (pos : nat)
  : option (nat * nat) :=
  search (length src) r pos (skipn pos src).

Definition MatchString (r : regex) (s : gostring) : bool :=
  match doExecute r s 0 with Some _ => true | None => false end.

Definition slice (s : gostring) (i j : nat) : gostring :=
  firstn (j - i) (skipn i s).

(** The loop of [Regexp.replaceAll]: [lastMatchEnd] is the end of the most
    recent match, [searchPos] where the next search starts, [buf] the
    output so far.  The replacement is not inserted for an empty match
    right after another match, and the search always advances. *)
Fixpoint replace_loop (fuel : nat) (re : regex)
         (repl : gostring -> gostring) (src : gostring)
         (lastMatchEnd searchPos : nat) (buf : gostring) : gostring :=
  match fuel with
  | O => buf ++ skipn lastMatchEnd src
  | S fuel' =>
    if searchPos <=? length src then
      match doExecute re src searchPos with
      | None => buf ++ skipn lastMatchEnd src
      | Some (a0, a1) =>
        let buf1 := buf ++ slice src lastMatchEnd a0 in
        let buf2 := if (lastMatchEnd <? a1) || (a0 =? 0)
                    then buf1 ++ repl (slice src a0 a1) else buf1 in
        let width := snd (DecodeRune (skipn searchPos src)) in
        let searchPos' :=
          if a1 <? searchPos + width then searchPos + width
          else if a1 <? searchPos + 1 then searchPos + 1
          else a1 in
        replace_loop fuel' re repl src a1 searchPos' buf2
      end
    else buf ++ skipn lastMatchEnd src
  end.

Definition ReplaceAllStringFunc (re : regex) (src : gostring)
           (repl : gostring -> gostring) : gostring :=
  replace_loop (length src + 2) re repl src 0 0 [].

(** *** Pattern syntax *)

Definition Plus (a : regex) : regex := Cat a (Star a).
Definition Opt (a : regex) : regex := Alt a Empty.

(** [a{n,}] *)
Fixpoint AtLeast (n : nat) (a : regex) : regex :=
  match n with
  | O => Star a
  | S n' => Cat a (AtLeast n' a)
  end.

(** [a{0,m}], as (a(a(...)?)?)? *)
Fixpoint UpTo (m : nat) (a : regex) : regex :=
  match m with
  | O => Empty
  | S m' => Opt (Cat a (UpTo m' a))
  end.

(** [a{n,m}] *)
Fixpoint Between (n m : nat) (a : regex) : regex :=
  match n with
  | O => UpTo m a
  | S n' => Cat a (Between n' (m - 1) a)
  end.

Fixpoint Seq (rs : list regex) : regex :=
  match rs with
  | [] => Empty
  | [r] => r
  | r :: rs' => Cat r (Seq rs')
  end.

Fixpoint OneOf (rs : list regex) : regex :=
  match rs with
  | [] => Class false false []
  | [r] => r
  | r :: rs' => Alt r (OneOf rs')
  end.

Definition chr (fold : bool) (c : ascii) : regex :=
  Class fold false [(N_of_ascii c, N_of_ascii c)].

(** A literal string, case-sensitive ([lit]) or under [(?i)] ([ilit]). *)
Definition literal (fold : bool) (s : string) : regex :=
  Seq (map (chr fold) (list_ascii_of_string s)).
Definition lit : string -> regex := literal false.
Definition ilit : string -> regex := literal true.

Definition rng (lo hi : string) : N * N :=
  match lo, hi with
  | String a _, String b _ => (N_of_ascii a, N_of_ascii b)
  | _, _ => (1%N, 0%N)
  end.
Definition one (c : string) : N * N := rng c c.

(** Perl class [\s]: tab, newline, form feed, carriage return, space. *)
Definition space : list (N * N) := [(9, 10); (12, 13); (32, 32)]%N.

End Regexp.

(** ** package constants (constants.go) *)
Module Constants.
Import Regexp.
Local Open Scope string_scope.

Definition DefaultMaxOutputSize : Z := 2500.
Definition TelegramMaxMessageSize : Z := 4096.
Definition MessageSafetyMargin : Z := 500.
Definition MaxHTTPRetries : nat := 3.
(** Durations, in nanoseconds as [time.Duration] counts them. *)
Definition Second : Z := 1000000000.
Definition InitialRetryDelay : Z := 1 * Second.
Definition MaxRetryDelay : Z := 10 * Second.
Definition RetryBackoffFactor : float := 2%float.
Definition RateLimitTokens : Z := 10.
Definition RateLimitRefillRate : Z := 1 * Second.
Definition RateLimitMaxWaitTime : Z := 5 * Second.
Definition CommandRateLimitTokens : Z := 30.
Definition CommandRateLimitRefillRate : Z := 1 * Second.

Definition OutputTruncatedMsg : gostring :=
  (str "...(output truncated)" ++ nl ++ nl)%list.

(** [^[a-zA-Z0-9:_.@-]+\.service$] *)
Definition service_class : list (N * N) :=
  [rng "a" "z"; rng "A" "Z"; rng "0" "9";
   one ":"; one "_"; one "."; one "@"; one "-"].

Definition ServiceNamePattern : regex :=
  Seq [BeginText; Plus (Class false false service_class);
       lit ".service"; EndText].

(** Shared pieces of the secret patterns, all under [(?i)]:
    [[\s:=]+], ['DQ]?] and [([^\s'DQ]+)]; in the comments DQ stands for the
    double quote character and STAR for a star before a parenthesis. *)
Definition dq : string := String (ascii_of_N 34) EmptyString.
Definition quote : list (N * N) := [one "'"; one dq].
Definition sep : regex := Plus (Class true false (space ++ [one ":"; one "="])%list).
Definition oquote : regex := Opt (Class true false quote).
Definition value : regex := Plus (Class true true (space ++ quote)%list).
Definition assigned (key : regex) : regex := Seq [key; sep; oquote; value].

Definition alnum : list (N * N) := [rng "A" "Z"; rng "a" "z"; rng "0" "9"].
Definition dash_under : regex := Opt (Class true false [one "-"; one "_"]).
Definition under_dash : regex := Opt (Class true false [one "_"; one "-"]).
Definition jwt_part : regex :=
  AtLeast 10 (Class false false (alnum ++ [one "_"; one "-"])%list).
Definition digits : regex := Class false false [rng "0" "9"].

Definition SecretPatterns : list regex :=
  [ (* (?i)(password|passwd|pwd)[\s:=]+['DQ]?([^\s'DQ]+) *)
    assigned (OneOf [ilit "password"; ilit "passwd"; ilit "pwd"]);
    (* (?i)(api[_-]?key|apikey)[\s:=]+['DQ]?([^\s'DQ]+) *)
    assigned (OneOf [Seq [ilit "api"; under_dash; ilit "key"];
                     ilit "apikey"]);
    (* (?i)(secret|token)[\s:=]+['DQ]?([^\s'DQ]+) *)
    assigned (OneOf [ilit "secret"; ilit "token"]);
    (* (?i)(auth[_-]?token)[\s:=]+['DQ]?([^\s'DQ]+) *)
    assigned (Seq [ilit "auth"; under_dash; ilit "token"]);
    (* (?i)bearer\s+([a-zA-Z0-9\-._~+/]+=STAR) *)
    Seq [ilit "bearer"; Plus (Class true false space);
         Plus (Class true false
                 [rng "a" "z"; rng "A" "Z"; rng "0" "9"; one "-"; one ".";
                  one "_"; one "~"; one "+"; one "/"]);
         Star (chr true "=")];
    (* -----BEGIN\s+(?:RSA|DSA|EC|OPENSSH|ENCRYPTED)?\s*PRIVATE\s+KEY----- *)
    Seq [lit "-----BEGIN"; Plus (Class false false space);
         Opt (OneOf [lit "RSA"; lit "DSA"; lit "EC"; lit "OPENSSH";
                     lit "ENCRYPTED"]);
         Star (Class false false space); lit "PRIVATE";
         Plus (Class false false space); lit "KEY-----"];
    (* (?i)(aws_secret_access_key|aws_access_key_id)[\s:=]+['DQ]?([^\s'DQ]+) *)
    assigned (OneOf [ilit "aws_secret_access_key"; ilit "aws_access_key_id"]);
    (* (?i)(gcp|google)[-_]?(service[-_]?account|credentials)[\s:=]+['DQ]?([^\s'DQ]+) *)
    assigned (Seq [OneOf [ilit "gcp"; ilit "google"]; dash_under;
                   OneOf [Seq [ilit "service"; dash_under; ilit "account"];
                          ilit "credentials"]]);
    (* (?i)(azure|az)[-_]?(key|secret|token)[\s:=]+['DQ]?([^\s'DQ]+) *)
    assigned (Seq [OneOf [ilit "azure"; ilit "az"]; dash_under;
                   OneOf [ilit "key"; ilit "secret"; ilit "token"]]);
    (* (?i)[a-z]+://[^:/@\s]+:([^@/\s]+)@ *)
    Seq [Plus (Class true false [rng "a" "z"]); ilit "://";
         Plus (Class true true ([one ":"; one "/"; one "@"] ++ space)%list);
         ilit ":";
         Plus (Class true true ([one "@"; one "/"] ++ space)%list);
         ilit "@"];
    (* (?i)(mongodb|postgresql|mysql|redis)://[^\s]+ *)
    Seq [OneOf [ilit "mongodb"; ilit "postgresql"; ilit "mysql";
                ilit "redis"];
         ilit "://"; Plus (Class true true space)];
    (* eyJ[A-Za-z0-9_-]{10,}\.[A-Za-z0-9_-]{10,}\.[A-Za-z0-9_-]{10,} *)
    Seq [lit "eyJ"; jwt_part; lit "."; jwt_part; lit "."; jwt_part];
    (* (?i)(gh[pousr]_[A-Za-z0-9]{36,}) *)
    Seq [ilit "gh";
         Class true false [one "p"; one "o"; one "u"; one "s"; one "r"];
         ilit "_"; AtLeast 36 (Class true false alnum)];
    (* (?i)(glpat-[A-Za-z0-9\-_]{20,}) *)
    Seq [ilit "glpat-";
         AtLeast 20 (Class true false (alnum ++ [one "-"; one "_"])%list)];
    (* (?i)(secret|key|token|password|credential)[\s:=]+['DQ]?([A-Za-z0-9+/]{32,}={0,2}) *)
    Seq [OneOf [ilit "secret"; ilit "key"; ilit "token"; ilit "password";
                ilit "credential"];
         sep; oquote;
         AtLeast 32 (Class true false (alnum ++ [one "+"; one "/"])%list);
         Between 0 2 (chr true "=")];
    (* (?i)(access_token|refresh_token)[\s:=]+['DQ]?([^\s'DQ]+) *)
    assigned (OneOf [ilit "access_token"; ilit "refresh_token"]);
    (* xox[baprs]-[0-9]{10,13}-[0-9]{10,13}-[a-zA-Z0-9]{24,} *)
    Seq [lit "xox";
         Class false false [one "b"; one "a"; one "p"; one "r"; one "s"];
         lit "-"; Between 10 13 digits; lit "-"; Between 10 13 digits;
         lit "-";
         AtLeast 24 (Class false false [rng "a" "z"; rng "A" "Z";
                                        rng "0" "9"])];
    (* (?i)(export\s+)?[A-Z_]+_(PASSWORD|SECRET|KEY|TOKEN)=['DQ]([^'DQ]+)['DQ] *)
    Seq [Opt (Seq [ilit "export"; Plus (Class true false space)]);
         Plus (Class true false [rng "A" "Z"; one "_"]); ilit "_";
         OneOf [ilit "PASSWORD"; ilit "SECRET"; ilit "KEY"; ilit "TOKEN"];
         ilit "="; Class true false quote;
         Plus (Class true true quote); Class true false quote] ].

End Constants.

(** ** package validation (validation.go) *)
Module Validation.
Import Utf8 Strings Regexp Constants.

(** The errors of [ValidateServiceName], one constructor per message. *)
Inductive name_error : Type :=
| EmptyName
| NameTooLong
| ControlCharacters
| NotASCII
| DangerousCharacter (c : rune)
| InvalidFormat.

(** [$ ` | ; & \ \n \r < > ( ) { } [ ] ! * ? ~] *)
Definition dangerousChars : list rune :=
  [36; 96; 124; 59; 38; 92; 10; 13; 60; 62; 40; 41; 123; 125; 91; 93; 33;
   42; 63; 126]%N.

(** [None] is Go's [nil]. *)
Definition ValidateServiceName (name : gostring) : option name_error :=
  match name with
  | [] => Some EmptyName
  | _ =>
    if (256 <? len name)%Z then Some NameTooLong
    else if existsb (fun r => (r =? 0)%N || (r =? 10)%N || (r =? 13)%N
                              || Unicode.IsControl r) (runes name)
    then Some ControlCharacters
    else if existsb (fun r => (127 <? r)%N) (runes name)
    then Some NotASCII
    else
      match find (fun danger => ContainsRune name danger) dangerousChars with
      | Some danger => Some (DangerousCharacter danger)
      | None =>
        if negb (MatchString ServiceNamePattern name)
        then Some InvalidFormat
        else None
      end
  end.

Definition redaction_marker : gostring := str "[REDACTED]".

(** The function literal passed to [ReplaceAllStringFunc]. *)
Definition redact (match_ : gostring) : gostring :=
  if (20 <? len match_)%Z then slice_to match_ 20 ++ redaction_marker
  else redaction_marker.

Definition FilterSecrets (input : gostring) : gostring :=
  fold_left (fun result pattern => ReplaceAllStringFunc pattern result redact)
            SecretPatterns input.

Definition replacement_char : gostring :=
  [byte_of 239; byte_of 191; byte_of 189].

(** [None] is the run-time panic of the slice expression [msg[:maxSize]]
    on a negative bound. *)
Definition TruncateMessage (msg : gostring) (maxSize : Z) : option gostring :=
  if (len msg <=? maxSize)%Z then Some msg
  else
    let truncMsg := OutputTruncatedMsg in
    let availableSize := (maxSize - len truncMsg)%Z in
    if (availableSize <=? 0)%Z then
      if (maxSize <? 0)%Z then None else Some (slice_to msg maxSize)
    else
      let truncated := truncMsg ++ slice_from msg (len msg - availableSize) in
      Some (ToValidUTF8 truncated replacement_char).

Inductive size_error : Type :=
| MessageTooLarge (size limit : Z).

Definition ValidateMessageSize (msg : gostring) : option size_error :=
  if (TelegramMaxMessageSize <? len msg)%Z
  then Some (MessageTooLarge (len msg) TelegramMaxMessageSize)
  else None.

End Validation.

(** ** package ratelimit (the second part of config.go)

    [float64] is Rocq's primitive binary64 [float]; [time.Time] is a reading
    of the monotonic clock in nanoseconds and [time.Duration] a number of
    nanoseconds.  The mutex only serialises the callers: one call of
    [tryTake] is one atomic step on the bucket. *)
Module RateLimit.
Import Constants.

(** The conversion [float64(n)] of an [int64] or [int], rounding to nearest
    even: the primitive conversion of the magnitude, which fits 63 bits
    except for the least integer. *)
Definition float_of_Z (z : Z) : float :=
  if (0 <=? z)%Z then of_uint63 (Uint63.of_Z z)
  else if (z <=? - 2 ^ 63)%Z then (-0x1p+63)%float
  else (- of_uint63 (Uint63.of_Z (- z)))%float.

Definition maxDuration : Z := 2 ^ 63 - 1.
Definition minDuration : Z := - 2 ^ 63.

(** [t.Sub(u)]: the difference, saturating at the bounds of [Duration]. *)
Definition Sub (t u : Z) : Z :=
  let d := (t - u)%Z in
  if (maxDuration <? d)%Z then maxDuration
  else if (d <? minDuration)%Z then minDuration
  else d.

(** [d.Seconds()] *)
Definition Seconds (d : Z) : float :=
  let sec := Z.quot d Second in
  let nsec := Z.rem d Second in
  (float_of_Z sec + float_of_Z nsec / 1e9)%float.

Record TokenBucket : Type := mkBucket {
  tokens : float;
  maxTokens : float;
  refillRate : float;
  lastRefill : Z
}.

(** [now] is the reading of [time.Now()]. *)
Definition NewTokenBucket (now : Z) (maxTokens refillRate : Z) : TokenBucket :=
  mkBucket (float_of_Z maxTokens) (float_of_Z maxTokens)
           (1 / Seconds refillRate)%float now.

Definition refill (now : Z) (tb : TokenBucket) : TokenBucket :=
  let elapsed := Seconds (Sub now (lastRefill tb)) in
  let tokens1 := (tokens tb + elapsed * refillRate tb)%float in
  let tokens2 := if (maxTokens tb <? tokens1)%float
                 then maxTokens tb else tokens1 in
  mkBucket tokens2 (maxTokens tb) (refillRate tb) now.

Definition tryTake (now : Z) (tb : TokenBucket) : bool * TokenBucket :=
  let tb1 := refill now tb in
  if (1 <=? tokens tb1)%float
  then (true, mkBucket (tokens tb1 - 1)%float (maxTokens tb1)
                       (refillRate tb1) (lastRefill tb1))
  else (false, tb1).

Inductive wait_error : Type :=
| WaitCancelled
| WaitTimeout.

(** What one turn of the loop of [Wait] observes: the clock when [tryTake]
    refills, and which case of the [select] fires, the context or the
    100ms timer (then the clock is read again). *)
Inductive select_outcome : Type :=
| CtxDone
| TimerFired (now : Z).

Record tick : Type := mkTick {
  take_time : Z;
  selected : select_outcome
}.

(** [None]: the schedule ends before [Wait] returns. *)
Fixpoint wait_loop (deadline : Z) (ticks : list tick) (tb : TokenBucket)
  : option (option wait_error * TokenBucket) :=
  match ticks with
  | [] => None
  | t :: ticks' =>
    let '(ok, tb1) := tryTake (take_time t) tb in
    if ok then Some (None, tb1)
    else match selected t with
         | CtxDone => Some (Some WaitCancelled, tb1)
         | TimerFired now =>
           if (deadline <? now)%Z then Some (Some WaitTimeout, tb1)
           else wait_loop deadline ticks' tb1
         end
  end.

Definition Wait (start : Z) (ticks : list tick) (tb : TokenBucket)
  : option (option wait_error * TokenBucket) :=
  wait_loop (start + RateLimitMaxWaitTime) ticks tb.

End RateLimit.

(** ** package telegram (the delivery client) *)
Module Telegram.
Import Constants Validation RateLimit.

#[warnings="-register-all"]
Inductive error : Type :=
| HTTPError (StatusCode : Z) (Message : gostring)
| ContextCancelled
| MessageValidationFailed (e : size_error)
| RateLimitError (e : wait_error)
| RetryCancelled
| RequestCreationError
| RequestCancelled
| HttpError (cause : gostring)
| FailedAfterRetries (retries : nat) (lastErr : option error).

(** What [httpClient.Do] gives back: an error (and whether the context is
    done by then), or a response with its status code and the description
    string of its JSON body, when it has one. *)
Inductive transport_result : Type :=
| DoError (cause : gostring) (ctx_done : bool)
| Response (StatusCode : Z) (description : option gostring).

(** The world one call of [SendNotification] runs in. *)
Record env : Type := mkEnv {
  ctx_done_on_entry : bool;
  wait_start : Z;
  wait_ticks : list tick;
  backoff_cancelled : nat -> bool;
  request_created : bool;
  transport : nat -> transport_result
}.

Inductive event : Type :=
| EvWait
| EvBackoff (delay : Z)
| EvDo (attempt : nat).

Fixpoint pow_nat (x : float) (n : nat) : float :=
  match n with
  | O => 1%float
  | S n' => (x * pow_nat x n')%float
  end.

(** [math.Pow] at a whole exponent: the repeated product, and its
    reciprocal when the exponent is negative.  At the base 2.0 of the
    program both are the exact power of two. *)
Definition Pow (x : float) (y : Z) : float :=
  match y with
  | Zneg p => (1 / pow_nat x (Pos.to_nat p))%float
  | _ => pow_nat x (Z.to_nat y)
  end.

Definition minInt64 : Z := (- 2 ^ 63)%Z.
Definition maxInt64 : Z := (2 ^ 63 - 1)%Z.

(** [time.Duration(f)]: the integer part of [f].  For a number outside
    the range of int64, an infinity or a NaN the language leaves the
    result to the implementation; it is the least int64 here, as the
    conversion instruction of amd64 gives. *)
Definition Z_of_float (f : float) : Z :=
  match Prim2SF f with
  | S754_finite s m e =>
    let a := match e with
             | Z0 => Zpos m
             | Zpos p => (Zpos m * 2 ^ Zpos p)%Z
             | Zneg p => (Zpos m / 2 ^ Zpos p)%Z
             end in
    let z := if s then (- a)%Z else a in
    if (minInt64 <=? z)%Z && (z <=? maxInt64)%Z then z else minInt64
  | S754_zero _ => 0%Z
  | _ => minInt64
  end.

(** [attempt] is an int that the loop of [SendNotification] counts up from
    0; the exponent [attempt-1] is taken on the integers. *)
Definition calculateBackoff (attempt : nat) : Z :=
  let delay := Z_of_float (float_of_Z InitialRetryDelay
                           * Pow RetryBackoffFactor (Z.of_nat attempt - 1)%Z)%float in
  if (MaxRetryDelay <? delay)%Z then MaxRetryDelay else delay.

Definition isClientError (err : error) : bool :=
  match err with
  | HTTPError StatusCode _ => (400 <=? StatusCode)%Z && (StatusCode <? 500)%Z
  | _ => false
  end.

Definition sendRequest (e : env) (attempt : nat)
  : option error * list event :=
  if request_created e then
    match transport e attempt with
    | DoError cause done =>
      (Some (if done then RequestCancelled else HttpError cause),
       [EvDo attempt])
    | Response StatusCode description =>
      if negb (StatusCode =? 200)%Z then
        (Some (HTTPError StatusCode
                         match description with
                         | Some d => d
                         | None => str "unknown error"
                         end),
         [EvDo attempt])
      else (None, [EvDo attempt])
    end
  else (Some RequestCreationError, []).

(** The [for] loop of [SendNotification], from [attempt] on, with
    [remaining] turns left. *)
Fixpoint retry_loop (remaining attempt : nat) (e : env)
         (lastErr : option error) : option error * list event :=
  match remaining with
  | O => (Some (FailedAfterRetries MaxHTTPRetries lastErr), [])
  | S remaining' =>
    let pre := if 0 <? attempt then [EvBackoff (calculateBackoff attempt)]
               else [] in
    if (0 <? attempt) && backoff_cancelled e attempt
    then (Some RetryCancelled, pre)
    else
      let '(err, evs) := sendRequest e attempt in
      match err with
      | None => (None, pre ++ evs)
      | Some er =>
        if isClientError er then (Some er, pre ++ evs)
        else
          let '(r, evs') := retry_loop remaining' (S attempt) e (Some er) in
          (r, pre ++ evs ++ evs')
      end
  end.

(** The result, the events in order, and the rate limiter afterwards;
    [None] when the schedule of [Wait] runs out. *)
Definition SendNotification (e : env) (rateLimiter : TokenBucket)
           (message : gostring)
  : option (option error * list event * TokenBucket) :=
  if ctx_done_on_entry e then Some (Some ContextCancelled, [], rateLimiter)
  else
    match ValidateMessageSize message with
    | Some err => Some (Some (MessageValidationFailed err), [], rateLimiter)
    | None =>
      match Wait (wait_start e) (wait_ticks e) rateLimiter with
      | None => None
      | Some (Some werr, tb) => Some (Some (RateLimitError werr), [EvWait], tb)
      | Some (None, tb) =>
        let '(r, evs) := retry_loop (MaxHTTPRetries + 1) 0 e None in
        Some (r, EvWait :: evs, tb)
      end
    end.

Definition network_calls (evs : list event) : nat :=
  length (filter (fun ev => match ev with EvDo _ => true | _ => false end) evs).

Definition backoffs (evs : list event) : nat :=
  length (filter (fun ev => match ev with EvBackoff _ => true | _ => false end)
                 evs).

End Telegram.

(** ** strings and strconv: trimming and decimal numbers *)
Module Trim.
Import Utf8 Strings.

(** [utf8.RuneStart]: the byte is not a continuation byte. *)
Definition RuneStart (b : ascii) : bool :=
  negb (in_range 128 191 (N_of_ascii b)).

(** How far [DecodeLastRuneInString] steps back from the last byte to find
    the start of the last rune: to the nearest byte that can start a rune
    among the three bytes before the last, or past them. *)
Fixpoint step_back (limit : nat) (before : gostring) : nat :=
  match limit with
  | O => match before with [] => 0 | _ => 1 end
  | S limit' =>
    match before with
    | [] => 0
    | b :: before' =>
      if RuneStart b then 1 else S (step_back limit' before')
    end
  end.

(** [utf8.DecodeLastRuneInString] *)
Definition DecodeLastRune (s : gostring) : rune * nat :=
  match rev s with
  | [] => (RuneError, 0)
  | b :: before =>
    if (N_of_ascii b <? RuneSelf)%N then (N_of_ascii b, 1)
    else
      let start := length s - 1 - step_back 3 before in
      let '(r, size) := DecodeRune (skipn start s) in
      if Nat.eqb (start + size) (length s) then (r, size) else (RuneError, 1)
  end.

Definition HasSuffix (s suffix : gostring) : bool :=
  (length suffix <=? length s)
  && gostring_eqb (skipn (length s - length suffix) s) suffix.

Definition TrimPrefix (s prefix : gostring) : gostring :=
  if HasPrefix s prefix then skipn (length prefix) s else s.

Definition TrimSuffix (s suffix : gostring) : gostring :=
  if HasSuffix s suffix then firstn (length s - length suffix) s else s.

Fixpoint trim_left (fuel : nat) (s : gostring) : gostring :=
  match fuel with
  | O => s
  | S fuel' =>
    match s with
    | [] => []
    | _ => let '(r, w) := DecodeRune s in
           if Unicode.IsSpace r then trim_left fuel' (skipn w s) else s
    end
  end.

Fixpoint trim_right (fuel : nat) (s : gostring) : gostring :=
  match fuel with
  | O => s
  | S fuel' =>
    match s with
    | [] => []
    | _ => let '(r, w) := DecodeLastRune s in
           if Unicode.IsSpace r
           then trim_right fuel' (firstn (length s - w) s) else s
    end
  end.

(** [strings.TrimSpace]: the string without its leading and trailing white
    space, as Unicode defines it. *)
Definition TrimSpace (s : gostring) : gostring :=
  trim_right (length s) (trim_left (length s) s).

(** [fmt.Sprintf("%d", n)] and [strconv.Itoa]: the decimal digits, with a
    minus sign for a negative number. *)
Definition Itoa (n : Z) : gostring :=
  str (DecimalString.NilZero.string_of_int (Z.to_int n)).

End Trim.

(** ** package systemd: exit status names (service.go) and the output of
    the cat format (journal.go) *)
Module Systemd.
Import Strings Journal Constants Validation Trim.
Local Open Scope string_scope.
Local Open Scope list_scope.

(** The map of [GetExitStatusString]; its keys are distinct. *)
Definition interpretations : list (Z * string) :=
  [(0, "0/SUCCESS"); (1, "1/FAILURE"); (2, "2/INVALIDARGUMENT");
   (126, "126/CANTEXEC"); (127, "127/NOTFOUND"); (200, "200/CHDIR");
   (201, "201/NICE"); (202, "202/FDS"); (203, "203/EXEC");
   (204, "204/MEMORY"); (205, "205/LIMITS"); (206, "206/OOM_ADJUST");
   (207, "207/SIGNAL_MASK"); (208, "208/STDIN"); (209, "209/STDOUT");
   (210, "210/CHROOT"); (211, "211/IOPRIO"); (212, "212/TIMERSLACK");
   (213, "213/SECUREBITS"); (214, "214/SETSCHEDULER"); (215, "215/CPUAFFINITY");
   (216, "216/GROUP"); (217, "217/USER"); (218, "218/CAPABILITIES");
   (219, "219/CGROUP"); (220, "220/SETSID"); (221, "221/CONFIRM");
   (222, "222/STDERR"); (224, "224/PAM"); (225, "225/NETWORK");
   (226, "226/NAMESPACE"); (227, "227/NO_NEW_PRIVILEGES"); (228, "228/SECCOMP");
   (229, "229/SELINUX_CONTEXT"); (230, "230/PERSONALITY");
   (231, "231/APPARMOR_PROFILE");
   (232, "232/ADDRESS_FAMILIES"); (233, "233/RUNTIME_DIRECTORY");
   (234, "234/MAKE_STARTER");
   (235, "235/CHOWN"); (236, "236/SMACK_PROCESS_LABEL"); (237, "237/KEYRING");
   (238, "238/STATE_DIRECTORY"); (239, "239/CACHE_DIRECTORY");
   (240, "240/LOGS_DIRECTORY");
   (241, "241/CONFIGURATION_DIRECTORY"); (242, "242/NUMA_POLICY");
   (243, "243/CREDENTIALS");
   (245, "245/BPF")]%Z.

Definition GetExitStatusString (code : Z) : gostring :=
  match find (fun entry => (fst entry =? code)%Z) interpretations with
  | Some entry => str (snd entry)
  | None => Itoa code
  end.

Definition systemdMessages : list gostring :=
  map str ["Starting "; "Started "; "Stopping "; "Stopped ";
           "Deactivated "; "systemd["; "Triggering"; "Consumed";
           "memory peak"; "Failed with result"; "Control process exited"].

(** The pair [(skip, reset)]. *)
Definition shouldSkipLine (line serviceName : gostring) : bool * bool :=
  let trimmedLine := TrimSpace line in
  if HasPrefix trimmedLine (str "-- ") then (true, false)
  else if nonempty trimmedLine && Contains trimmedLine (str "Starting ")
          && Contains trimmedLine serviceName
  then (false, true)
  else if nonempty trimmedLine
          && (Contains trimmedLine (str "telegram-notifier")
              || (Contains trimmedLine (str "Finished ")
                  && Contains trimmedLine serviceName)
              || (Contains trimmedLine (str "Failed ")
                  && Contains trimmedLine serviceName))
  then (true, false)
  else if nonempty trimmedLine
          && existsb (fun msg => Contains trimmedLine msg) systemdMessages
  then (true, false)
  else (false, false).

(** The variables of the loop of [processSimpleOutput]. *)
Record capture : Type := mkCapture {
  commandOutput : list gostring;
  captureOutput : bool;
  serviceStartSeen : bool
}.

(** One turn of the loop. *)
Definition capture_line (serviceName execCommand : gostring)
           (st : capture) (line : gostring) : capture :=
  let '(skip, reset) := shouldSkipLine line serviceName in
  if reset then mkCapture [] true true
  else if skip then
    if Contains line (str "Finished") || Contains line (str "Failed")
    then mkCapture (commandOutput st) false (serviceStartSeen st)
    else st
  else if captureOutput st
  then mkCapture (commandOutput st ++ [line]) (captureOutput st)
                 (serviceStartSeen st)
  else if negb (serviceStartSeen st) && nonempty execCommand
          && Contains line execCommand
  then mkCapture (commandOutput st ++ [line]) true (serviceStartSeen st)
  else st.

(** [maxOutputSize] is the field [MaxOutputSize] of the configuration;
    [None] is the panic of [TruncateMessage]. *)
Definition processSimpleOutput (maxOutputSize : Z)
           (output serviceName execCommand : gostring) : option gostring :=
  let lines := Split output nl in
  let st := fold_left (capture_line serviceName execCommand) lines
                      (mkCapture [] false false) in
  match commandOutput st with
  | [] => Some []
  | _ =>
    let result := Join (commandOutput st) nl in
    let result := TrimPrefix result (nl ++ nl) in
    let result := TrimSuffix result (nl ++ nl) in
    TruncateMessage result maxOutputSize
  end.

End Systemd.

(** ** package notifier (notifier.go) *)
Module Notifier.
Import Strings Constants Validation Trim.

Record NotificationData : Type := mkData {
  Hostname : gostring;
  DateTime : gostring;
  ProcessExitCode : Z;
  ServiceStatus : gostring;
  ServiceName : gostring;
  ServiceDesc : gostring;
  Message : gostring;
  IsSuccess : bool
}.

Definition bytes (l : list N) : gostring := map byte_of l.

(** The variable [status]; the pictographs are written as their UTF-8
    bytes. *)
Definition status_text (success : bool) : gostring :=
  if success then str "SUCCESS " ++ bytes [240; 159; 159; 162]%N
  else str "FAILURE " ++ bytes [240; 159; 148; 180]%N.

(** The pieces of the format string between its verbs. *)
Definition tick_nl_dash : gostring := str "`" ++ nl ++ str "- ".

Definition piece0 : gostring := str "*Automated Notification:* ".
Definition piece1 : gostring :=
  nl ++ nl ++ str "- " ++ bytes [240; 159; 150; 165; 239; 184; 143]%N
     ++ str "  *Host:* `".
Definition piece2 : gostring :=
  tick_nl_dash ++ bytes [240; 159; 149; 146]%N ++ str "  *Date/Time:* `".
Definition piece3 : gostring :=
  tick_nl_dash ++ bytes [240; 159; 148; 162]%N ++ str "  *Process Exit Code:* `".
Definition piece4 : gostring :=
  tick_nl_dash ++ bytes [226; 154; 153; 239; 184; 143]%N ++ str "  *Service:* `".
Definition piece5 : gostring :=
  tick_nl_dash ++ bytes [240; 159; 147; 132]%N ++ str "  *Description:* `".
Definition piece6 : gostring := str "`" ++ nl ++ nl.

(** [fmt.Sprintf] with the format string of [formatAndValidateMessage]:
    every verb is [%s], which writes the bytes of its argument. *)
Definition render (status hostname dateTime exitCodeDisplay serviceName
                   serviceDesc message : gostring) : gostring :=
  piece0 ++ status ++ piece1 ++ hostname ++ piece2 ++ dateTime ++ piece3
         ++ exitCodeDisplay ++ piece4 ++ serviceName ++ piece5 ++ serviceDesc
         ++ piece6 ++ message.

(** [None] is the panic of [TruncateMessage]. *)
Definition formatAndValidateMessage (data : NotificationData)
  : option gostring :=
  let status := status_text (IsSuccess data) in
  let exitCodeDisplay := Itoa (ProcessExitCode data) in
  let message := render status (Hostname data) (DateTime data)
                        exitCodeDisplay (ServiceName data) (ServiceDesc data)
                        (Message data) in
  let maxSize := (TelegramMaxMessageSize - MessageSafetyMargin)%Z in
  if (maxSize <? len message)%Z then
    let headerSize := (len message - len (Message data))%Z in
    let allowedMessageSize := (maxSize - headerSize)%Z in
    if (0 <? allowedMessageSize)%Z then
      match TruncateMessage (Message data) allowedMessageSize with
      | Some truncatedMsg =>
        Some (render status (Hostname data) (DateTime data) exitCodeDisplay
                     (ServiceName data) (ServiceDesc data) truncatedMsg)
      | None => None
      end
    else Some message
  else Some message.

End Notifier.

(** * Statements

    The predicates, semantics and sample inputs the properties below are
    stated with. *)

Module Utf8Spec.
Import Utf8.

Definition is_ascii (b : ascii) : bool := (N_of_ascii b <? RuneSelf)%N.

End Utf8Spec.

Module TruncateSpec.
Import Utf8 Strings Constants Validation Utf8Spec.

(** The statement of C8 at one text and one limit: the result is the marker
    followed by a suffix of the text. *)
Definition marker_then_suffix (msg : gostring) (maxSize : Z) : Prop :=
  exists prefix suffix,
    msg = prefix ++ suffix /\
    TruncateMessage msg maxSize = Some (OutputTruncatedMsg ++ suffix).

Definition long_text : gostring :=
  str "2024-06-01 backup finished: 1482 files copied, 0 errors".

(** A text that ends in a two-byte character: 24 bytes [a] and then the
    encoding C3 A9. *)
Definition cut_text : gostring :=
  repeat "a"%char 24 ++ [byte_of 195; byte_of 169].

End TruncateSpec.

Module RegexpSpec.
Import Utf8 Regexp Utf8Spec.

(** What a pattern can match, as a relation between the position before
    (whether it is the beginning of the text, and the text left) and the
    position after.  [run] searches this relation in priority order. *)
Inductive matches : regex -> bool -> gostring -> bool -> gostring -> Prop :=
| m_empty bot s : matches Empty bot s bot s
| m_class fold neg ranges bot s c w :
    s <> [] -> DecodeRune s = (c, w) -> member fold neg ranges c = true ->
    matches (Class fold neg ranges) bot s false (skipn w s)
| m_cat a b bot s bot1 s1 bot2 s2 :
    matches a bot s bot1 s1 -> matches b bot1 s1 bot2 s2 ->
    matches (Cat a b) bot s bot2 s2
| m_alt_l a b bot s bot1 s1 :
    matches a bot s bot1 s1 -> matches (Alt a b) bot s bot1 s1
| m_alt_r a b bot s bot1 s1 :
    matches b bot s bot1 s1 -> matches (Alt a b) bot s bot1 s1
| m_star_stop a bot s : matches (Star a) bot s bot s
| m_star_more a bot s bot1 s1 bot2 s2 :
    matches a bot s bot1 s1 -> length s1 < length s ->
    matches (Star a) bot1 s1 bot2 s2 ->
    matches (Star a) bot s bot2 s2
| m_begin s : matches BeginText true s true s
| m_end bot : matches EndText bot [] bot [].

(** A pattern that cannot match the empty string. *)
Fixpoint nullable (r : regex) : bool :=
  match r with
  | Class _ _ _ => false
  | Cat a b => nullable a && nullable b
  | Alt a b => nullable a || nullable b
  | Empty | Star _ | BeginText | EndText => true
  end.

(** Every class of the pattern accepts only runes that satisfy [Q]. *)
Fixpoint classes_within (Q : rune -> bool) (r : regex) : Prop :=
  match r with
  | Class fold neg ranges =>
    forall c, member fold neg ranges c = true -> Q c = true
  | Cat a b | Alt a b => classes_within Q a /\ classes_within Q b
  | Star a => classes_within Q a
  | Empty | BeginText | EndText => True
  end.

(** The pattern ends with the end-of-text assertion. *)
Fixpoint ends_text (r : regex) : bool :=
  match r with
  | EndText => true
  | Cat _ b => ends_text b
  | Alt a b => ends_text a && ends_text b
  | _ => false
  end.

(** The pattern starts with the beginning-of-text assertion. *)
Fixpoint begins_text (r : regex) : bool :=
  match r with
  | BeginText => true
  | Cat a _ => begins_text a
  | Alt a b => begins_text a && begins_text b
  | _ => false
  end.

End RegexpSpec.

Module ServiceNameSpec.
Import Utf8 Strings Regexp Constants Validation Utf8Spec RegexpSpec.

(** The runes the class of [ServiceNamePattern] accepts. *)
Definition allowed (c : rune) : bool := in_ranges service_class c.

End ServiceNameSpec.

Module RedactionSpec.
Import Utf8 Strings Regexp Constants Validation RegexpSpec.

(** The statement of C2 at one input: no secret pattern matches anywhere in
    the filtered text. *)
Definition no_secret_left (input : gostring) : Prop :=
  forall re, In re SecretPatterns -> MatchString re (FilterSecrets input) = false.

Definition password_line : gostring := str "password=abcdef1234567890ZZZZ".

Definition plain_line : gostring := str "backup finished: 1482 files copied".

End RedactionSpec.

Module DeliverySpec.
Import Constants Validation RateLimit Telegram.

(** A transport that answers every request with 403 and a description. *)
Definition forbidden_env : env :=
  mkEnv false 0 [mkTick 0 CtxDone] (fun _ => false) true
        (fun _ => Response 403 (Some (str "Forbidden: bot was blocked"))).

Definition fresh_limiter : TokenBucket :=
  NewTokenBucket 0 RateLimitTokens RateLimitRefillRate.

End DeliverySpec.

Module FloatSpec.
Local Open Scope Z_scope.

Definition nonneg (x : spec_float) : bool :=
  match x with
  | S754_zero _ | S754_infinity false | S754_finite false _ _ => true
  | _ => false
  end.

Definition finite_pos (x : spec_float) : bool :=
  match x with S754_finite false _ _ => true | _ => false end.

Definition is_nan (x : spec_float) : bool :=
  match x with S754_nan => true | _ => false end.

Definition SFone : spec_float := S754_finite false 4503599627370496 (-52).

(** A positive finite number whose binary magnitude (the number of bits of
    the mantissa plus the exponent) lies between [lo] and [hi]: its value
    is in [[2^(lo-1), 2^hi)]. *)
Definition mag_in (lo hi : Z) (x : spec_float) : Prop :=
  exists m e, x = S754_finite false m e
              /\ lo <= Zpos (digits2_pos m) + e <= hi.

End FloatSpec.

Module RateLimitSpec.
Import Constants RateLimit FloatSpec.
Local Open Scope Z_scope.

(** The invariant: [0 <= tokens <= maxTokens], as [float64] compares. *)
Definition within_capacity (tb : TokenBucket) : bool :=
  ((0 <=? tokens tb) && (tokens tb <=? maxTokens tb))%float.

(** The refill rate is a positive finite number. *)
Definition rate_ok (tb : TokenBucket) : bool :=
  ((0 <? refillRate tb) && (refillRate tb <? infinity))%float.

Inductive op : Type :=
| OpRefill
| OpTryTake.

(** One operation at the clock reading [now]. *)
Definition apply_op (tb : TokenBucket) (o : op * Z) : TokenBucket :=
  match fst o with
  | OpRefill => refill (snd o) tb
  | OpTryTake => snd (tryTake (snd o) tb)
  end.

(** The buckets after each operation of a sequence. *)
Fixpoint states (tb : TokenBucket) (ops : list (op * Z)) : list TokenBucket :=
  match ops with
  | [] => []
  | o :: ops' => apply_op tb o :: states (apply_op tb o) ops'
  end.

(** The clock does not go back: the elapsed time is never negative. *)
Fixpoint clock_from (last : Z) (ops : list (op * Z)) : Prop :=
  match ops with
  | [] => True
  | o :: ops' => last <= snd o /\ clock_from (snd o) ops'
  end.

(** The statement of C6 for one bucket and one sequence of operations. *)
Definition capacity_invariant (now maxTokens refillRate : Z)
           (ops : list (op * Z)) : Prop :=
  clock_from now ops ->
  Forall (fun tb => within_capacity tb = true)
         (NewTokenBucket now maxTokens refillRate
            :: states (NewTokenBucket now maxTokens refillRate) ops).

(** The statement of C5 for one call: when fewer than one token is there
    after the refill, the call fails and the level and the time of the last
    refill are as before. *)
Definition unchanged_on_failure (now : Z) (tb : TokenBucket) : Prop :=
  (tokens (refill now tb) <? 1)%float = true ->
  fst (tryTake now tb) = false
  /\ tokens (snd (tryTake now tb)) = tokens tb
  /\ lastRefill (snd (tryTake now tb)) = lastRefill tb.

(** A bucket of capacity one, emptied at time 0. *)
Definition drained : TokenBucket := snd (tryTake 0 (NewTokenBucket 0 1 Second)).

End RateLimitSpec.

Module JournalSpec.
Import Strings Journal.

(** The lines [processJournalLine] drops before looking at them: journal
    separators and the notifier's own log lines. *)
Definition skipped (line : gostring) : bool :=
  HasPrefix line (str "-- ") || Contains line (str "telegram-notifier").

(** A line that starts a new execution of the service. *)
Definition start_marker (line serviceName : gostring) : bool :=
  negb (skipped line)
  && (Contains line (str "Starting") && Contains line serviceName).

(** The loop of [GetCurrentExecutionLogs] from a given state. *)
Definition scan_lines (lines : list gostring) (serviceName : gostring)
           (st : scan) : scan :=
  fold_left (fun st line => processJournalLine line serviceName st) lines st.

(** The state right after a start marker. *)
Definition started : scan := mkScan (mkOutput [] []) true [] false.

Definition has_byte (c : ascii) (s : gostring) : bool :=
  existsb (Ascii.eqb c) s.

(** A journal line in the short format,
    [stamp name[pid]: message]. *)
Definition short_line (stamp name pid msg : gostring) : gostring :=
  stamp ++ str " " ++ name ++ str "[" ++ pid ++ str "]: " ++ msg.

Definition entries (out : JournalOutput) : nat :=
  length (SystemdLogs out) + length (ExecutionResults out).

End JournalSpec.

Module SystemdSpec.
Import Strings Journal Constants Validation Trim Systemd.

(** The loop of [processSimpleOutput] from a given state. *)
Definition capture_lines (serviceName execCommand : gostring)
           (lines : list gostring) (st : capture) : capture :=
  fold_left (capture_line serviceName execCommand) lines st.

(** What [processSimpleOutput] returns for the captured lines. *)
Definition deliver (maxOutputSize : Z) (kept : list gostring)
  : option gostring :=
  match kept with
  | [] => Some []
  | _ => TruncateMessage
           (TrimSuffix (TrimPrefix (Join kept nl) (nl ++ nl)) (nl ++ nl))
           maxOutputSize
  end.

(** A line that is neither dropped nor a start marker. *)
Definition plain (serviceName line : gostring) : bool :=
  negb (fst (shouldSkipLine line serviceName))
  && negb (snd (shouldSkipLine line serviceName)).

(** A dropped line that ends the capture. *)
Definition completion (serviceName line : gostring) : bool :=
  fst (shouldSkipLine line serviceName)
  && negb (snd (shouldSkipLine line serviceName))
  && (Contains line (str "Finished") || Contains line (str "Failed")).

Definition cat_example : gostring :=
  str "Starting x.service..." ++ nl ++ str "hello" ++ nl ++ str "world" ++ nl
  ++ str "Finished x.service." ++ nl ++ str "late line".

End SystemdSpec.

Module NotifierSpec.
Import Strings Constants Validation Trim Notifier.

(** Everything of the formatted message before the message text. *)
Definition header (data : NotificationData) : gostring :=
  render (status_text (IsSuccess data)) (Hostname data) (DateTime data)
         (Itoa (ProcessExitCode data)) (ServiceName data) (ServiceDesc data)
         [].

(** The size the message is formatted for. *)
Definition formatted_limit : Z := TelegramMaxMessageSize - MessageSafetyMargin.

(** The tail [TruncateMessage] keeps of [msg] under the limit [maxSize],
    when it keeps one, is valid UTF-8. *)
Definition kept_tail_valid (msg : gostring) (maxSize : Z) : Prop :=
  (len OutputTruncatedMsg < maxSize < len msg)%Z ->
  Utf8.ValidString
    (slice_from msg (len msg - (maxSize - len OutputTruncatedMsg))) = true.

Definition sample_data (message : gostring) : NotificationData :=
  mkData (str "host1") (str "01-Jun 00:00:02") 0 (str "0/SUCCESS")
         (str "x.service") (str "Nightly backup") message true.

End NotifierSpec.

Module NameShapeSpec.
Import Utf8 Strings Regexp Constants Validation ServiceNameSpec.

(** A unit name as systemd writes one: a body of letters, digits and the
    characters [: _ . @ -], not empty, followed by [.service], of at most
    256 bytes in all. *)
Definition well_formed (name : gostring) : Prop :=
  exists body,
    name = body ++ str ".service"
    /\ body <> []
    /\ Forall (fun b => allowed (N_of_ascii b) = true) body
    /\ (len name <= 256)%Z.

End NameShapeSpec.

Module RetrySpec.
Import Constants Validation RateLimit Telegram.

(** The error [sendRequest] makes of what the transport gives back; [None]
    for a response with the status 200. *)
Definition reply_error (t : transport_result) : option error :=
  match t with
  | DoError cause done =>
    Some (if done then RequestCancelled else HttpError cause)
  | Response StatusCode description =>
    if negb (StatusCode =? 200)%Z
    then Some (HTTPError StatusCode
                         match description with
                         | Some d => d
                         | None => str "unknown error"
                         end)
    else None
  end.

(** A failure the loop retries. *)
Definition retryable (t : transport_result) : bool :=
  match reply_error t with
  | Some er => negb (isClientError er)
  | None => false
  end.

(** The delivery gets as far as the first request. *)
Definition reaches_transport (e : env) (rateLimiter tb : TokenBucket)
           (message : gostring) : Prop :=
  ctx_done_on_entry e = false
  /\ ValidateMessageSize message = None
  /\ Wait (wait_start e) (wait_ticks e) rateLimiter = Some (None, tb).

(** A transport that answers the first [failures] requests with 502 and
    the next one with 200. *)
Definition flaky_env (failures : nat) : env :=
  mkEnv false 0 [mkTick 0 CtxDone] (fun _ => false) true
        (fun n => if n <? failures then Response 502 None
                  else Response 200 None).

End RetrySpec.

Module BucketSpec.
Import Constants RateLimit.

(** The clock readings of the turns of [Wait] do not go back. *)
Fixpoint ticks_from (last : Z) (ticks : list tick) : Prop :=
  match ticks with
  | [] => True
  | t :: ticks' => (last <= take_time t)%Z /\ ticks_from (take_time t) ticks'
  end.

(** The outcomes of [n] calls of [tryTake] at the same clock reading. *)
Fixpoint takes (n : nat) (now : Z) (tb : TokenBucket) : list bool :=
  match n with
  | O => []
  | S n' => fst (tryTake now tb) :: takes n' now (snd (tryTake now tb))
  end.

(** Some timer of the schedule fired after the deadline. *)
Definition fired_after (deadline : Z) (ticks : list tick) : Prop :=
  exists t now, In t ticks /\ selected t = TimerFired now
                /\ (deadline < now)%Z.

Definition cancelled_in (ticks : list tick) : Prop :=
  exists t, In t ticks /\ selected t = CtxDone.

(** A zero without its sign; any other number as it is. *)
Definition plus_zero (x : spec_float) : spec_float :=
  match x with S754_zero _ => S754_zero false | _ => x end.

End BucketSpec.

Module SweepSpec.
Import Utf8 Strings Regexp Constants Validation RegexpSpec RedactionSpec.

(** The number of characters of a text, as a [range] loop counts them. *)
Definition chars (s : gostring) : nat := length (runes s).

(** The replacement C7 gives for a match, with the lengths in bytes. *)
Definition replacement (m : gostring) : gostring :=
  if (len m <=? 20)%Z then redaction_marker
  else firstn 20 m ++ redaction_marker.

(** One pass as C7 describes it, from offset [pos] of the text on: the
    next match is looked for from the end of the previous one, the text up
    to it is kept, the match is replaced, and the text after the last match
    is kept.  [fuel] bounds the number of matches. *)
Fixpoint replace_each_match (fuel : nat) (re : regex) (src : gostring)
         (pos : nat) : gostring :=
  match fuel with
  | O => skipn pos src
  | S fuel' =>
    match doExecute re src pos with
    | None => skipn pos src
    | Some (a0, a1) =>
      slice src pos a0 ++ replacement (slice src a0 a1)
            ++ replace_each_match fuel' re src a1
    end
  end.

(** A match of these patterns has at least one byte, so that a text has no
    more matches than bytes. *)
Definition redact_pass (re : regex) (src : gostring) : gostring :=
  replace_each_match (length src) re src 0.

(** The offsets at which a search that starts at [p] tries the pattern:
    [p], and after each of them the offset behind the rune decoded
    there. *)
Inductive tried (src : gostring) : nat -> nat -> Prop :=
| tried_here p : tried src p p
| tried_next p q :
    p < length src ->
    tried src (p + snd (DecodeRune (skipn p src))) q ->
    tried src p q.

(** The pattern has a match that starts at offset [q] of the text. *)
Definition matches_at (re : regex) (src : gostring) (q : nat) : Prop :=
  exists bot' rest, matches re (Nat.eqb q 0) (skipn q src) bot' rest.

(** One sweep of a pattern over the text from offset [p] on, and its
    output.  Either the pattern has no match at any offset the search
    tries, and the rest of the text is kept; or [a0] is the first such
    offset with a match, the text before it is kept, a match that starts
    there and ends at [a1] is replaced, and the sweep goes on from
    [a1]. *)
Inductive swept (re : regex) (src : gostring) : nat -> gostring -> Prop :=
| swept_end p :
    p <= length src ->
    (forall q, tried src p q -> ~ matches_at re src q) ->
    swept re src p (skipn p src)
| swept_match p a0 a1 bot' out :
    p <= a0 -> a0 < a1 -> a1 <= length src ->
    tried src p a0 ->
    (forall q, tried src p q -> q < a0 -> ~ matches_at re src q) ->
    matches re (Nat.eqb a0 0) (skipn a0 src) bot' (skipn a1 src) ->
    swept re src a1 out ->
    swept re src p (slice src p a0 ++ replacement (slice src a0 a1) ++ out).

(** One sweep per pattern, in order, each over the output of the one
    before. *)
Inductive sweeps : list regex -> gostring -> gostring -> Prop :=
| sweeps_nil text : sweeps [] text text
| sweeps_cons re patterns text text1 text2 :
    swept re text 0 text1 ->
    sweeps patterns text1 text2 ->
    sweeps (re :: patterns) text text2.

(** A password of eight two-byte characters: 17 characters, 25 bytes. *)
Definition wide_password : gostring :=
  str "password=" ++ concat (repeat [byte_of 195; byte_of 169] 8).

(** The statement of C7 at a text that is one match, with the lengths in
    characters. *)
Definition replaced_by_characters (m : gostring) : Prop :=
  chars m <= 20 -> FilterSecrets m = redaction_marker.

End SweepSpec.

Module ClientErrorSpec.
Import Constants Validation RateLimit Telegram DeliverySpec RetrySpec.

(** The message of the error made of a response. *)
Definition error_text (description : option gostring) : gostring :=
  match description with
  | Some d => d
  | None => str "unknown error"
  end.

(** The events of the loop from attempt [a] on when [n] more attempts
    follow it: the backoff before every attempt but attempt 0, and the
    request. *)
Fixpoint trace_from (a n : nat) : list event :=
  (if 0 <? a then [EvBackoff (calculateBackoff a)] else [])
    ++ EvDo a :: match n with
                 | O => []
                 | S n' => trace_from (S a) n'
                 end.

(** The statement of C3 at one delivery: whenever a request of it is
    answered with a status in [400, 500), that error is returned after one
    network call and no backoff. *)
Definition single_call (e : env) (rateLimiter : TokenBucket)
           (message : gostring) : Prop :=
  forall result events tb k status description,
    SendNotification e rateLimiter message = Some (result, events, tb) ->
    In (EvDo k) events ->
    transport e k = Response status description ->
    (400 <= status < 500)%Z ->
    result = Some (HTTPError status (error_text description))
    /\ network_calls events = 1
    /\ backoffs events = 0.

(** A transport that answers the first request with 500 and the others
    with 400. *)
Definition retried_env : env :=
  mkEnv false 0 [mkTick 0 CtxDone] (fun _ => false) true
        (fun n => if Nat.eqb n 0 then Response 500 None
                  else Response 400 None).

End ClientErrorSpec.

Module SizeLimitSpec.
Import Utf8 Constants Validation RateLimit Telegram DeliverySpec SweepSpec.

(** The delivery does not end with a size validation error. *)
Definition accepted (e : env) (rateLimiter : TokenBucket)
           (message : gostring) : Prop :=
  forall err events tb,
    SendNotification e rateLimiter message
    <> Some (Some (MessageValidationFailed err), events, tb).

(** The statement of the first half of C4 at one message, with the length
    in characters. *)
Definition accepted_by_characters (e : env) (rateLimiter : TokenBucket)
           (message : gostring) : Prop :=
  chars message = 4096 -> accepted e rateLimiter message.

(** 4096 characters, the last of which has two bytes: 4097 bytes. *)
Definition wide_message : gostring :=
  repeat "a"%char 4095 ++ [byte_of 195; byte_of 169].

(** A transport that answers every request with 200. *)
Definition ok_env : env :=
  mkEnv false 0 [mkTick 0 CtxDone] (fun _ => false) true
        (fun _ => Response 200 None).

End SizeLimitSpec.

(** * Properties *)

Lemma gostring_eqb_eq (a b : gostring) : gostring_eqb a b = true <-> a = b.
Proof.
  revert b; induction a as [|x a IH]; intros [|y b]; simpl; split; intro H;
    try discriminate; try reflexivity.
  - apply andb_true_iff in H as [Hx Hab].
    apply Ascii.eqb_eq in Hx. apply IH in Hab. congruence.
  - injection H as -> ->. rewrite Ascii.eqb_refl. simpl. now apply IH.
Qed.

(** ** Journal classification *)
Module JournalFacts.
Import Utf8Spec TruncateSpec RegexpSpec ServiceNameSpec RedactionSpec DeliverySpec FloatSpec RateLimitSpec.
Import Strings Journal.

(** A line that carries the start keyword and the service name, and is not
    skipped as a separator or a self-reference, resets the scan: both
    sequences are emptied and the line itself is recorded nowhere. *)
Lemma start_marker_resets (line serviceName : gostring) (st : scan) :
  HasPrefix line (str "-- ") = false ->
  Contains line (str "telegram-notifier") = false ->
  Contains line (str "Starting") = true ->
  Contains line serviceName = true ->
  processJournalLine line serviceName st = mkScan (mkOutput [] []) true [] false.
Proof.
  intros H1 H2 H3 H4. unfold processJournalLine.
  now rewrite H1, H2, H3, H4.
Qed.

(** Before any start marker, and without invocation scoping, a line leaves
    the scan as it is. *)
Lemma before_start_ignored (line serviceName : gostring) (st : scan) :
  foundStart st = false ->
  (Contains line (str "Starting") && Contains line serviceName) = false ->
  processJournalLine line serviceName st = st.
Proof.
  intros H1 H2. unfold processJournalLine.
  destruct (HasPrefix line (str "-- ") || Contains line (str "telegram-notifier"));
    [reflexivity|].
  now rewrite H2, H1.
Qed.

(** C1, as the spec states it, does not hold: the classification of the
    example is not lifecycle [Starting x.service; Finished x.service] with
    output [hello]. *)
Lemma classify_example_not_as_stated :
  classify raw_example (str "x.service") []
  <> mkOutput [str "Starting x.service"; str "Finished x.service"]
              [str "hello"].
Proof. vm_compute. discriminate. Qed.

(** C1 (amended): for the example text, service name x.service and no
    invocation scoping, the fold of [processJournalLine] over the lines
    yields the lifecycle sequence [Finished x.service] and the output
    sequence [hello]; the start marker resets the scan and is discarded. *)
Theorem classify_example :
  classify raw_example (str "x.service") []
  = mkOutput [str "Finished x.service"] [str "hello"].
Proof. vm_compute. reflexivity. Qed.

End JournalFacts.

(** ** UTF-8 decoding *)
Module Utf8Facts.
Import Utf8Spec TruncateSpec RegexpSpec ServiceNameSpec RedactionSpec DeliverySpec FloatSpec RateLimitSpec.
Import Utf8.

Ltac bool_cases :=
  repeat match goal with
         | |- context [if ?b then _ else _] => destruct b eqn:?
         | |- context [match ?x with _ => _ end] => destruct x eqn:?
         end.

(** The width of a decoded rune is between 1 and 4 and within the string. *)
Lemma DecodeRune_width (s : gostring) :
  s <> [] ->
  1 <= snd (DecodeRune s) <= 4 /\ snd (DecodeRune s) <= length s.
Proof.
  intro Hs. destruct s as [|b0 s1]; [congruence|].
  unfold DecodeRune. bool_cases; simpl; lia.
Qed.

Lemma cont_lt (b : ascii) (c : N) : cont b = Some c -> (c < 64)%N.
Proof.
  unfold cont, in_range. destruct (_ && _) eqn:E; [|discriminate].
  intro H; injection H as <-.
  apply andb_true_iff in E as [E1 E2]. apply N.leb_le in E1, E2. lia.
Qed.

(** A rune below [RuneSelf] is decoded from one byte, which is its value. *)
Lemma DecodeRune_ascii (b : ascii) (s : gostring) (c : rune) (w : nat) :
  DecodeRune (b :: s) = (c, w) -> (c < 128)%N -> w = 1 /\ c = N_of_ascii b.
Proof.
  unfold DecodeRune, RuneSelf, RuneError.
  destruct (N_of_ascii b <? 128)%N eqn:E0.
  { intros H _. injection H as <- <-. split; reflexivity. }
  apply N.ltb_ge in E0.
  unfold second, cont, in_range.
  intros H Hc. exfalso. revert H.
  repeat match goal with
         | |- context [match ?x with _ => _ end] => destruct x eqn:?
         end;
    intro H; inversion H; subst;
    repeat match goal with
           | H : (if ?c then _ else _) = Some _ |- _ => destruct c eqn:?
           | H : (_ && _) = true |- _ => apply andb_true_iff in H as [? ?]
           | H : (_ <=? _)%N = true |- _ => apply N.leb_le in H
           | H : (_ =? _)%N = true |- _ => apply N.eqb_eq in H
           | H : (_ =? _)%N = false |- _ => apply N.eqb_neq in H
           | H : Some _ = Some _ |- _ => inversion H; clear H; subst
           | H : context [if ?c then _ else _] |- _ => destruct c eqn:?
           end; try discriminate; try lia.
Qed.

Lemma DecodeRune_of_ascii (b : ascii) (s : gostring) :
  is_ascii b = true -> DecodeRune (b :: s) = (N_of_ascii b, 1).
Proof. unfold is_ascii, DecodeRune. now intros ->. Qed.

(** Over ASCII bytes the runes of a string are its bytes. *)
Lemma runes_fuel_ascii (s : gostring) :
  forallb is_ascii s = true ->
  forall fuel, length s <= fuel -> runes_fuel fuel s = map N_of_ascii s.
Proof.
  induction s as [|b s IH]; intros Hs fuel Hf.
  - destruct fuel; reflexivity.
  - simpl in Hs. apply andb_true_iff in Hs as [Hb Hs].
    destruct fuel as [|fuel]; [simpl in Hf; lia|].
    cbn [runes_fuel]. rewrite DecodeRune_of_ascii by assumption. cbn [skipn map].
    f_equal. apply IH; [assumption|simpl in Hf; lia].
Qed.

Lemma runes_ascii (s : gostring) :
  forallb is_ascii s = true -> runes s = map N_of_ascii s.
Proof. intro H. apply runes_fuel_ascii; [assumption|reflexivity]. Qed.

End Utf8Facts.

(** ** Truncation *)
Module TruncateFacts.
Import Utf8Spec TruncateSpec RegexpSpec ServiceNameSpec RedactionSpec DeliverySpec FloatSpec RateLimitSpec.
Import Utf8 Strings Constants Validation Utf8Facts.

(** [ToValidUTF8] copies a leading run of ASCII bytes. *)
Lemma to_valid_fuel_ascii_prefix (p t replacement : gostring) :
  forallb is_ascii p = true ->
  forall fuel invalid,
    to_valid_fuel (length p + fuel) invalid replacement (p ++ t)
    = p ++ to_valid_fuel fuel
                         (match p with [] => invalid | _ => false end)
                         replacement t.
Proof.
  induction p as [|c p IH]; intros Hp fuel invalid; [reflexivity|].
  simpl in Hp. apply andb_true_iff in Hp as [Hc Hp].
  cbn [length Nat.add app to_valid_fuel].
  unfold is_ascii in Hc. rewrite Hc. f_equal.
  rewrite IH by assumption. now destruct p.
Qed.

Lemma ToValidUTF8_ascii_prefix (p t replacement : gostring) :
  forallb is_ascii p = true ->
  p <> [] ->
  ToValidUTF8 (p ++ t) replacement = p ++ ToValidUTF8 t replacement.
Proof.
  intros Hp Hne. unfold ToValidUTF8. rewrite length_app.
  rewrite to_valid_fuel_ascii_prefix by assumption.
  now destruct p.
Qed.

(** On valid UTF-8, [ToValidUTF8] is the identity. *)
Lemma to_valid_fuel_valid (replacement : gostring) (fuel : nat) :
  forall s invalid,
    valid_fuel fuel s = true ->
    to_valid_fuel fuel invalid replacement s = s.
Proof.
  induction fuel as [|fuel IH]; intros s invalid H.
  - destruct s; [reflexivity|discriminate].
  - destruct s as [|c s]; [reflexivity|].
    cbn [valid_fuel to_valid_fuel] in *.
    destruct (DecodeRune (c :: s)) as [r w] eqn:D.
    destruct (N_of_ascii c <? RuneSelf)%N.
    + cbn [skipn] in H. now rewrite IH.
    + destruct (Nat.eqb w 1); [discriminate|].
      rewrite IH by assumption. apply firstn_skipn.
Qed.

Lemma ToValidUTF8_valid (s replacement : gostring) :
  ValidString s = true -> ToValidUTF8 s replacement = s.
Proof. apply to_valid_fuel_valid. Qed.

Lemma marker_ascii : forallb is_ascii OutputTruncatedMsg = true.
Proof. reflexivity. Qed.

Lemma marker_len : len OutputTruncatedMsg = 23%Z.
Proof. reflexivity. Qed.

(** C8 does not hold for every limit: with a limit of 4 the text 0123456789
    is cut to its first four bytes, and no marker is prepended. *)
Lemma small_limit_keeps_head :
  (4 < len (str "0123456789"))%Z /\ ~ marker_then_suffix (str "0123456789") 4.
Proof.
  split; [reflexivity|].
  intros (prefix & suffix & _ & H). vm_compute in H. discriminate.
Qed.

(** C8 (amended): for a text longer than the limit, when the limit exceeds
    the length of the marker the result is the marker followed by the last
    [maxSize - 23] bytes of the text with every run of invalid UTF-8 bytes
    replaced by U+FFFD, which is that suffix itself when it is valid UTF-8;
    when the limit is between 0 and the length of the marker the result is
    the first [maxSize] bytes of the text, without the marker. *)
Theorem TruncateMessage_over_limit (msg : gostring) (maxSize : Z) :
  (maxSize < len msg)%Z ->
  let tail := slice_from msg (len msg - (maxSize - len OutputTruncatedMsg)) in
  ((len OutputTruncatedMsg < maxSize)%Z ->
   TruncateMessage msg maxSize
   = Some (OutputTruncatedMsg ++ ToValidUTF8 tail replacement_char)
   /\ (exists prefix, msg = prefix ++ tail)
   /\ len tail = (maxSize - len OutputTruncatedMsg)%Z
   /\ (ValidString tail = true ->
       TruncateMessage msg maxSize = Some (OutputTruncatedMsg ++ tail)))
  /\ ((0 <= maxSize <= len OutputTruncatedMsg)%Z ->
      TruncateMessage msg maxSize = Some (slice_to msg maxSize)).
Proof.
  intros Hlen tail. unfold TruncateMessage.
  assert (E1 : (len msg <=? maxSize)%Z = false) by (apply Z.leb_gt; lia).
  rewrite E1. split.
  - intro Hbig.
    assert (E2 : (maxSize - len OutputTruncatedMsg <=? 0)%Z = false)
      by (apply Z.leb_gt; lia).
    rewrite E2.
    assert (E3 : ToValidUTF8 (OutputTruncatedMsg ++ tail) replacement_char
                 = OutputTruncatedMsg ++ ToValidUTF8 tail replacement_char).
    { apply ToValidUTF8_ascii_prefix; [apply marker_ascii|discriminate]. }
    fold tail. rewrite E3. repeat split.
    + exists (slice_to msg (len msg - (maxSize - len OutputTruncatedMsg))).
      unfold tail, slice_to, slice_from. symmetry. apply firstn_skipn.
    + unfold tail, slice_from, len in *. rewrite length_skipn. lia.
    + intro Hv. now rewrite ToValidUTF8_valid.
  - intros [H0 Hsmall].
    assert (E2 : (maxSize - len OutputTruncatedMsg <=? 0)%Z = true)
      by (apply Z.leb_le; lia).
    assert (E3 : (maxSize <? 0)%Z = false) by (apply Z.ltb_ge; lia).
    now rewrite E2, E3.
Qed.

Lemma TruncateMessage_over_limit_witness :
  TruncateMessage long_text 30
  = Some (OutputTruncatedMsg ++ str " errors").
Proof.
  assert (H : (30 < len long_text)%Z) by reflexivity.
  pose proof (@TruncateMessage_over_limit long_text 30 H) as [Hbig _].
  assert (H23 : (len OutputTruncatedMsg < 30)%Z) by reflexivity.
  destruct (Hbig H23) as (_ & _ & _ & Hvalid).
  rewrite Hvalid; reflexivity.
Defined.

(** C10, at the failing input: with the limit 24 the kept tail is the lone
    continuation byte A9, which the repair replaces by the three bytes of
    U+FFFD, and the result has 26 bytes. *)
Theorem TruncateMessage_exceeds_limit :
  TruncateMessage cut_text 24
  = Some (OutputTruncatedMsg ++ replacement_char)
  /\ option_map len (TruncateMessage cut_text 24) = Some 26%Z.
Proof. split; reflexivity. Qed.

(** Where no byte is replaced the limit is kept: the result is within the
    limit when the text fits, when the limit is at most the marker's
    length, and when the kept tail is valid UTF-8. *)
Lemma TruncateMessage_within_limit (msg out : gostring) (maxSize : Z) :
  (0 <= maxSize)%Z ->
  ((len OutputTruncatedMsg < maxSize < len msg)%Z ->
   ValidString
     (slice_from msg (len msg - (maxSize - len OutputTruncatedMsg))) = true) ->
  TruncateMessage msg maxSize = Some out ->
  (len out <= maxSize)%Z.
Proof.
  intros H0 Hv. unfold TruncateMessage.
  destruct (Z.leb_spec (len msg) maxSize) as [Hfit|Hover].
  { intro H. injection H as <-. exact Hfit. }
  destruct (Z.leb_spec (maxSize - len OutputTruncatedMsg) 0) as [Hs|Hb].
  - apply Z.ltb_ge in H0 as E. rewrite E. intro H. injection H as <-.
    unfold slice_to, len. rewrite length_firstn. lia.
  - rewrite ToValidUTF8_ascii_prefix by (apply marker_ascii || discriminate).
    rewrite ToValidUTF8_valid by (apply Hv; lia).
    intro H.
    match type of H with
    | Some ?x = Some _ => assert (E : x = out) by congruence
    end.
    rewrite <- E. unfold len, slice_from in *.
    rewrite length_app, length_skipn. lia.
Qed.

End TruncateFacts.

(** ** The backtracking matcher *)
Module RegexpFacts.
Import Utf8Spec TruncateSpec RegexpSpec ServiceNameSpec RedactionSpec DeliverySpec FloatSpec RateLimitSpec.
Import Utf8 Regexp Utf8Facts.

(** Every answer of [run] comes from a match followed by the
    continuation. *)
Lemma run_sound (A : Type) (r : regex) :
  forall bot s (k : bool -> gostring -> option A) res,
    run r bot s k = Some res ->
    exists bot' s', matches r bot s bot' s' /\ k bot' s' = Some res.
Proof.
  induction r as [|fold neg ranges|a IHa b IHb|a IHa b IHb|a IHa| |];
    intros bot s k res H; cbn [run] in H.
  - exists bot, s. split; [constructor|assumption].
  - destruct s as [|b0 s1]; [discriminate|].
    destruct (DecodeRune (b0 :: s1)) as [c w] eqn:D.
    destruct (member fold neg ranges c) eqn:M; [|discriminate].
    exists false, (skipn w (b0 :: s1)). split; [|assumption].
    eapply m_class; eauto. discriminate.
  - apply IHa in H as (bot1 & s1 & Ha & H).
    apply IHb in H as (bot2 & s2 & Hb & H).
    exists bot2, s2. split; [econstructor; eauto|assumption].
  - destruct (run a bot s k) eqn:E.
    + injection H as ->. apply IHa in E as (bot1 & s1 & Ha & E).
      exists bot1, s1. split; [now apply m_alt_l|assumption].
    + apply IHb in H as (bot1 & s1 & Hb & H).
      exists bot1, s1. split; [now apply m_alt_r|assumption].
  - revert H. generalize (length s) at 1 as fuel. intro fuel.
    revert bot s. induction fuel as [|fuel IHf]; intros bot s H.
    + exists bot, s. split; [apply m_star_stop|assumption].
    + cbn beta iota in H.
      destruct (run a bot s _) as [x|] eqn:E in H.
      * injection H as ->. apply IHa in E as (bot1 & s1 & Ha & E).
        destruct (length s1 <? length s) eqn:L; [|discriminate].
        apply Nat.ltb_lt in L. apply IHf in E as (bot2 & s2 & Hs & E).
        exists bot2, s2. split; [|assumption].
        eapply m_star_more; eauto.
      * exists bot, s. split; [apply m_star_stop|assumption].
  - destruct bot; [|discriminate].
    exists true, s. split; [constructor|assumption].
  - destruct s; [|discriminate].
    exists bot, []. split; [constructor|assumption].
Qed.

(** A match consumes whole runes from the head of the text: nothing, or at
    least the first rune. *)
Lemma matches_advance r bot s bot' s' :
  matches r bot s bot' s' ->
  exists n, s' = skipn n s /\ n <= length s
            /\ (n = 0 \/ snd (DecodeRune s) <= n)
            /\ (nullable r = false -> n <> 0).
Proof.
  induction 1 as [bot s|fold neg ranges bot s c w Hs D M
                  |a b bot s bot1 s1 bot2 s2 _ IH1 _ IH2
                  |a b bot s bot1 s1 _ IH|a b bot s bot1 s1 _ IH
                  |a bot s|a bot s bot1 s1 bot2 s2 _ IH1 L _ IH2|s|bot].
  - exists 0. cbn. repeat split; try lia; auto; discriminate.
  - pose proof (DecodeRune_width Hs) as [[W1 _] W2]. rewrite D in *. cbn in *.
    exists w. repeat split; try lia; auto.
  - destruct IH1 as (n1 & -> & L1 & W1 & N1).
    destruct IH2 as (n2 & -> & L2 & W2 & N2).
    rewrite length_skipn in L2.
    exists (n2 + n1). rewrite skipn_skipn. repeat split; [lia| |].
    + destruct W1 as [->|W1]; [|right; lia].
      rewrite Nat.add_0_r. cbn [skipn] in W2. assumption.
    + cbn [nullable]. intro Hn. apply andb_false_iff in Hn as [Hn|Hn].
      * specialize (N1 Hn). lia.
      * specialize (N2 Hn). lia.
  - destruct IH as (n & -> & L & W & N). exists n. repeat split; auto.
    cbn [nullable]. intro Hn. apply orb_false_iff in Hn as [Hn _]. auto.
  - destruct IH as (n & -> & L & W & N). exists n. repeat split; auto.
    cbn [nullable]. intro Hn. apply orb_false_iff in Hn as [_ Hn]. auto.
  - exists 0. cbn. repeat split; try lia; auto; discriminate.
  - destruct IH1 as (n1 & -> & L1 & W1 & _).
    destruct IH2 as (n2 & -> & L2 & W2 & _).
    rewrite length_skipn in L, L2.
    exists (n2 + n1). rewrite skipn_skipn. repeat split; [lia| |].
    + right. destruct W1 as [->|W1]; lia.
    + cbn. discriminate.
  - exists 0. cbn. repeat split; try lia; auto; discriminate.
  - exists 0. cbn. repeat split; try lia; auto; discriminate.
Qed.

(** When the classes accept ASCII runes only, the bytes a match consumes
    are those runes. *)
Lemma matches_content (Q : rune -> bool) r bot s bot' s' :
  (forall c, Q c = true -> (c < 128)%N) ->
  classes_within Q r ->
  matches r bot s bot' s' ->
  exists m, s = m ++ s' /\ Forall (fun b => Q (N_of_ascii b) = true) m.
Proof.
  intros HQ Hr Hm. induction Hm as [bot s|fold neg ranges bot s c w Hs D M
                  |a b bot s bot1 s1 bot2 s2 _ IH1 _ IH2
                  |a b bot s bot1 s1 _ IH|a b bot s bot1 s1 _ IH
                  |a bot s|a bot s bot1 s1 bot2 s2 _ IH1 L _ IH2|s|bot];
    cbn [classes_within] in Hr.
  - exists []. split; [reflexivity|constructor].
  - destruct s as [|b0 s1]; [congruence|].
    pose proof (Hr c M) as Hc.
    destruct (@DecodeRune_ascii _ _ _ _ D (HQ _ Hc)) as [-> ->].
    exists [b0]. split; [reflexivity|]. repeat constructor. assumption.
  - destruct Hr as [Ha Hb].
    destruct (IH1 Ha) as (m1 & -> & F1). destruct (IH2 Hb) as (m2 & -> & F2).
    exists (m1 ++ m2). split; [now rewrite app_assoc|].
    apply Forall_app. now split.
  - apply IH, Hr.
  - apply IH, Hr.
  - exists []. split; [reflexivity|constructor].
  - destruct (IH1 Hr) as (m1 & -> & F1). destruct (IH2 Hr) as (m2 & -> & F2).
    exists (m1 ++ m2). split; [now rewrite app_assoc|].
    apply Forall_app. now split.
  - exists []. split; [reflexivity|constructor].
  - exists []. split; [reflexivity|constructor].
Qed.

Lemma matches_ends_text r bot s bot' s' :
  ends_text r = true -> matches r bot s bot' s' -> s' = [].
Proof.
  intros He Hm. induction Hm; cbn [ends_text] in He; try discriminate; auto.
  - apply andb_true_iff in He as [? ?]. auto.
  - apply andb_true_iff in He as [? ?]. auto.
Qed.

Lemma matches_begins_text r bot s bot' s' :
  begins_text r = true -> matches r bot s bot' s' -> bot = true.
Proof.
  intros He Hm. induction Hm; cbn [begins_text] in He; try discriminate; auto.
  - apply andb_true_iff in He as [? ?]. auto.
  - apply andb_true_iff in He as [? ?]. auto.
Qed.

Lemma match_here_sound r bot s rest :
  match_here r bot s = Some rest -> exists bot', matches r bot s bot' rest.
Proof.
  intro H. apply run_sound in H as (bot' & s' & Hm & E).
  injection E as ->. now exists bot'.
Qed.

End RegexpFacts.

(** ** Leftmost search and replacement *)
Module SearchFacts.
Import Utf8Spec TruncateSpec RegexpSpec ServiceNameSpec RedactionSpec DeliverySpec FloatSpec RateLimitSpec.
Import Utf8 Regexp Utf8Facts RegexpFacts.

(** A found match starts [n] bytes into the searched text, on a rune
    boundary, and is a match of the pattern there. *)
Lemma search_sound (r : regex) (fuel : nat) :
  forall pos s a0 a1,
    search fuel r pos s = Some (a0, a1) ->
    exists n bot' rest,
      a0 = pos + n /\ n <= length s
      /\ (n = 0 \/ snd (DecodeRune s) <= n)
      /\ matches r (Nat.eqb a0 0) (skipn n s) bot' rest
      /\ a1 = a0 + (length (skipn n s) - length rest).
Proof.
  induction fuel as [|fuel IH]; intros pos s a0 a1 H; cbn [search] in H;
    destruct (match_here r (Nat.eqb pos 0) s) as [rest|] eqn:E.
  1, 3: injection H as <- <-; apply match_here_sound in E as [bot' Hm];
    exists 0, bot', rest; rewrite Nat.add_0_r; cbn [skipn];
    repeat split; auto; lia.
  - discriminate.
  - destruct s as [|b0 s1]; [discriminate|].
    destruct (DecodeRune (b0 :: s1)) as [c w] eqn:D.
    assert (Hne : b0 :: s1 <> []) by discriminate.
    pose proof (DecodeRune_width Hne) as [[W1 _] W2]. rewrite D in W1, W2.
    cbn [snd] in W1, W2.
    apply IH in H as (n & bot' & rest & -> & L & _ & Hm & ->).
    rewrite length_skipn in L. rewrite skipn_skipn in Hm |- *.
    exists (n + w), bot', rest.
    replace (pos + (n + w)) with (pos + w + n) by lia.
    repeat split; auto; [lia|]. right. cbn [snd]. lia.
Qed.

(** For a pattern that cannot match the empty string, the bounds of a match
    found from [pos] on: it is not empty, it lies within the text, and it
    ends at or after the end of the rune at [pos]. *)
Lemma doExecute_bounds (r : regex) (src : gostring) (pos a0 a1 : nat) :
  nullable r = false ->
  pos <= length src ->
  doExecute r src pos = Some (a0, a1) ->
  pos <= a0 /\ a0 < a1 /\ a1 <= length src
  /\ pos + snd (DecodeRune (skipn pos src)) <= a1.
Proof.
  intros Hn Hp H. unfold doExecute in H.
  apply search_sound in H as (n & bot' & rest & -> & L & W & Hm & ->).
  apply matches_advance in Hm as (n' & -> & L' & W' & N').
  specialize (N' Hn). rewrite !length_skipn in *.
  repeat split; try lia.
  destruct W as [->|W]; [|lia]. cbn [skipn] in W'. lia.
Qed.

(** The output so far is a prefix of the final output. *)
Lemma replace_loop_buf (re : regex) (repl : gostring -> gostring)
      (src : gostring) (fuel : nat) :
  forall lastMatchEnd searchPos buf,
    replace_loop fuel re repl src lastMatchEnd searchPos buf
    = buf ++ replace_loop fuel re repl src lastMatchEnd searchPos [].
Proof.
  induction fuel as [|fuel IH]; intros l p buf; cbn [replace_loop].
  - reflexivity.
  - destruct (p <=? length src); [|reflexivity].
    destruct (doExecute re src p) as [[a0 a1]|]; [|reflexivity].
    rewrite IH. symmetry. rewrite IH. cbn [app].
    destruct ((l <? a1) || (a0 =? 0)); now rewrite <- ?app_assoc.
Qed.

(** One turn of the replacement loop for a pattern that cannot match the
    empty string, at a state where the search resumes at the end of the
    previous match: the text up to the match is copied, the match is
    replaced, and the loop resumes at the end of the match. *)
Lemma replace_loop_step (re : regex) (repl : gostring -> gostring)
      (src : gostring) (fuel p a0 a1 : nat) (buf : gostring) :
  nullable re = false ->
  p <= length src ->
  doExecute re src p = Some (a0, a1) ->
  replace_loop (S fuel) re repl src p p buf
  = buf ++ slice src p a0 ++ repl (slice src a0 a1)
        ++ replace_loop fuel re repl src a1 a1 [].
Proof.
  intros Hn Hp H.
  pose proof (doExecute_bounds _ _ Hn Hp H) as (B1 & B2 & B3 & B4).
  cbn [replace_loop]. rewrite H.
  assert (E1 : (p <=? length src) = true) by (apply Nat.leb_le; lia).
  assert (E2 : (p <? a1) = true) by (apply Nat.ltb_lt; lia).
  assert (E3 : (a1 <? p + snd (DecodeRune (skipn p src))) = false)
    by (apply Nat.ltb_ge; lia).
  assert (E4 : (a1 <? p + 1) = false) by (apply Nat.ltb_ge; lia).
  rewrite E1, E2, E3, E4. cbn [orb].
  rewrite replace_loop_buf. now rewrite <- !app_assoc.
Qed.

(** Without a match the text is returned as it is. *)
Lemma ReplaceAllStringFunc_no_match (re : regex) (src : gostring)
      (repl : gostring -> gostring) :
  MatchString re src = false -> ReplaceAllStringFunc re src repl = src.
Proof.
  unfold MatchString, ReplaceAllStringFunc. intro H.
  rewrite Nat.add_comm. cbn [Nat.add replace_loop Nat.leb].
  destruct (doExecute re src 0); [discriminate|reflexivity].
Qed.

End SearchFacts.

(** ** Service names *)
Module ServiceNameFacts.
Import Utf8Spec TruncateSpec RegexpSpec ServiceNameSpec RedactionSpec DeliverySpec FloatSpec RateLimitSpec.
Import Utf8 Strings Regexp Constants Validation Utf8Facts RegexpFacts
       SearchFacts.

Lemma allowed_spec (c : rune) :
  allowed c = true <->
  ((97 <= c <= 122) \/ (65 <= c <= 90) \/ (48 <= c <= 57)
   \/ c = 58 \/ c = 95 \/ c = 46 \/ c = 64 \/ c = 45)%N.
Proof.
  unfold allowed, in_ranges, service_class, in_range. cbn.
  rewrite !orb_true_iff, !andb_true_iff, !N.leb_le. lia.
Qed.

Lemma allowed_ascii (c : rune) : allowed c = true -> (c < 128)%N.
Proof. rewrite allowed_spec. lia. Qed.

Lemma chr_member (n c : N) :
  member false false [(n, n)] c = true -> c = n.
Proof.
  unfold member, in_ranges, in_range. cbn.
  rewrite !orb_false_r, andb_true_iff, !N.leb_le. lia.
Qed.

Lemma pattern_classes : classes_within allowed ServiceNamePattern.
Proof.
  cbn. repeat split; intros c H;
    try (apply chr_member in H; subst c; reflexivity).
  all: unfold member in H; cbn [xorb existsb] in H;
    now rewrite orb_false_r in H.
Qed.

(** A name the pattern matches is made of allowed bytes only. *)
Lemma pattern_match_allowed (name : gostring) :
  MatchString ServiceNamePattern name = true ->
  Forall (fun b => allowed (N_of_ascii b) = true) name.
Proof.
  unfold MatchString, doExecute. cbn [skipn].
  destruct (search _ _ _ _) as [[a0 a1]|] eqn:E; [intros _|discriminate].
  apply search_sound in E as (n & bot' & rest & -> & _ & _ & Hm & _).
  pose proof (matches_begins_text (r:=ServiceNamePattern) eq_refl Hm) as Hb.
  apply Nat.eqb_eq in Hb. cbn [Nat.add] in Hb. subst n. cbn [skipn] in Hm.
  pose proof (matches_ends_text (r:=ServiceNamePattern) eq_refl Hm) as ->.
  destruct (@matches_content allowed _ _ _ _ _ allowed_ascii pattern_classes Hm)
    as (m & -> & F).
  now rewrite app_nil_r.
Qed.

Lemma allowed_bytes_ascii (name : gostring) :
  Forall (fun b => allowed (N_of_ascii b) = true) name ->
  forallb is_ascii name = true.
Proof.
  intro F. apply forallb_forall. intros b Hb.
  rewrite Forall_forall in F. apply F, allowed_ascii in Hb.
  unfold is_ascii, RuneSelf. now apply N.ltb_lt.
Qed.

Lemma existsb_map_false (A B : Type) (f : A -> B) (p : B -> bool) (l : list A) :
  (forall x, In x l -> p (f x) = false) -> existsb p (map f l) = false.
Proof.
  induction l as [|x l IH]; intro H; [reflexivity|].
  cbn. rewrite H by now left. apply IH. intros y Hy. apply H. now right.
Qed.

Lemma find_none_intro (A : Type) (f : A -> bool) (l : list A) :
  (forall x, In x l -> f x = false) -> find f l = None.
Proof.
  induction l as [|x l IH]; intro H; [reflexivity|].
  cbn. rewrite H by now left. apply IH. intros y Hy. apply H. now right.
Qed.

(** C9: [ValidateServiceName] returns nil exactly for the names that are
    not empty, have at most 256 bytes and match [ServiceNamePattern]: the
    control-character, non-ASCII and dangerous-character checks reject no
    name that the pattern accepts. *)
Theorem ValidateServiceName_nil_iff (name : gostring) :
  ValidateServiceName name = None
  <-> (name <> [] /\ (len name <= 256)%Z
       /\ MatchString ServiceNamePattern name = true).
Proof.
  unfold ValidateServiceName. split.
  - destruct name as [|b name]; [discriminate|].
    destruct (256 <? len (b :: name))%Z eqn:E1; [discriminate|].
    destruct (existsb _ _); [discriminate|].
    destruct (existsb _ _); [discriminate|].
    destruct (find _ _); [discriminate|].
    destruct (MatchString _ _); [|discriminate].
    intros _. apply Z.ltb_ge in E1. repeat split; [discriminate|lia].
  - intros (Hne & Hlen & Hm).
    destruct name as [|b name]; [congruence|].
    set (nm := b :: name) in *.
    apply Z.ltb_ge in Hlen. rewrite Hlen.
    pose proof (pattern_match_allowed _ Hm) as F.
    rewrite (runes_ascii _ (allowed_bytes_ascii F)).
    rewrite Forall_forall in F.
    rewrite existsb_map_false.
    2:{ intros x Hx. apply F, allowed_spec in Hx. unfold Unicode.IsControl, in_range.
        rewrite !orb_false_iff, andb_false_iff, !N.eqb_neq, N.ltb_ge, !N.leb_gt.
        lia. }
    rewrite existsb_map_false.
    2:{ intros x Hx. apply F, allowed_spec in Hx. apply N.ltb_ge. lia. }
    assert (D : find (fun danger => ContainsRune nm danger) dangerousChars
                = None).
    { apply find_none_intro. intros danger Hd. unfold ContainsRune.
      rewrite (runes_ascii _ (allowed_bytes_ascii (proj2 (Forall_forall _ _) F))).
      apply existsb_map_false. intros x Hx.
      apply F, allowed_spec in Hx. apply N.eqb_neq.
      unfold dangerousChars in Hd. cbn [In] in Hd. lia. }
    rewrite D, Hm. reflexivity.
Qed.

End ServiceNameFacts.

(** ** Secret redaction *)
Module RedactionFacts.
Import Utf8Spec TruncateSpec RegexpSpec ServiceNameSpec RedactionSpec DeliverySpec FloatSpec RateLimitSpec.
Import Utf8 Strings Regexp Constants Validation RegexpFacts SearchFacts.

(** No secret pattern matches the empty string. *)
Lemma SecretPatterns_not_nullable (re : regex) :
  In re SecretPatterns -> nullable re = false.
Proof.
  assert (H : forallb (fun r => negb (nullable r)) SecretPatterns = true)
    by (vm_compute; reflexivity).
  rewrite forallb_forall in H. intro Hin. apply H in Hin.
  now apply negb_true_iff.
Qed.

Lemma redact_short (m : gostring) :
  (len m <= 20)%Z -> redact m = redaction_marker.
Proof.
  intro H. unfold redact. apply Z.ltb_ge in H. now rewrite H.
Qed.

Lemma redact_long (m : gostring) :
  (20 < len m)%Z -> redact m = firstn 20 m ++ redaction_marker.
Proof.
  intro H. unfold redact. apply Z.ltb_lt in H. now rewrite H.
Qed.

(** C2 does not hold: the filtered text of [password=abcdef1234567890ZZZZ]
    keeps the first 20 bytes of the match before the marker, and the
    password pattern matches that text again. *)
Lemma redacted_text_still_matches :
  FilterSecrets password_line = str "password=abcdef12345[REDACTED]"
  /\ ~ no_secret_left password_line.
Proof.
  split; [vm_compute; reflexivity|].
  intro H. specialize (H (nth 0 SecretPatterns Empty) (or_introl eq_refl)).
  vm_compute in H. discriminate.
Qed.

Lemma fold_left_fixed (A B : Type) (f : A -> B -> A) (l : list B) (x : A) :
  (forall y, In y l -> f x y = x) -> fold_left f l x = x.
Proof.
  induction l as [|y l IH]; intro H; [reflexivity|].
  cbn. rewrite H by now left. apply IH. intros z Hz. apply H. now right.
Qed.

Lemma plain_line_no_match (re : regex) :
  In re SecretPatterns -> MatchString re plain_line = false.
Proof.
  assert (H : forallb (fun r => negb (MatchString r plain_line)) SecretPatterns
              = true) by (vm_compute; reflexivity).
  rewrite forallb_forall in H. intro Hin. apply H in Hin.
  now apply negb_true_iff.
Qed.

End RedactionFacts.

(** ** Delivery *)
Module DeliveryFacts.
Import Utf8Spec TruncateSpec RegexpSpec ServiceNameSpec RedactionSpec DeliverySpec FloatSpec RateLimitSpec.
Import Constants Validation RateLimit Telegram.

(** A response with a status in [400, 500) is a client error, whatever its
    body. *)
Lemma sendRequest_client_error (e : env) (attempt : nat) (status : Z)
      (description : option gostring) :
  request_created e = true ->
  transport e attempt = Response status description ->
  (400 <= status < 500)%Z ->
  exists message,
    sendRequest e attempt = (Some (HTTPError status message), [EvDo attempt])
    /\ isClientError (HTTPError status message) = true.
Proof.
  intros Hreq Htr Hst. unfold sendRequest. rewrite Hreq, Htr.
  assert (E : (status =? 200)%Z = false) by (apply Z.eqb_neq; lia).
  rewrite E. cbn [negb].
  eexists. split; [reflexivity|].
  cbn. apply andb_true_iff. split; [apply Z.leb_le|apply Z.ltb_lt]; lia.
Qed.

(** The loop ends at the attempt that meets a client error: the error is
    returned as it is and the attempt's network call is the last event. *)
Lemma retry_loop_client_error (e : env) (remaining attempt : nat)
      (lastErr : option error) (status : Z) (description : option gostring) :
  request_created e = true ->
  transport e attempt = Response status description ->
  (400 <= status < 500)%Z ->
  ((0 <? attempt) && backoff_cancelled e attempt) = false ->
  exists message,
    retry_loop (S remaining) attempt e lastErr
    = (Some (HTTPError status message),
       (if 0 <? attempt then [EvBackoff (calculateBackoff attempt)] else [])
         ++ [EvDo attempt]).
Proof.
  intros Hreq Htr Hst Hb.
  destruct (@sendRequest_client_error e attempt status description Hreq Htr Hst)
    as (message & Hs & Hc).
  exists message. cbn [retry_loop]. rewrite Hb, Hs, Hc. reflexivity.
Qed.

(** A retryable failure is retried with backoff, and a client error met at
    a later attempt still ends the delivery there: 500, then 400. *)
Example server_error_then_client_error :
  let e := mkEnv false 0 [mkTick 0 CtxDone] (fun _ => false) true
                 (fun n => if Nat.eqb n 0 then Response 500 None
                           else Response 400 None) in
  option_map (fun r => snd (fst r))
             (SendNotification e fresh_limiter (str "backup failed"))
  = Some [EvWait; EvDo 0; EvBackoff (1 * Second); EvDo 1].
Proof. vm_compute. reflexivity. Qed.

End DeliveryFacts.

(** ** Binary64 arithmetic

    Facts of IEEE 754 arithmetic that the token bucket relies on, proved
    from the specification of the primitive floats: the sign of sums,
    products and quotients, the order, and the subtraction of one. *)
Module FloatFacts.
Import Utf8Spec TruncateSpec RegexpSpec ServiceNameSpec RedactionSpec DeliverySpec FloatSpec RateLimitSpec.

Lemma SFleb_zero (x : spec_float) : SFleb (S754_zero false) x = nonneg x.
Proof. destruct x as [s|s| |s m e]; try destruct s; reflexivity. Qed.

Lemma leb_zero (f : float) : (0 <=? f)%float = nonneg (Prim2SF f).
Proof. rewrite FloatAxioms.leb_spec. apply SFleb_zero. Qed.

(** An invariant of a function holds after [iter_pos]. *)
Lemma iter_pos_invariant (A : Type) (f : A -> A) (I : Z -> A -> Prop) :
  (forall k x, I k x -> I (k + 1)%Z (f x)) ->
  forall p k x, I k x -> I (k + Zpos p)%Z (iter_pos f p x).
Proof.
  intros Hf. induction p as [p IH|p IH|]; intros k x Hx; cbn [iter_pos].
  - replace (k + Zpos p~1)%Z with (k + 1 + Zpos p + Zpos p)%Z by lia.
    apply IH, IH, Hf, Hx.
  - replace (k + Zpos p~0)%Z with (k + Zpos p + Zpos p)%Z by lia.
    apply IH, IH, Hx.
  - apply Hf, Hx.
Qed.

Lemma shr_1_nonneg (mrs : shr_record) :
  (0 <= shr_m mrs)%Z -> (0 <= shr_m (shr_1 mrs))%Z.
Proof.
  destruct mrs as [m r s]. cbn [shr_m]. intro H.
  destruct m as [|[p|p|]|p]; cbn; lia.
Qed.

Lemma shr_fexp_nonneg (m e : Z) (l : location) :
  (0 <= m)%Z -> (0 <= shr_m (fst (shr_fexp prec emax m e l)))%Z.
Proof.
  intro H. unfold shr_fexp, shr.
  assert (H0 : (0 <= shr_m (shr_record_of_loc m l))%Z).
  { destruct l as [|[| |]]; exact H. }
  destruct (_ - e)%Z as [|p|p]; cbn [fst]; try exact H0.
  apply (iter_pos_invariant shr_1 (fun _ x => (0 <= shr_m x)%Z)) with (k := 0%Z);
    [intros _ x; apply shr_1_nonneg|exact H0].
Qed.

Lemma round_nearest_even_nonneg (m : Z) (l : location) :
  (0 <= m)%Z -> (0 <= round_nearest_even m l)%Z.
Proof.
  intro H. unfold round_nearest_even.
  destruct l as [|[| |]]; try destruct (Z.even m); lia.
Qed.

(** Rounding a non-negative mantissa with sign [false] gives a
    non-negative number: a zero, a positive finite number or [+inf]. *)
Lemma binary_round_aux_nonneg (m e : Z) (l : location) :
  (0 <= m)%Z -> nonneg (binary_round_aux prec emax false m e l) = true.
Proof.
  intro H. unfold binary_round_aux.
  pose proof (@shr_fexp_nonneg m e l H) as H1.
  destruct (shr_fexp prec emax m e l) as [mrs' e'] eqn:E1. cbn [fst] in H1.
  pose proof (@round_nearest_even_nonneg (shr_m mrs') (loc_of_shr_record mrs') H1) as H2.
  pose proof (@shr_fexp_nonneg _ e' loc_Exact H2) as H3.
  destruct (shr_fexp prec emax _ e' loc_Exact) as [mrs'' e''] eqn:E2.
  cbn [fst] in H3.
  destruct (shr_m mrs'') as [|p|p]; [reflexivity| |lia].
  destruct (e'' <=? emax - prec)%Z; reflexivity.
Qed.

Lemma binary_normalize_nonneg (m e : Z) :
  (0 <= m)%Z -> nonneg (binary_normalize prec emax m e false) = true.
Proof.
  intro H. destruct m as [|p|p]; [reflexivity| |lia].
  cbn [binary_normalize]. unfold binary_round.
  destruct (shl_align _ _ _) as [mz ez].
  apply binary_round_aux_nonneg. lia.
Qed.

Lemma SFadd_nonneg (x y : spec_float) :
  nonneg x = true -> nonneg y = true -> nonneg (SFadd prec emax x y) = true.
Proof.
  destruct x as [sx|sx| |sx mx ex]; destruct y as [sy|sy| |sy my ey];
    try destruct sx; try destruct sy; try discriminate; intros _ _;
    try reflexivity.
  cbn [SFadd cond_Zopp]. apply binary_normalize_nonneg. lia.
Qed.

Lemma SFmul_nonneg (x y : spec_float) :
  nonneg x = true -> finite_pos y = true ->
  nonneg (SFmul prec emax x y) = true.
Proof.
  destruct x as [sx|sx| |sx mx ex]; destruct y as [sy|sy| |sy my ey];
    try destruct sx; try destruct sy; try discriminate; intros _ _;
    try reflexivity.
  cbn [SFmul xorb]. apply binary_round_aux_nonneg. lia.
Qed.

Lemma SFdiv_nonneg (x y : spec_float) :
  nonneg x = true -> finite_pos y = true ->
  nonneg (SFdiv prec emax x y) = true.
Proof.
  destruct x as [sx|sx| |sx mx ex]; destruct y as [sy|sy| |sy my ey];
    try destruct sx; try destruct sy; try discriminate; intros _ _;
    try reflexivity.
  cbn [SFdiv xorb]. unfold SFdiv_core_binary.
  set (m' := match _ with Zpos _ => _ | Z0 => _ | Zneg _ => _ end).
  assert (Hm : (0 <= m')%Z).
  { subst m'. destruct (_ - _ - _)%Z; try lia. apply Z.shiftl_nonneg. lia. }
  pose proof (Z.div_pos m' (Zpos my) Hm ltac:(lia)) as Hq.
  unfold Z.div in Hq.
  destruct (Z.div_eucl m' (Zpos my)) as [q r].
  apply binary_round_aux_nonneg. exact Hq.
Qed.

Lemma nonneg_not_nan (x : spec_float) : nonneg x = true -> is_nan x = false.
Proof. destruct x as [s|s| |s m e]; try destruct s; now try discriminate. Qed.

Lemma SFcompare_antisym (x y : spec_float) :
  SFcompare y x = option_map CompOpp (SFcompare x y).
Proof.
  destruct x as [sx|sx| |sx mx ex]; destruct y as [sy|sy| |sy my ey];
    try destruct sx; try destruct sy; try reflexivity; cbn.
  all: rewrite (Z.compare_antisym ex ey), (ZC4 my mx).
  all: destruct (ex ?= ey)%Z; cbn; try reflexivity.
  all: destruct (Pos.compare_cont Eq mx my); reflexivity.
Qed.

Lemma SFcompare_refl (x : spec_float) :
  is_nan x = false -> SFcompare x x = Some Eq.
Proof.
  destruct x as [s|s| |s m e]; try destruct s; try discriminate; intros _;
    try reflexivity; cbn; now rewrite Z.compare_refl, Pos.compare_cont_refl.
Qed.

Lemma SFleb_refl (x : spec_float) : is_nan x = false -> SFleb x x = true.
Proof. intro H. unfold SFleb. now rewrite SFcompare_refl. Qed.

(** Two numbers are comparable: when [y < x] fails, [x <= y]. *)
Lemma SFleb_of_not_ltb (x y : spec_float) :
  is_nan x = false -> is_nan y = false ->
  SFltb y x = false -> SFleb x y = true.
Proof.
  intros Hx Hy H. unfold SFltb, SFleb in *.
  rewrite (SFcompare_antisym y x).
  destruct (SFcompare y x) as [[| |]|] eqn:E; try discriminate; try reflexivity.
  destruct x as [sx|sx| |sx mx ex]; destruct y as [sy|sy| |sy my ey];
    discriminate.
Qed.

Lemma SFltb_not_leb (x y : spec_float) :
  SFltb x y = true -> SFleb y x = false.
Proof.
  unfold SFltb, SFleb. rewrite (SFcompare_antisym x y).
  destruct (SFcompare x y) as [[| |]|]; try discriminate; reflexivity.
Qed.

Lemma SFleb_nonneg_r (x y : spec_float) :
  nonneg x = true -> SFleb x y = true -> nonneg y = true.
Proof.
  destruct x as [sx|sx| |sx mx ex]; destruct y as [sy|sy| |sy my ey];
    try destruct sx; try destruct sy; try discriminate; try reflexivity;
    intros _; unfold SFleb; cbn; try discriminate.
Qed.

Lemma SFleb_trans (x y z : spec_float) :
  nonneg x = true ->
  SFleb x y = true -> SFleb y z = true -> SFleb x z = true.
Proof.
  destruct x as [sx|sx| |sx mx ex]; destruct y as [sy|sy| |sy my ey];
    destruct z as [sz|sz| |sz mz ez];
    try destruct sx; try destruct sy; try destruct sz;
    try discriminate; try reflexivity; intros _; unfold SFleb; cbn;
    try discriminate; try reflexivity.
  change (Pos.compare_cont Eq mx my) with (mx ?= my)%positive.
  change (Pos.compare_cont Eq my mz) with (my ?= mz)%positive.
  change (Pos.compare_cont Eq mx mz) with (mx ?= mz)%positive.
  destruct (Z.compare_spec ex ey); destruct (Z.compare_spec ey ez);
    destruct (Z.compare_spec ex ez); try lia; try discriminate;
    try reflexivity.
  destruct (Pos.compare_spec mx my); destruct (Pos.compare_spec my mz);
    destruct (Pos.compare_spec mx mz); try lia; try discriminate;
    reflexivity.
Qed.

Local Open Scope Z_scope.

Lemma digits2_pos_bounds (p : positive) :
  2 ^ (Zpos (digits2_pos p) - 1) <= Zpos p < 2 ^ Zpos (digits2_pos p).
Proof.
  induction p as [p IH|p IH|]; cbn [digits2_pos].
  - rewrite Pos2Z.inj_succ.
    replace (Z.succ (Zpos (digits2_pos p)) - 1) with (Z.succ (Zpos (digits2_pos p) - 1)) by lia.
    rewrite !Z.pow_succ_r by lia. lia.
  - rewrite Pos2Z.inj_succ.
    replace (Z.succ (Zpos (digits2_pos p)) - 1) with (Z.succ (Zpos (digits2_pos p) - 1)) by lia.
    rewrite !Z.pow_succ_r by lia. lia.
  - cbn. lia.
Qed.

Lemma digits2_pos_le (p : positive) (k : Z) :
  Zpos p < 2 ^ k -> Zpos (digits2_pos p) <= k.
Proof.
  intro H. pose proof (digits2_pos_bounds p) as [L _].
  assert (K : 0 <= k).
  { destruct k; try lia. rewrite Z.pow_neg_r in H; lia. }
  assert (2 ^ (Zpos (digits2_pos p) - 1) < 2 ^ k) as P by lia.
  apply Z.pow_lt_mono_r_iff in P; lia.
Qed.

Lemma pos_iter_xO (m d : positive) :
  Zpos (Pos.iter xO m d) = Zpos m * 2 ^ Zpos d.
Proof.
  induction d as [|d IH] using Pos.peano_ind.
  - cbn. lia.
  - rewrite Pos.iter_succ, Pos2Z.inj_succ, Z.pow_succ_r by lia.
    rewrite Pos2Z.inj_xO, IH. lia.
Qed.

(** [shl_align] to a smaller exponent scales the mantissa. *)
Lemma shl_align_spec (mx : positive) (ex ex' : Z) :
  let '(mz, ez) := shl_align mx ex ex' in
  ez = Z.min ex ex' /\ Zpos mz = Zpos mx * 2 ^ (ex - ez).
Proof.
  unfold shl_align. destruct (ex' - ex) as [|d|d] eqn:E.
  - split; [lia|]. rewrite Z.sub_diag. cbn. lia.
  - split; [lia|]. rewrite Z.sub_diag. cbn. lia.
  - split; [lia|]. rewrite pos_iter_xO. f_equal. f_equal. lia.
Qed.

Lemma shr_1_div (mrs : shr_record) :
  0 <= shr_m mrs -> shr_m (shr_1 mrs) = shr_m mrs / 2.
Proof.
  destruct mrs as [m r s]. cbn [shr_m]. intro H.
  destruct m as [|[p|p|]|p]; cbn [shr_1 shr_m]; try lia.
  - reflexivity.
  - rewrite Pos2Z.inj_xI. apply Z.div_unique with (r := 1); lia.
  - rewrite Pos2Z.inj_xO. apply Z.div_unique with (r := 0); lia.
  - reflexivity.
Qed.

Lemma iter_shr_1_div (mrs : shr_record) (p : positive) :
  0 <= shr_m mrs ->
  shr_m (iter_pos shr_1 p mrs) = shr_m mrs / 2 ^ Zpos p.
Proof.
  intro H.
  pose proof (@iter_pos_invariant _ shr_1
                (fun k x => 0 <= k /\ 0 <= shr_m x
                            /\ shr_m x = shr_m mrs / 2 ^ k)) as Hinv.
  destruct (Hinv) with (p := p) (k := 0) (x := mrs) as (_ & _ & E).
  - intros k x (K & X & E). split; [lia|]. split.
    + now apply shr_1_nonneg.
    + rewrite shr_1_div by assumption. rewrite E.
      rewrite Z.div_div by (try apply Z.pow_pos_nonneg; lia).
      f_equal. rewrite Z.pow_add_r by lia. reflexivity.
  - repeat split; try lia. now rewrite Z.div_1_r.
  - exact E.
Qed.

(** The first component of [shr_fexp]: the mantissa shifted right to the
    exponent of the format, when that is larger. *)
Lemma shr_fexp_spec (m e : Z) (l : location) :
  0 <= m ->
  let k := Z.max 0 (fexp prec emax (Zdigits2 m + e) - e) in
  shr_m (fst (shr_fexp prec emax m e l)) = m / 2 ^ k
  /\ snd (shr_fexp prec emax m e l) = e + k.
Proof.
  intros H k. unfold shr_fexp, shr. subst k.
  assert (H0 : shr_m (shr_record_of_loc m l) = m)
    by (destruct l as [|[| |]]; reflexivity).
  destruct (fexp prec emax (Zdigits2 m + e) - e) as [|p|p]; cbn [fst snd].
  - rewrite H0. cbn. rewrite Z.div_1_r. lia.
  - rewrite iter_shr_1_div by (rewrite H0; exact H). rewrite H0.
    rewrite Z.max_r by lia. split; reflexivity.
  - rewrite H0. rewrite Z.max_l by lia. cbn. rewrite Z.div_1_r. lia.
Qed.

Lemma round_nearest_even_bounds (m : Z) (l : location) :
  m <= round_nearest_even m l <= m + 1.
Proof.
  unfold round_nearest_even.
  destruct l as [|[| |]]; try destruct (Z.even m); lia.
Qed.

(** What [binary_round_aux] returns on a non-negative mantissa: the
    mantissa is shifted, rounded by at most one unit and shifted again. *)
Lemma binary_round_aux_spec (m e : Z) (l : location) :
  0 <= m ->
  exists m1 mf e2,
    let k1 := Z.max 0 (fexp prec emax (Zdigits2 m + e) - e) in
    let k2 := Z.max 0 (fexp prec emax (Zdigits2 m1 + (e + k1)) - (e + k1)) in
    m / 2 ^ k1 <= m1 <= m / 2 ^ k1 + 1
    /\ mf = m1 / 2 ^ k2
    /\ e2 = e + k1 + k2
    /\ binary_round_aux prec emax false m e l
       = match mf with
         | Z0 => S754_zero false
         | Zpos p => if e2 <=? emax - prec then S754_finite false p e2
                     else S754_infinity false
         | Zneg _ => S754_nan
         end.
Proof.
  intro H. unfold binary_round_aux.
  pose proof (@shr_fexp_spec m e l H) as [S1 S2].
  destruct (shr_fexp prec emax m e l) as [mrs' e'] eqn:E1.
  cbn [fst snd] in S1, S2.
  set (m1 := round_nearest_even (shr_m mrs') (loc_of_shr_record mrs')).
  pose proof (round_nearest_even_bounds (shr_m mrs') (loc_of_shr_record mrs')) as B.
  fold m1 in B.
  assert (H1 : 0 <= m1).
  { assert (0 <= m / 2 ^ Z.max 0 (fexp prec emax (Zdigits2 m + e) - e)).
    { apply Z.div_pos; [lia|]. apply Z.pow_pos_nonneg; lia. }
    lia. }
  pose proof (@shr_fexp_spec m1 e' loc_Exact H1) as [T1 T2].
  destruct (shr_fexp prec emax m1 e' loc_Exact) as [mrs'' e''] eqn:E2.
  cbn [fst snd] in T1, T2.
  exists m1, (shr_m mrs''), e''. cbn zeta.
  rewrite <- S1, <- S2. repeat split; try lia; try assumption.
Qed.

Lemma Prim2SF_one : Prim2SF 1%float = SFone.
Proof. reflexivity. Qed.

Lemma fexp_eq (z : Z) : fexp prec emax z = Z.max (z - 53) (-1074).
Proof. reflexivity. Qed.

(** A valid number that is at least one: its mantissa has 53 bits and its
    exponent is at least -52. *)
Lemma one_le_finite (m : positive) (e : Z) :
  valid_binary (S754_finite false m e) = true ->
  SFleb SFone (S754_finite false m e) = true ->
  2 ^ 52 <= Zpos m < 2 ^ 53 /\ -52 <= e <= 971.
Proof.
  unfold valid_binary. cbn [SpecFloat.valid_binary].
  unfold bounded, canonical_mantissa.
  rewrite andb_true_iff, Z.eqb_eq, Z.leb_le, fexp_eq.
  change (emax - prec) with 971.
  intros [C B] L.
  pose proof (digits2_pos_bounds m) as [D1 D2].
  assert (Hd : Zpos (digits2_pos m) <= 53) by lia.
  assert (Hm : Zpos m < 2 ^ 53).
  { eapply Z.lt_le_trans; [exact D2|]. apply Z.pow_le_mono_r; lia. }
  unfold SFleb, SFone in L. cbn [SFcompare] in L.
  change (Pos.compare_cont Eq 4503599627370496 m)
    with (4503599627370496 ?= m)%positive in L.
  destruct (Z.compare_spec (-52) e) as [E|E|E]; try discriminate.
  - destruct (Pos.compare_spec 4503599627370496 m) as [P|P|P];
      try discriminate; change (2 ^ 52) with 4503599627370496; lia.
  - assert (Zpos (digits2_pos m) = 53) as Hd53 by lia.
    rewrite Hd53 in D1. change (2 ^ (53 - 1)) with (2 ^ 52) in D1. lia.
Qed.

Lemma SFsub_one_eq (m : positive) (e : Z) :
  -52 <= e ->
  SFsub prec emax (S754_finite false m e) SFone
  = binary_normalize prec emax (Zpos m * 2 ^ (e + 52) - 2 ^ 52) (-52) false.
Proof.
  intro He. unfold SFone. cbn [SFsub cond_Zopp].
  rewrite (Z.min_r e (-52)) by lia.
  pose proof (shl_align_spec m e (-52)) as A.
  destruct (shl_align m e (-52)) as [mz ez]. destruct A as [-> A].
  rewrite Z.min_r in A by lia.
  pose proof (shl_align_spec 4503599627370496 (-52) (-52)) as B.
  destruct (shl_align 4503599627370496 (-52) (-52)) as [mo eo].
  destruct B as [-> B]. cbn [fst].
  rewrite A, B. reflexivity.
Qed.

Lemma pow2_pos (k : Z) : 0 <= k -> 0 < 2 ^ k.
Proof. intro H. apply Z.pow_pos_nonneg; lia. Qed.

(** Rounding [m * 2^(e+52) - 2^52] at exponent -52, that is [x - 1] for
    [x = m * 2^e], gives a number that is not negative and not above
    [x]. *)
Lemma binary_normalize_below (m : positive) (e : Z) :
  2 ^ 52 <= Zpos m < 2 ^ 53 -> -52 <= e <= 971 ->
  let y := binary_normalize prec emax (Zpos m * 2 ^ (e + 52) - 2 ^ 52) (-52)
                            false in
  nonneg y = true /\ SFleb y (S754_finite false m e) = true.
Proof.
  intros Hm He y.
  assert (P0 : 1 <= 2 ^ (e + 52)) by (pose proof (@pow2_pos (e + 52)); lia).
  assert (HN : 0 <= Zpos m * 2 ^ (e + 52) - 2 ^ 52) by nia.
  split; [apply binary_normalize_nonneg; exact HN|].
  subst y.
  destruct (Zpos m * 2 ^ (e + 52) - 2 ^ 52) as [|n|n] eqn:EN; [reflexivity| |lia].
  cbn [binary_normalize]. unfold binary_round.
  pose proof (shl_align_spec n (-52)
                (fexp prec emax (Zpos (digits2_pos n) + -52))) as A.
  destruct (shl_align n (-52) _) as [mz ez]. destruct A as [Hez A].
  assert (Ez : ez <= -52) by lia.
  (* the value is below m * 2^e *)
  assert (Hn : Zpos n < Zpos m * 2 ^ (e + 52))
    by (change (2 ^ 52) with 4503599627370496 in *; lia).
  assert (Hmz : Zpos mz < Zpos m * 2 ^ (e - ez)).
  { rewrite A. replace (e - ez) with ((e + 52) + (-52 - ez)) by lia.
    rewrite Z.pow_add_r by lia.
    pose proof (@pow2_pos (-52 - ez)). nia. }
  destruct (@binary_round_aux_spec (Zpos mz) ez loc_Exact ltac:(lia))
    as (m1 & mf & e2 & B & -> & -> & ->).
  set (k1 := Z.max 0 (fexp prec emax (Zdigits2 (Zpos mz) + ez) - ez)) in *.
  set (e1 := ez + k1) in *.
  set (k2 := Z.max 0 (fexp prec emax (Zdigits2 m1 + e1) - e1)) in *.
  assert (K1 : 0 <= k1) by (subst k1; lia).
  assert (K2 : 0 <= k2) by (subst k2; lia).
  (* (i) the first exponent is at most e *)
  assert (Hmz2 : Zpos mz < 2 ^ (53 + e - ez)).
  { eapply Z.lt_le_trans; [exact Hmz|].
    replace (53 + e - ez) with (53 + (e - ez)) by lia.
    rewrite Z.pow_add_r by lia. pose proof (@pow2_pos (e - ez)). nia. }
  assert (I1 : e1 <= e).
  { subst e1 k1. cbn [Zdigits2]. rewrite fexp_eq.
    pose proof (@digits2_pos_le mz _ Hmz2). lia. }
  (* (ii) the rounded mantissa is at most m * 2^(e - e1) *)
  assert (Hq : Zpos mz / 2 ^ k1 < Zpos m * 2 ^ (e - e1)).
  { apply Z.div_lt_upper_bound; [apply pow2_pos; lia|].
    replace (2 ^ k1 * (Zpos m * 2 ^ (e - e1)))
      with (Zpos m * (2 ^ (e - e1) * 2 ^ k1)) by ring.
    rewrite <- Z.pow_add_r by lia.
    replace (e - e1 + k1) with (e - ez) by (subst e1; lia). exact Hmz. }
  assert (I2 : m1 <= Zpos m * 2 ^ (e - e1)) by lia.
  assert (M1 : 0 <= m1).
  { assert (0 <= Zpos mz / 2 ^ k1)
      by (apply Z.div_pos; [lia|apply pow2_pos; lia]). lia. }
  (* (iii) the final exponent is at most e *)
  assert (I3 : e1 + k2 <= e).
  { subst k2. rewrite fexp_eq.
    destruct m1 as [|p1|p1]; [cbn [Zdigits2]; lia| |lia].
    cbn [Zdigits2].
    assert (Zpos p1 < 2 ^ (53 + e - e1)).
    { eapply Z.le_lt_trans; [exact I2|].
      replace (53 + e - e1) with (53 + (e - e1)) by lia.
      rewrite Z.pow_add_r by lia. pose proof (@pow2_pos (e - e1)). nia. }
    pose proof (@digits2_pos_le p1 _ H). lia. }
  (* (iv) at exponent e the final mantissa is at most m *)
  assert (I4 : e1 + k2 = e -> m1 / 2 ^ k2 <= Zpos m).
  { intro E. replace (e - e1) with k2 in I2 by lia.
    rewrite <- (Z.div_mul (Zpos m) (2 ^ k2))
      by (pose proof (@pow2_pos k2); lia).
    apply Z.div_le_mono; [apply pow2_pos; lia|exact I2]. }
  assert (M2 : 0 <= m1 / 2 ^ k2)
    by (apply Z.div_pos; [lia|apply pow2_pos; lia]).
  destruct (m1 / 2 ^ k2) as [|pf|pf] eqn:EF; [reflexivity| |lia].
  change (emax - prec) with 971.
  assert (L : (e1 + k2 <=? 971) = true) by (apply Z.leb_le; lia).
  rewrite L. unfold SFleb. cbn [SFcompare].
  change (Pos.compare_cont Eq pf m) with (pf ?= m)%positive.
  destruct (Z.compare_spec (e1 + k2) e) as [C|C|C]; [|reflexivity|lia].
  specialize (I4 C).
  destruct (Pos.compare_spec pf m); try reflexivity. lia.
Qed.

(** [x - 1] for a valid [x >= 1]: not negative, and not above [x]. *)
Lemma SFsub_one_bounds (x : spec_float) :
  valid_binary x = true ->
  SFleb SFone x = true ->
  nonneg (SFsub prec emax x SFone) = true
  /\ SFleb (SFsub prec emax x SFone) x = true.
Proof.
  intros V L. destruct x as [s|s| |s m e]; try destruct s; try discriminate.
  - split; reflexivity.
  - destruct (@one_le_finite m e V L) as [Hm He].
    rewrite SFsub_one_eq by lia. now apply binary_normalize_below.
Qed.

Lemma mag_in_weaken (lo hi lo' hi' : Z) (x : spec_float) :
  mag_in lo hi x -> lo' <= lo -> hi <= hi' -> mag_in lo' hi' x.
Proof. intros (m & e & -> & H) ? ?. exists m, e. split; [reflexivity|lia]. Qed.

Lemma mag_in_finite_pos (lo hi : Z) (x : spec_float) :
  mag_in lo hi x -> finite_pos x = true.
Proof. now intros (m & e & -> & _). Qed.

Lemma digits2_pos_unique (p : positive) (k : Z) :
  2 ^ (k - 1) <= Zpos p < 2 ^ k -> Zpos (digits2_pos p) = k.
Proof.
  intros [L U]. pose proof (digits2_pos_bounds p) as [L' U'].
  pose proof (@digits2_pos_le p k U).
  assert (K : 0 <= k - 1).
  { destruct (Z.le_gt_cases 0 (k - 1)); [assumption|].
    assert (k = 0) by lia. subst k. cbn in U. lia. }
  assert (2 ^ (k - 1) < 2 ^ Zpos (digits2_pos p)) as P by lia.
  apply Z.pow_lt_mono_r_iff in P; lia.
Qed.

Lemma digits2_pos_mono (p q : positive) :
  Zpos p <= Zpos q -> Zpos (digits2_pos p) <= Zpos (digits2_pos q).
Proof.
  intro H. pose proof (digits2_pos_bounds q) as [_ U].
  apply digits2_pos_le. lia.
Qed.

(** The bits of [p * 2^s]. *)
Lemma digits2_pos_shift (p q : positive) (s : Z) :
  0 <= s -> Zpos q = Zpos p * 2 ^ s ->
  Zpos (digits2_pos q) = Zpos (digits2_pos p) + s.
Proof.
  intros Hs E. pose proof (digits2_pos_bounds p) as [L U].
  apply digits2_pos_unique. rewrite E.
  replace (Zpos (digits2_pos p) + s - 1) with (Zpos (digits2_pos p) - 1 + s)
    by lia.
  rewrite !Z.pow_add_r by lia. pose proof (@pow2_pos s Hs). nia.
Qed.

(** The bits of [p / 2^k]. *)
Lemma div_pow2_bounds (p : positive) (k : Z) :
  0 <= k < Zpos (digits2_pos p) ->
  2 ^ (Zpos (digits2_pos p) - k - 1) <= Zpos p / 2 ^ k
  < 2 ^ (Zpos (digits2_pos p) - k).
Proof.
  intros Hk. pose proof (digits2_pos_bounds p) as [L U].
  pose proof (@pow2_pos k ltac:(lia)) as Pk. split.
  - apply Z.div_le_lower_bound; [exact Pk|].
    rewrite <- Z.pow_add_r by lia.
    replace (k + (Zpos (digits2_pos p) - k - 1)) with (Zpos (digits2_pos p) - 1)
      by lia. exact L.
  - apply Z.div_lt_upper_bound; [exact Pk|].
    rewrite <- Z.pow_add_r by lia.
    replace (k + (Zpos (digits2_pos p) - k)) with (Zpos (digits2_pos p)) by lia.
    exact U.
Qed.

(** Rounding a mantissa of at least 53 bits, in the range of the normal
    numbers: the magnitude is kept, or grows by one when the mantissa
    rounds up to a power of two. *)
Lemma binary_round_aux_mag (p : positive) (e : Z) (l : location) :
  let mu := Zpos (digits2_pos p) + e in
  53 <= Zpos (digits2_pos p) -> -1021 <= mu <= 1023 ->
  mag_in mu (mu + 1) (binary_round_aux prec emax false (Zpos p) e l).
Proof.
  intros mu Hd Hmu.
  destruct (@binary_round_aux_spec (Zpos p) e l ltac:(lia))
    as (m1 & mf & e2 & B & Hmf & He2 & ->).
  cbn [Zdigits2] in B, Hmf, He2. fold mu in B, Hmf, He2.
  repeat rewrite fexp_eq in B.
  repeat rewrite fexp_eq in Hmf.
  repeat rewrite fexp_eq in He2.
  assert (K1 : Z.max 0 (Z.max (mu - 53) (-1074) - e)
               = Zpos (digits2_pos p) - 53) by lia.
  rewrite K1 in B, Hmf, He2.
  set (k1 := Zpos (digits2_pos p) - 53) in *.
  pose proof (@div_pow2_bounds p k1 ltac:(lia)) as [Q1 Q2].
  replace (Zpos (digits2_pos p) - k1 - 1) with 52 in Q1 by lia.
  replace (Zpos (digits2_pos p) - k1) with 53 in Q2 by lia.
  replace (e + k1) with (mu - 53) in Hmf, He2 by lia.
  change (emax - prec) with 971.
  destruct m1 as [|p1|p1]; try (change (2 ^ 52) with 4503599627370496 in Q1; lia).
  cbn [Zdigits2] in Hmf, He2.
  destruct (Z.eq_dec (Zpos p1) (2 ^ 53)) as [E|NE].
  - assert (D1 : Zpos (digits2_pos p1) = 54).
    { apply digits2_pos_unique. rewrite E. cbn. lia. }
    rewrite D1 in Hmf, He2.
    replace (Z.max 0 (Z.max (54 + (mu - 53) - 53) (-1074) - (mu - 53)))
      with 1 in Hmf, He2 by lia.
    rewrite E in Hmf. change (2 ^ 53 / 2 ^ 1) with 4503599627370496 in Hmf.
    subst mf e2.
    assert (L : (mu - 53 + 1 <=? 971) = true) by (apply Z.leb_le; lia).
    rewrite L. eexists _, _. split; [reflexivity|].
    change (Zpos (digits2_pos 4503599627370496)) with 53. lia.
  - assert (D1 : Zpos (digits2_pos p1) = 53).
    { apply digits2_pos_unique. change (53 - 1) with 52. lia. }
    rewrite D1 in Hmf, He2.
    replace (Z.max 0 (Z.max (53 + (mu - 53) - 53) (-1074) - (mu - 53)))
      with 0 in Hmf, He2 by lia.
    change (2 ^ 0) with 1 in Hmf. rewrite Z.div_1_r in Hmf.
    rewrite Z.add_0_r in He2. subst mf e2.
    assert (L : (mu - 53 <=? 971) = true) by (apply Z.leb_le; lia).
    rewrite L. eexists _, _. split; [reflexivity|]. lia.
Qed.

Lemma binary_round_mag (p : positive) (e : Z) :
  let mu := Zpos (digits2_pos p) + e in
  -1021 <= mu <= 1023 ->
  mag_in mu (mu + 1) (binary_round prec emax false p e).
Proof.
  intros mu Hmu. unfold binary_round.
  pose proof (shl_align_spec p e (fexp prec emax (Zpos (digits2_pos p) + e))) as A.
  destruct (shl_align p e _) as [mz ez]. destruct A as [Hez A].
  fold mu in Hez. rewrite fexp_eq in Hez.
  assert (Hs : 0 <= e - ez) by lia.
  pose proof (digits2_pos_shift p Hs A) as D.
  pose proof (@binary_round_aux_mag mz ez loc_Exact) as G. cbn zeta in G.
  replace (Zpos (digits2_pos mz) + ez) with mu in G by (subst mu; lia).
  apply G; lia.
Qed.

Lemma mag_one : mag_in 1 1 SFone.
Proof. exists 4503599627370496%positive, (-52). split; [reflexivity|]. cbn. lia. Qed.

(** The quotient of two positive finite numbers, in the range of the
    normal numbers. *)
Lemma SFdiv_mag (x y : spec_float) (a1 b1 a2 b2 : Z) :
  mag_in a1 b1 x -> mag_in a2 b2 y ->
  -1021 <= a1 - b2 -> b1 - a2 <= 1022 ->
  mag_in (a1 - b2) (b1 - a2 + 2) (SFdiv prec emax x y).
Proof.
  intros (m1 & e1 & -> & H1) (m2 & e2 & -> & H2) Hlo Hhi.
  cbn [SFdiv xorb]. unfold SFdiv_core_binary. cbn [Zdigits2].
  set (d1 := Zpos (digits2_pos m1)) in *.
  set (d2 := Zpos (digits2_pos m2)) in *.
  rewrite fexp_eq.
  set (e' := Z.min (Z.max (d1 + e1 - (d2 + e2) - 53) (-1074)) (e1 - e2)).
  set (s := e1 - e2 - e').
  assert (Hs : 0 <= s) by (subst s e'; lia).
  assert (Hs2 : 53 - d1 + d2 <= s) by (subst s e'; lia).
  set (m' := match s with Zpos _ => Z.shiftl (Zpos m1) s | 0 => Zpos m1
                        | Zneg _ => 0 end).
  assert (Hm' : m' = Zpos m1 * 2 ^ s).
  { subst m'. destruct s as [|ps|ps] eqn:Es; [cbn; lia| |lia].
    apply Z.shiftl_mul_pow2. lia. }
  pose proof (digits2_pos_bounds m1) as [L1 U1]. fold d1 in L1, U1.
  pose proof (digits2_pos_bounds m2) as [L2 U2]. fold d2 in L2, U2.
  pose proof (@pow2_pos s Hs) as Ps.
  assert (D1 : 1 <= d1) by (subst d1; lia).
  assert (D2 : 1 <= d2) by (subst d2; lia).
  set (D := d1 + s - d2).
  assert (HD : 53 <= D) by (subst D; lia).
  assert (Lm : 2 ^ (d1 + s - 1) <= m').
  { rewrite Hm'. replace (d1 + s - 1) with (d1 - 1 + s) by lia.
    rewrite Z.pow_add_r by lia. nia. }
  assert (Um : m' < 2 ^ (d1 + s)).
  { rewrite Hm'. rewrite Z.pow_add_r by lia. nia. }
  assert (Q1 : 2 ^ (D - 1) <= m' / Zpos m2).
  { apply Z.div_le_lower_bound; [lia|].
    eapply Z.le_trans; [|exact Lm].
    replace (d1 + s - 1) with (d2 + (D - 1)) by (subst D; lia).
    rewrite Z.pow_add_r by lia.
    pose proof (@pow2_pos (D - 1) ltac:(lia)). nia. }
  assert (Q2 : m' / Zpos m2 < 2 ^ (D + 1)).
  { apply Z.div_lt_upper_bound; [lia|].
    eapply Z.lt_le_trans; [exact Um|].
    replace (d1 + s) with (d2 - 1 + (D + 1)) by (subst D; lia).
    rewrite Z.pow_add_r by lia.
    pose proof (@pow2_pos (D + 1) ltac:(lia)). nia. }
  unfold Z.div in Q1, Q2.
  destruct (Z.div_eucl m' (Zpos m2)) as [q r].
  pose proof (@pow2_pos (D - 1) ltac:(lia)) as PD.
  destruct q as [|pq|pq]; try lia.
  assert (Dq : D <= Zpos (digits2_pos pq) <= D + 1).
  { split.
    - pose proof (digits2_pos_bounds pq) as [_ Uq].
      assert (2 ^ (D - 1) < 2 ^ Zpos (digits2_pos pq)) as P by lia.
      apply Z.pow_lt_mono_r_iff in P; lia.
    - now apply digits2_pos_le. }
  assert (He' : D + e' = d1 + e1 - (d2 + e2)) by (subst D s; lia).
  eapply mag_in_weaken; [apply binary_round_aux_mag| |]; lia.
Qed.

(** The sum of two positive finite numbers, in the range of the normal
    numbers. *)
Lemma SFadd_mag (x y : spec_float) (a1 b1 a2 b2 : Z) :
  mag_in a1 b1 x -> mag_in a2 b2 y ->
  -1021 <= Z.max a1 a2 -> Z.max b1 b2 <= 1022 ->
  mag_in (Z.max a1 a2) (Z.max b1 b2 + 2) (SFadd prec emax x y).
Proof.
  intros (m1 & e1 & -> & H1) (m2 & e2 & -> & H2) Hlo Hhi.
  cbn [SFadd cond_Zopp].
  set (ez := Z.min e1 e2).
  pose proof (shl_align_spec m1 e1 ez) as A1.
  destruct (shl_align m1 e1 ez) as [n1 z1]. destruct A1 as [-> A1].
  pose proof (shl_align_spec m2 e2 ez) as A2.
  destruct (shl_align m2 e2 ez) as [n2 z2]. destruct A2 as [-> A2].
  cbn [fst]. cbn [Z.add binary_normalize].
  replace (Z.min e1 ez) with ez in A1 by (subst ez; lia).
  replace (Z.min e2 ez) with ez in A2 by (subst ez; lia).
  assert (S1 : 0 <= e1 - ez) by (subst ez; lia).
  assert (S2 : 0 <= e2 - ez) by (subst ez; lia).
  pose proof (digits2_pos_shift m1 S1 A1) as D1.
  pose proof (digits2_pos_shift m2 S2 A2) as D2.
  assert (M1 : Zpos (digits2_pos n1) <= Zpos (digits2_pos (n1 + n2)))
    by (apply digits2_pos_mono; lia).
  assert (M2 : Zpos (digits2_pos n2) <= Zpos (digits2_pos (n1 + n2)))
    by (apply digits2_pos_mono; lia).
  assert (U : Zpos (digits2_pos (n1 + n2))
              <= Z.max (Zpos (digits2_pos n1)) (Zpos (digits2_pos n2)) + 1).
  { apply digits2_pos_le.
    pose proof (digits2_pos_bounds n1) as [_ U1].
    pose proof (digits2_pos_bounds n2) as [_ U2].
    set (M := Z.max (Zpos (digits2_pos n1)) (Zpos (digits2_pos n2))).
    assert (2 ^ Zpos (digits2_pos n1) <= 2 ^ M)
      by (apply Z.pow_le_mono_r; subst M; lia).
    assert (2 ^ Zpos (digits2_pos n2) <= 2 ^ M)
      by (apply Z.pow_le_mono_r; subst M; lia).
    rewrite Z.pow_add_r by (subst M; lia). rewrite Pos2Z.inj_add. lia. }
  eapply mag_in_weaken; [apply binary_round_mag| |]; lia.
Qed.

End FloatFacts.

(** ** Token bucket *)
Module RateLimitFacts.
Import Utf8Spec TruncateSpec RegexpSpec ServiceNameSpec RedactionSpec DeliverySpec FloatSpec RateLimitSpec.
Import Constants RateLimit FloatFacts.
Local Open Scope Z_scope.

Lemma float_of_Z_nonneg (z : Z) :
  0 <= z -> nonneg (Prim2SF (float_of_Z z)) = true.
Proof.
  intro H. unfold float_of_Z. apply Z.leb_le in H as E. rewrite E.
  rewrite of_uint63_spec. apply binary_normalize_nonneg.
  apply Uint63.to_Z_bounded.
Qed.

Lemma Sub_nonneg (t u : Z) : u <= t -> 0 <= Sub t u.
Proof.
  intro H. unfold Sub, maxDuration, minDuration.
  change (2 ^ 63) with 9223372036854775808.
  destruct (_ <? t - u); [lia|]. destruct (t - u <? _) eqn:E; [|lia].
  apply Z.ltb_lt in E. lia.
Qed.

(** The seconds of a duration that is not negative are not negative. *)
Lemma Seconds_nonneg (d : Z) : 0 <= d -> nonneg (Prim2SF (Seconds d)) = true.
Proof.
  intro H. unfold Seconds. rewrite add_spec, div_spec.
  apply SFadd_nonneg.
  - apply float_of_Z_nonneg. apply Z.quot_pos; [exact H|reflexivity].
  - apply SFdiv_nonneg; [|reflexivity].
    apply float_of_Z_nonneg. apply Z.rem_nonneg; [discriminate|exact H].
Qed.

Lemma rate_ok_finite (tb : TokenBucket) :
  rate_ok tb = true -> finite_pos (Prim2SF (refillRate tb)) = true.
Proof.
  unfold rate_ok. rewrite !ltb_spec, andb_true_iff.
  change (Prim2SF 0) with (S754_zero false).
  change (Prim2SF infinity) with (S754_infinity false).
  destruct (Prim2SF (refillRate tb)) as [s|s| |s m e]; try destruct s;
    intros [H1 H2]; try discriminate; reflexivity.
Qed.

(** The conversion of a positive integer below [2^k] is exact up to
    rounding: its magnitude is between 1 and [k + 1]. *)
Lemma float_of_Z_mag (z k : Z) :
  0 < z < 2 ^ k -> k <= 63 ->
  mag_in 1 (k + 1) (Prim2SF (float_of_Z z)).
Proof.
  intros [Hz Hk] K. unfold float_of_Z.
  assert (E : (0 <=? z) = true) by (apply Z.leb_le; lia). rewrite E.
  rewrite of_uint63_spec, Uint63.of_Z_spec.
  assert (Hw : z < Uint63.wB).
  { eapply Z.lt_le_trans; [exact Hk|].
    change Uint63.wB with (2 ^ 63). apply Z.pow_le_mono_r; lia. }
  rewrite Z.mod_small by lia.
  destruct z as [|p|p]; try lia. cbn [binary_normalize].
  pose proof (@digits2_pos_le p k Hk).
  eapply mag_in_weaken; [apply binary_round_mag| |]; lia.
Qed.

Lemma float_of_Z_zero : Prim2SF (float_of_Z 0) = S754_zero false.
Proof. reflexivity. Qed.

(** The seconds of a positive duration: between [2^-30] and [2^37]. *)
Lemma Seconds_mag (d : Z) :
  0 < d <= maxDuration -> mag_in (-29) 37 (Prim2SF (Seconds d)).
Proof.
  intros [H0 H1]. unfold Seconds, maxDuration, Second in *.
  rewrite Z.quot_div_nonneg, Z.rem_mod_nonneg by lia.
  rewrite add_spec, div_spec. unfold SF64add, SF64div.
  pose proof (Z.mod_pos_bound d 1000000000 ltac:(lia)) as Hn.
  assert (Hs : 0 <= d / 1000000000 < 2 ^ 34).
  { split; [apply Z.div_pos; lia|].
    apply Z.div_lt_upper_bound; [lia|].
    change (2 ^ 34) with 17179869184. change (2 ^ 63) with 9223372036854775808 in H1.
    lia. }
  assert (M9 : mag_in 30 30 (Prim2SF 1e9)).
  { exists 8388608000000000%positive, (-23). split; [reflexivity|]. cbn. lia. }
  destruct (Z.eq_dec (d mod 1000000000) 0) as [En|En].
  - (* a whole number of seconds *)
    rewrite En, float_of_Z_zero.
    assert (0 < d / 1000000000).
    { pose proof (Z.div_mod d 1000000000 ltac:(lia)). lia. }
    pose proof (@float_of_Z_mag (d / 1000000000) 34 ltac:(lia) ltac:(lia))
      as (m & e & -> & Hm).
    destruct M9 as (m9 & e9 & -> & _). cbn [SFdiv SFadd xorb].
    exists m, e. split; [reflexivity|lia].
  - assert (MB : mag_in (-29) 3 (SFdiv prec emax
                                      (Prim2SF (float_of_Z (d mod 1000000000)))
                                      (Prim2SF 1e9)%float)).
    { pose proof (@float_of_Z_mag (d mod 1000000000) 30
                    ltac:(change (2 ^ 30) with 1073741824; lia) ltac:(lia)) as Mn.
      eapply mag_in_weaken; [exact (SFdiv_mag Mn M9 ltac:(lia) ltac:(lia))| |];
        lia. }
    destruct (Z.eq_dec (d / 1000000000) 0) as [Es|Es].
    + rewrite Es, float_of_Z_zero.
      destruct MB as (m & e & -> & Hm). cbn [SFadd].
      exists m, e. split; [reflexivity|lia].
    + pose proof (@float_of_Z_mag (d / 1000000000) 34 ltac:(lia) ltac:(lia))
        as MA.
      eapply mag_in_weaken; [exact (SFadd_mag MA MB ltac:(lia) ltac:(lia))| |];
        lia.
Qed.

Lemma finite_pos_rate_ok (tb : TokenBucket) :
  finite_pos (Prim2SF (refillRate tb)) = true -> rate_ok tb = true.
Proof.
  unfold rate_ok. rewrite !ltb_spec.
  change (Prim2SF 0) with (S754_zero false).
  change (Prim2SF infinity) with (S754_infinity false).
  destruct (Prim2SF (refillRate tb)) as [s|s| |s m e]; try destruct s;
    try discriminate; reflexivity.
Qed.

(** For a positive refill interval the rate is a positive finite number. *)
Lemma NewTokenBucket_rate_ok (now maxTokens refillRate : Z) :
  0 < refillRate <= maxDuration ->
  rate_ok (NewTokenBucket now maxTokens refillRate) = true.
Proof.
  intro H. apply finite_pos_rate_ok. cbn [NewTokenBucket RateLimit.refillRate].
  rewrite div_spec, Prim2SF_one. unfold SF64div.
  pose proof (SFdiv_mag mag_one (Seconds_mag H) ltac:(lia) ltac:(lia)) as M.
  exact (mag_in_finite_pos M).
Qed.

Lemma within_capacity_spec (tb : TokenBucket) :
  within_capacity tb = true <->
  nonneg (Prim2SF (tokens tb)) = true
  /\ SFleb (Prim2SF (tokens tb)) (Prim2SF (maxTokens tb)) = true.
Proof.
  unfold within_capacity. now rewrite andb_true_iff, leb_zero, leb_spec.
Qed.

(** [refill] keeps the level within the capacity. *)
Lemma refill_within (now : Z) (tb : TokenBucket) :
  within_capacity tb = true -> rate_ok tb = true -> lastRefill tb <= now ->
  within_capacity (refill now tb) = true.
Proof.
  intros W R T. apply within_capacity_spec in W as [W0 W1].
  apply rate_ok_finite in R.
  pose proof (@SFleb_nonneg_r _ _ W0 W1) as M0.
  apply within_capacity_spec. unfold refill. cbn [tokens maxTokens].
  set (t1 := (tokens tb
              + Seconds (Sub now (lastRefill tb)) * refillRate tb)%float).
  assert (N1 : nonneg (Prim2SF t1) = true).
  { subst t1. rewrite add_spec, mul_spec.
    apply SFadd_nonneg; [exact W0|].
    apply SFmul_nonneg; [|exact R].
    apply Seconds_nonneg, Sub_nonneg, T. }
  destruct (maxTokens tb <? t1)%float eqn:C.
  - split; [exact M0|]. apply SFleb_refl, nonneg_not_nan, M0.
  - split; [exact N1|]. rewrite ltb_spec in C.
    apply SFleb_of_not_ltb; [apply nonneg_not_nan| apply nonneg_not_nan|];
      assumption.
Qed.

Lemma refill_frame (now : Z) (tb : TokenBucket) :
  maxTokens (refill now tb) = maxTokens tb
  /\ refillRate (refill now tb) = refillRate tb
  /\ lastRefill (refill now tb) = now.
Proof. repeat split. Qed.

Lemma tryTake_frame (now : Z) (tb : TokenBucket) :
  maxTokens (snd (tryTake now tb)) = maxTokens tb
  /\ refillRate (snd (tryTake now tb)) = refillRate tb
  /\ lastRefill (snd (tryTake now tb)) = now.
Proof. unfold tryTake. destruct (1 <=? _)%float; repeat split. Qed.

(** [tryTake] keeps the level within the capacity: it takes a token only
    from a level of at least one, and [level - 1] is then neither negative
    nor above the level. *)
Lemma tryTake_within (now : Z) (tb : TokenBucket) :
  within_capacity tb = true -> rate_ok tb = true -> lastRefill tb <= now ->
  within_capacity (snd (tryTake now tb)) = true.
Proof.
  intros W R T. pose proof (@refill_within now tb W R T) as W1.
  unfold tryTake. destruct (1 <=? tokens (refill now tb))%float eqn:C;
    [|exact W1].
  cbn [snd]. apply within_capacity_spec in W1 as [N1 L1].
  apply within_capacity_spec. cbn [tokens maxTokens].
  rewrite leb_spec, Prim2SF_one in C. rewrite sub_spec, Prim2SF_one.
  destruct (@SFsub_one_bounds _ (Prim2SF_valid _) C) as [S1 S2].
  split; [exact S1|].
  exact (@SFleb_trans _ _ _ S1 S2 L1).
Qed.

Lemma states_within (ops : list (op * Z)) :
  forall tb,
    within_capacity tb = true -> rate_ok tb = true ->
    clock_from (lastRefill tb) ops ->
    Forall (fun tb' => within_capacity tb' = true) (states tb ops).
Proof.
  induction ops as [|[o now] ops IH]; intros tb W R C; [constructor|].
  cbn [states]. destruct C as [T C]. cbn [snd] in T, C.
  assert (W' : within_capacity (apply_op tb (o, now)) = true).
  { destruct o; cbn; [now apply refill_within|now apply tryTake_within]. }
  assert (F : refillRate (apply_op tb (o, now)) = refillRate tb
              /\ lastRefill (apply_op tb (o, now)) = now).
  { destruct o; cbn [apply_op fst snd];
      [apply refill_frame|split; apply tryTake_frame]. }
  destruct F as [F1 F2].
  constructor; [exact W'|]. apply IH; [exact W'| |now rewrite F2].
  unfold rate_ok in *. now rewrite F1.
Qed.

(** C6 does not hold for every bucket [NewTokenBucket] creates: with the
    capacity -1 the level is -1 from the start. *)
Lemma negative_capacity_breaks_invariant :
  ~ capacity_invariant 0 (-1) Second [].
Proof.
  intro H. specialize (H I). inversion H as [|tb l W _]. vm_compute in W.
  discriminate.
Qed.

(** With a refill interval of zero the rate is infinite, and a refill at
    the instant of creation makes the level NaN. *)
Example zero_interval_breaks_invariant :
  ~ capacity_invariant 0 10 0 [(OpRefill, 0)].
Proof.
  intro H. specialize (H (conj (Z.le_refl 0) I)).
  inversion H as [|tb l _ H1]. inversion H1 as [|tb' l' W _].
  vm_compute in W. discriminate.
Qed.

(** With a negative refill interval the rate is negative, and a refill
    after eleven seconds takes the level below zero. *)
Example negative_interval_breaks_invariant :
  ~ capacity_invariant 0 10 (- Second) [(OpRefill, 11 * Second)].
Proof.
  intro H.
  assert (C : clock_from 0 [(OpRefill, 11 * Second)])
    by (split; [vm_compute; discriminate|exact I]).
  specialize (H C).
  inversion H as [|tb l _ H1]. inversion H1 as [|tb' l' W _].
  vm_compute in W. discriminate.
Qed.

(** C6 (amended): for every bucket created by [NewTokenBucket] with a
    capacity that is not negative and a positive refill interval, and every
    sequence of [refill] and [tryTake] operations with non-negative elapsed
    time, [0 <= tokens <= maxTokens] holds at creation and after each
    operation. *)
Theorem capacity_invariant_holds (now maxTokens refillRate : Z)
        (ops : list (op * Z)) :
  0 <= maxTokens ->
  0 < refillRate <= maxDuration ->
  capacity_invariant now maxTokens refillRate ops.
Proof.
  intros Hm Hr Hc.
  assert (W : within_capacity (NewTokenBucket now maxTokens refillRate) = true).
  { apply within_capacity_spec. cbn [NewTokenBucket tokens RateLimit.maxTokens].
    pose proof (@float_of_Z_nonneg _ Hm) as N.
    split; [exact N|]. apply SFleb_refl, nonneg_not_nan, N. }
  constructor; [exact W|].
  apply states_within; [exact W| |exact Hc].
  now apply NewTokenBucket_rate_ok.
Qed.

(** The rate limiter of the delivery client: ten tokens, one per second. *)
Lemma capacity_invariant_holds_witness :
  capacity_invariant 0 RateLimitTokens RateLimitRefillRate
                     [(OpTryTake, 0); (OpRefill, 250000000);
                      (OpTryTake, 1500000000)].
Proof.
  apply capacity_invariant_holds; [discriminate|split; [reflexivity|discriminate]].
Defined.

(** C5 does not hold: half a second after the bucket is emptied [tryTake]
    fails, and the refill it made stays: the level is 0.5 and the time of
    the last refill is the time of the call. *)
Lemma failed_take_keeps_refill :
  tryTake 500000000 drained
  = (false, mkBucket 0.5%float 1%float 1%float 500000000)
  /\ ~ unchanged_on_failure 500000000 drained.
Proof.
  split; [vm_compute; reflexivity|].
  intro H. destruct (H eq_refl) as (_ & _ & L). vm_compute in L. discriminate.
Qed.

(** C5 (amended): whenever [tryTake] is called and, after the lazy refill,
    fewer than one token is available, it returns false and takes no
    token: the bucket is left as the refill made it, with the level raised
    by the elapsed time (capped at the capacity) and the time of the last
    refill set to the time of the call; capacity and rate are as before. *)
Theorem failed_take_is_refill (now : Z) (tb : TokenBucket) :
  (tokens (refill now tb) <? 1)%float = true ->
  tryTake now tb = (false, refill now tb)
  /\ lastRefill (snd (tryTake now tb)) = now
  /\ maxTokens (snd (tryTake now tb)) = maxTokens tb
  /\ refillRate (snd (tryTake now tb)) = refillRate tb.
Proof.
  intro H. rewrite ltb_spec in H. apply SFltb_not_leb in H.
  rewrite <- leb_spec in H.
  split; [|repeat split; apply tryTake_frame].
  unfold tryTake. now rewrite H.
Qed.

Lemma failed_take_is_refill_witness :
  tryTake 500000000 drained = (false, refill 500000000 drained).
Proof.
  apply (@failed_take_is_refill 500000000 drained). reflexivity.
Defined.

End RateLimitFacts.

(** ** The scan of the journal *)
Module JournalScanFacts.
Import Strings Journal JournalSpec JournalFacts.

Lemma scan_lines_app (l1 l2 : list gostring) (serviceName : gostring)
      (st : scan) :
  scan_lines (l1 ++ l2) serviceName st
  = scan_lines l2 serviceName (scan_lines l1 serviceName st).
Proof. unfold scan_lines. apply fold_left_app. Qed.

Lemma classify_scan (journalRaw serviceName invocationID : gostring) :
  classify journalRaw serviceName invocationID
  = output (scan_lines (Split journalRaw nl) serviceName
              (mkScan (mkOutput [] []) (nonempty invocationID) [] false)).
Proof. reflexivity. Qed.

(** X1: without invocation scoping, a journal in which no line is a start
    marker (a line that is not skipped and carries both the start keyword
    and the service name) classifies to nothing: both sequences are
    empty, whatever else the lines say. *)
Theorem no_start_marker_no_output (journalRaw serviceName : gostring) :
  Forall (fun line => start_marker line serviceName = false)
         (Split journalRaw nl) ->
  classify journalRaw serviceName [] = mkOutput [] [].
Proof.
  rewrite classify_scan. cbn [nonempty].
  generalize (Split journalRaw nl) as lines.
  intros lines F.
  assert (H : scan_lines lines serviceName (mkScan (mkOutput [] []) false [] false)
              = mkScan (mkOutput [] []) false [] false).
  { induction F as [|line lines Hl F IH]; [reflexivity|].
    unfold scan_lines in *. cbn [fold_left].
    replace (processJournalLine line serviceName _)
      with (mkScan (mkOutput [] []) false [] false); [exact IH|].
    unfold processJournalLine. unfold start_marker, skipped in Hl.
    destruct (HasPrefix line (str "-- ") || Contains line (str "telegram-notifier"));
      [reflexivity|].
    cbn [negb andb] in Hl. rewrite Hl. reflexivity. }
  now rewrite H.
Qed.

Lemma no_start_marker_no_output_witness :
  classify (str "Jun 1 00:00:01 h myapp[99]: hello" ++ nl
            ++ str "Jun 1 00:00:02 h systemd[1]: Finished x.service")
           (str "x.service") []
  = mkOutput [] [].
Proof.
  apply no_start_marker_no_output.
  change (Split (str "Jun 1 00:00:01 h myapp[99]: hello" ++ nl
                 ++ str "Jun 1 00:00:02 h systemd[1]: Finished x.service") nl)
    with [str "Jun 1 00:00:01 h myapp[99]: hello";
          str "Jun 1 00:00:02 h systemd[1]: Finished x.service"].
  repeat (constructor; [vm_compute; reflexivity|]). constructor.
Defined.

Lemma start_marker_step (line serviceName : gostring) (st : scan) :
  start_marker line serviceName = true ->
  processJournalLine line serviceName st = started.
Proof.
  unfold start_marker, skipped. intro H.
  apply andb_true_iff in H as [H1 H2].
  apply negb_true_iff in H1.
  unfold processJournalLine. now rewrite H1, H2.
Qed.

(** X2: a start marker discards everything before it: the classification
    of a journal is the classification of the lines after the marker,
    scanned from the state the marker leaves; the lines before it and the
    invocation scoping have no effect. *)
Theorem start_marker_discards_history
        (journalRaw serviceName invocationID : gostring)
        (before after : list gostring) (marker : gostring) :
  Split journalRaw nl = before ++ marker :: after ->
  start_marker marker serviceName = true ->
  classify journalRaw serviceName invocationID
  = output (scan_lines after serviceName started).
Proof.
  intros Hs Hm. rewrite classify_scan, Hs, scan_lines_app.
  unfold scan_lines at 1. cbn [fold_left].
  now rewrite start_marker_step by exact Hm.
Qed.

Lemma start_marker_discards_history_witness :
  classify (str "Jun 1 00:00:00 h old[7]: stale" ++ nl ++ raw_example)
           (str "x.service") (str "4f2a")
  = mkOutput [str "Finished x.service"] [str "hello"].
Proof.
  rewrite (@start_marker_discards_history _ (str "x.service") (str "4f2a")
             [str "Jun 1 00:00:00 h old[7]: stale"]
             [str "Jun 1 00:00:01 h myapp[99]: hello";
              str "Jun 1 00:00:02 h systemd[1]: Finished x.service"]
             (str "Jun 1 00:00:00 h systemd[1]: Starting x.service")).
  - vm_compute. reflexivity.
  - vm_compute. reflexivity.
  - vm_compute. reflexivity.
Defined.

(** One line adds at most one entry, to one of the two sequences, or
    empties both. *)
Lemma step_cases (line serviceName : gostring) (st : scan) :
  let st' := processJournalLine line serviceName st in
  output st' = output st
  \/ output st' = mkOutput [] []
  \/ (exists msg, is_lifecycle msg = true
                  /\ output st'
                     = mkOutput (SystemdLogs (output st) ++ [msg])
                                (ExecutionResults (output st)))
  \/ (exists msg, output st'
                  = mkOutput (SystemdLogs (output st))
                             (ExecutionResults (output st) ++ [msg])).
Proof.
  unfold processJournalLine.
  destruct (HasPrefix line (str "-- ") || Contains line (str "telegram-notifier"));
    [now left|].
  destruct (Contains line (str "Starting") && Contains line serviceName);
    [right; now left|].
  destruct (negb (foundStart st)); [now left|].
  destruct (is_systemd (extractProcessName line)).
  - destruct (is_lifecycle (extractMessage line)) eqn:E; [|now left].
    right; right; left. eexists; split; [exact E|reflexivity].
  - destruct (nonempty (extractProcessName line) && _).
    + destruct (negb (nonempty (extractMessage line)) && inCommandOutput st).
      * right; right; right. eexists; reflexivity.
      * destruct (nonempty (extractMessage line)).
        -- right; right; right. eexists; reflexivity.
        -- left. cbn. now destruct (output st).
    + destruct (nonempty (lastProcessName st) && _); [|now left].
      right; right; right. eexists; reflexivity.
Qed.

(** X3: every entry of the lifecycle sequence contains one of the keywords
    Starting, Started, Finished, Failed, Deactivated. *)
Theorem lifecycle_entries_carry_keyword
        (journalRaw serviceName invocationID : gostring) :
  Forall (fun msg => is_lifecycle msg = true)
         (SystemdLogs (classify journalRaw serviceName invocationID)).
Proof.
  rewrite classify_scan.
  set (init := mkScan _ _ _ _).
  assert (H0 : Forall (fun msg => is_lifecycle msg = true)
                      (SystemdLogs (output init))) by constructor.
  revert H0. generalize init. generalize (Split journalRaw nl) as lines.
  induction lines as [|line lines IH]; intros st H; [exact H|].
  unfold scan_lines. cbn [fold_left]. apply IH.
  destruct (step_cases line serviceName st) as [E|[E|[(m & Hm & E)|(m & E)]]];
    rewrite E; cbn [SystemdLogs]; auto.
  apply Forall_app. split; [exact H|]. now constructor.
Qed.

(** X4: a line of the journal is recorded at most once: the lifecycle and
    output sequences together have no more entries than the journal has
    lines. *)
Theorem at_most_one_entry_per_line
        (journalRaw serviceName invocationID : gostring) :
  entries (classify journalRaw serviceName invocationID)
  <= length (Split journalRaw nl).
Proof.
  rewrite classify_scan.
  set (init := mkScan _ _ _ _).
  assert (G : forall lines st,
             entries (output (scan_lines lines serviceName st))
             <= entries (output st) + length lines).
  { induction lines as [|line lines IH]; intro st; [cbn; lia|].
    unfold scan_lines. cbn [fold_left length].
    etransitivity; [apply IH|].
    destruct (step_cases line serviceName st) as [E|[E|[(m & Hm & E)|(m & E)]]];
      rewrite E; unfold entries; cbn [SystemdLogs ExecutionResults length];
      rewrite ?length_app; cbn [length]; lia. }
  specialize (G (Split journalRaw nl) init). exact G.
Qed.

(** *** Parsing one line *)

Lemma HasPrefix_app (p s : gostring) : HasPrefix (p ++ s) p = true.
Proof.
  induction p as [|c p IH]; [now destruct s|].
  cbn. now rewrite Ascii.eqb_refl.
Qed.

Lemma HasPrefix_head (c x : ascii) (sub s : gostring) :
  Ascii.eqb c x = false -> HasPrefix (x :: s) (c :: sub) = false.
Proof. intro H. cbn. now rewrite H. Qed.

(** The first occurrence of a string whose first byte does not occur
    before it. *)
Lemma index_from_first (c : ascii) (sub pre rest : gostring) :
  has_byte c pre = false ->
  forall i, index_from i (c :: sub) (pre ++ (c :: sub) ++ rest)
            = (i + len pre)%Z.
Proof.
  unfold len. induction pre as [|x pre IH]; intros H i.
  - cbn [app length index_from].
    change (c :: sub ++ rest) with ((c :: sub) ++ rest).
    rewrite HasPrefix_app. cbn. lia.
  - cbn in H. apply orb_false_iff in H as [Hx Hp].
    cbn [app index_from]. rewrite HasPrefix_head by exact Hx.
    rewrite IH by assumption. cbn [length]. lia.
Qed.

Lemma Index_first (c : ascii) (sub pre rest : gostring) :
  has_byte c pre = false ->
  Index (pre ++ (c :: sub) ++ rest) (c :: sub) = len pre.
Proof. intro H. unfold Index. now rewrite index_from_first. Qed.

Lemma last_index_absent (c : ascii) (s : gostring) :
  has_byte c s = false ->
  forall i found, last_index_from i found [c] s = found.
Proof.
  induction s as [|x s IH]; intros H i found; [reflexivity|].
  cbn in H. apply orb_false_iff in H as [Hx Hs].
  cbn [last_index_from]. rewrite HasPrefix_head by exact Hx. now apply IH.
Qed.

Lemma last_index_from_last (c : ascii) (post : gostring) :
  has_byte c post = false ->
  forall pre i found,
    last_index_from i found [c] (pre ++ c :: post) = (i + len pre)%Z.
Proof.
  intros H. unfold len. induction pre as [|x pre IH]; intros i found.
  - cbn [app last_index_from HasPrefix]. rewrite Ascii.eqb_refl.
    cbn [andb]. rewrite last_index_absent by assumption.
    destruct post; cbn [HasPrefix length]; lia.
  - cbn [app last_index_from]. rewrite IH. cbn [length]. lia.
Qed.

Lemma has_byte_app (c : ascii) (a b : gostring) :
  has_byte c (a ++ b) = has_byte c a || has_byte c b.
Proof. apply existsb_app. Qed.

Lemma slice_to_app (a b : gostring) : slice_to (a ++ b) (len a) = a.
Proof.
  unfold slice_to, len. rewrite Nat2Z.id.
  rewrite firstn_app, Nat.sub_diag, firstn_all. cbn. apply app_nil_r.
Qed.

Lemma slice_from_app (a b : gostring) (n : Z) :
  n = len a -> slice_from (a ++ b) n = b.
Proof.
  intros ->. unfold slice_from, len. rewrite Nat2Z.id.
  rewrite skipn_app, Nat.sub_diag, skipn_all. reflexivity.
Qed.

(** X5: a line in the short format [stamp name[pid]: message] is parsed as
    written: when the stamp has no bracket, the name no space and no
    bracket, and the pid no closing bracket, [extractProcessName] returns
    the name and [extractMessage] the message, whatever the message
    contains. *)
Theorem short_format_parsed (stamp name pid msg : gostring) :
  has_byte "["%char stamp = false ->
  has_byte "]"%char stamp = false ->
  has_byte " "%char name = false ->
  has_byte "["%char name = false ->
  has_byte "]"%char name = false ->
  has_byte "]"%char pid = false ->
  extractProcessName (short_line stamp name pid msg) = name
  /\ extractMessage (short_line stamp name pid msg) = msg.
Proof.
  intros Hs1 Hs2 Hn0 Hn1 Hn2 Hp. split.
  - unfold extractProcessName, short_line.
    assert (I1 : Index (stamp ++ str " " ++ name ++ str "[" ++ pid
                          ++ str "]: " ++ msg) (str "[")
                 = len (stamp ++ str " " ++ name)).
    { replace (stamp ++ str " " ++ name ++ str "[" ++ pid ++ str "]: " ++ msg)
        with ((stamp ++ str " " ++ name) ++ str "[" ++ (pid ++ str "]: " ++ msg))
        by now rewrite <- !app_assoc.
      apply (@Index_first "["%char [] _ _).
      rewrite !has_byte_app, Hs1, Hn1. reflexivity. }
    rewrite I1.
    assert (P : (0 <? len (stamp ++ str " " ++ name))%Z = true).
    { apply Z.ltb_lt. unfold len. rewrite !length_app. cbn. lia. }
    rewrite P.
    replace (stamp ++ str " " ++ name ++ str "[" ++ pid ++ str "]: " ++ msg)
      with ((stamp ++ str " " ++ name) ++ str "[" ++ (pid ++ str "]: " ++ msg))
      by now rewrite <- !app_assoc.
    rewrite slice_to_app.
    assert (I2 : LastIndex (stamp ++ str " " ++ name) (str " ") = len stamp).
    { unfold LastIndex. cbn [str list_ascii_of_string app].
      rewrite (@last_index_from_last " "%char name Hn0). lia. }
    rewrite I2.
    assert (Q : negb (len stamp =? -1)%Z = true).
    { apply negb_true_iff, Z.eqb_neq. unfold len. lia. }
    rewrite Q.
    rewrite (@slice_from_app _ _ (len (stamp ++ str " " ++ name))) by reflexivity.
    assert (I3 : Index (str "[" ++ pid ++ str "]: " ++ msg) (str "]:")
                 = len (str "[" ++ pid)).
    { replace (str "[" ++ pid ++ str "]: " ++ msg)
        with ((str "[" ++ pid) ++ str "]:" ++ (str " " ++ msg))
        by now rewrite <- !app_assoc.
      apply (@Index_first "]"%char [":"%char] _ _).
      rewrite has_byte_app, Hp. reflexivity. }
    rewrite I3.
    assert (R : (0 <? len (str "[" ++ pid))%Z = true).
    { apply Z.ltb_lt. unfold len. rewrite length_app. cbn. lia. }
    rewrite R.
    replace (stamp ++ str " " ++ name) with (stamp ++ (str " " ++ name))
      by reflexivity.
    unfold slice_from. replace (Z.to_nat (len stamp + 1)) with (1 + length stamp).
    2:{ unfold len. lia. }
    rewrite <- skipn_skipn, skipn_app, Nat.sub_diag, skipn_all. reflexivity.
  - unfold extractMessage, short_line.
    destruct (stamp ++ str " " ++ name ++ str "[" ++ pid ++ str "]: " ++ msg)
      as [|b rest] eqn:E.
    { apply (f_equal (@length ascii)) in E. rewrite !length_app in E.
      cbn in E. lia. }
    rewrite <- E.
    assert (I1 : Index (stamp ++ str " " ++ name ++ str "[" ++ pid
                          ++ str "]: " ++ msg) (str "]: ")
                 = len (stamp ++ str " " ++ name ++ str "[" ++ pid)).
    { replace (stamp ++ str " " ++ name ++ str "[" ++ pid ++ str "]: " ++ msg)
        with ((stamp ++ str " " ++ name ++ str "[" ++ pid) ++ str "]: " ++ msg)
        by now rewrite <- !app_assoc.
      apply (@Index_first "]"%char (str ": ") _ _).
      rewrite !has_byte_app, Hs2, Hn2, Hp. reflexivity. }
    rewrite I1.
    assert (Q : negb (len (stamp ++ str " " ++ name ++ str "[" ++ pid) =? -1)%Z
                = true).
    { apply negb_true_iff, Z.eqb_neq. unfold len. lia. }
    rewrite Q.
    replace (stamp ++ str " " ++ name ++ str "[" ++ pid ++ str "]: " ++ msg)
      with ((stamp ++ str " " ++ name ++ str "[" ++ pid ++ str "]: ") ++ msg)
      by now rewrite <- !app_assoc.
    apply slice_from_app. unfold len. rewrite !length_app. cbn. lia.
Qed.

Lemma short_format_parsed_witness :
  extractProcessName (str "Jun 1 00:00:01 h myapp[99]: hello [ok]: done")
  = str "myapp"
  /\ extractMessage (str "Jun 1 00:00:01 h myapp[99]: hello [ok]: done")
     = str "hello [ok]: done".
Proof.
  apply (@short_format_parsed (str "Jun 1 00:00:01 h") (str "myapp") (str "99")
           (str "hello [ok]: done")); reflexivity.
Defined.

(** X6: [extractMessage] never invents text: its result is a suffix of the
    line (the empty one included). *)
Theorem extractMessage_is_suffix (line : gostring) :
  exists prefix, line = prefix ++ extractMessage line.
Proof.
  assert (S : forall (s : gostring) n, exists p, s = p ++ slice_from s n).
  { intros s n. exists (firstn (Z.to_nat n) s). unfold slice_from.
    now rewrite firstn_skipn. }
  assert (Nil : exists p : gostring, line = p ++ []).
  { exists line. now rewrite app_nil_r. }
  assert (All : exists p : gostring, line = p ++ line) by now exists [].
  assert (Ind : exists p : gostring,
             line = p ++ (if HasPrefix line (str "  ") || HasPrefix line [byte_of 9]
                          then line else [])).
  { destruct (_ || _); assumption. }
  unfold extractMessage.
  destruct line as [|b rest] eqn:E; [exact Nil|]. rewrite <- E in *.
  repeat match goal with
         | |- context [if ?c then _ else _] =>
           lazymatch c with
           | (HasPrefix _ _ || HasPrefix _ _) => fail
           | _ => destruct c
           end
         end; auto.
  destruct (S line (Index line (nth 3 (Fields line) []))) as [p Hp].
  destruct (S (slice_from line (Index line (nth 3 (Fields line) [])))
              (Index (slice_from line (Index line (nth 3 (Fields line) [])))
                     (str ": ") + 2)%Z) as [q Hq].
  exists (p ++ q). rewrite <- app_assoc, <- Hq. exact Hp.
Qed.

End JournalScanFacts.

(** ** The output of the cat format and the exit status names *)
Module SystemdFacts.
Import Strings Journal Constants Validation Trim Systemd SystemdSpec.

Lemma processSimpleOutput_deliver (maxOutputSize : Z)
      (output serviceName execCommand : gostring) :
  processSimpleOutput maxOutputSize output serviceName execCommand
  = deliver maxOutputSize
      (commandOutput (capture_lines serviceName execCommand (Split output nl)
                                    (mkCapture [] false false))).
Proof. reflexivity. Qed.

Lemma capture_line_cases (serviceName execCommand line : gostring)
      (st : capture) :
  let st' := capture_line serviceName execCommand st line in
  (snd (shouldSkipLine line serviceName) = true
   /\ st' = mkCapture [] true true)
  \/ (snd (shouldSkipLine line serviceName) = false
      /\ fst (shouldSkipLine line serviceName) = true
      /\ commandOutput st' = commandOutput st
      /\ serviceStartSeen st' = serviceStartSeen st
      /\ captureOutput st'
         = captureOutput st
           && negb (Contains line (str "Finished")
                    || Contains line (str "Failed")))
  \/ (plain serviceName line = true
      /\ serviceStartSeen st' = serviceStartSeen st
      /\ ((captureOutput st' = true
           /\ commandOutput st' = commandOutput st ++ [line]
           /\ (captureOutput st = true
               \/ (serviceStartSeen st = false
                   /\ nonempty execCommand = true)))
          \/ (st' = st /\ captureOutput st = false))).
Proof.
  unfold capture_line, plain.
  destruct (shouldSkipLine line serviceName) as [skip reset].
  cbn [fst snd]. destruct reset; [left; now split|].
  destruct skip.
  - right; left. repeat split.
    + now destruct (_ || _).
    + now destruct (_ || _).
    + destruct (_ || _); cbn; [now rewrite andb_false_r|now rewrite andb_true_r].
  - right; right. split; [reflexivity|].
    destruct (captureOutput st) eqn:C.
    + split; [reflexivity|]. left. cbn. auto.
    + destruct (negb (serviceStartSeen st)) eqn:N; cbn [andb].
      * destruct (nonempty execCommand) eqn:X; cbn [andb].
        -- destruct (Contains line execCommand).
           ++ split; [reflexivity|]. left. cbn. apply negb_true_iff in N. auto.
           ++ split; [reflexivity|]. right. auto.
        -- split; [reflexivity|]. right. auto.
      * split; [reflexivity|]. right. auto.
Qed.

(** X7: [processSimpleOutput] delivers lines of its input only, none of
    them a line [shouldSkipLine] drops or takes for a start marker:
    journal separators, the notifier's own log lines and systemd's
    lifecycle messages never reach the command output. *)
Theorem captured_lines_are_plain_lines (maxOutputSize : Z)
        (output serviceName execCommand : gostring) :
  exists kept,
    processSimpleOutput maxOutputSize output serviceName execCommand
    = deliver maxOutputSize kept
    /\ Forall (fun line => In line (Split output nl)
                           /\ plain serviceName line = true) kept.
Proof.
  rewrite processSimpleOutput_deliver. eexists. split; [reflexivity|].
  assert (G : forall lines st,
             Forall (fun line => In line (Split output nl)
                                 /\ plain serviceName line = true)
                    (commandOutput st) ->
             incl lines (Split output nl) ->
             Forall (fun line => In line (Split output nl)
                                 /\ plain serviceName line = true)
                    (commandOutput
                       (capture_lines serviceName execCommand lines st))).
  { induction lines as [|line lines IH]; intros st F I; [exact F|].
    unfold capture_lines. cbn [fold_left]. apply IH.
    2:{ intros x Hx. apply I. now right. }
    destruct (capture_line_cases serviceName execCommand line st)
      as [(_ & E)|[(_ & _ & E & _)|(P & _ & [(_ & E & _)|(E & _)])]];
      rewrite E; auto.
    apply Forall_app. split; [exact F|]. constructor; [|constructor].
    split; [apply I; now left|exact P]. }
  apply G; [constructor|apply incl_refl].
Qed.

(** X8: with no command name to look for, [processSimpleOutput] captures
    nothing until it meets a start marker: on an input without one it
    returns the empty string (and the caller falls back to its other
    source). *)
Theorem nothing_captured_without_start
        (maxOutputSize : Z) (output serviceName : gostring) :
  Forall (fun line => snd (shouldSkipLine line serviceName) = false)
         (Split output nl) ->
  processSimpleOutput maxOutputSize output serviceName [] = Some [].
Proof.
  rewrite processSimpleOutput_deliver. intro F.
  assert (G : forall lines st,
             Forall (fun line => snd (shouldSkipLine line serviceName) = false)
                    lines ->
             commandOutput st = [] -> captureOutput st = false ->
             commandOutput (capture_lines serviceName [] lines st) = []).
  { induction lines as [|line lines IH]; intros st Fl E C; [exact E|].
    inversion Fl as [|? ? Hl Fl']; subst.
    unfold capture_lines. cbn [fold_left]. apply IH; [exact Fl'| |].
    - destruct (capture_line_cases serviceName [] line st)
        as [(R & _)|[(_ & _ & E' & _)|(_ & _ & [(_ & _ & [C'|(_ & X)])|(E' & _)])]];
        try congruence; try discriminate.
    - destruct (capture_line_cases serviceName [] line st)
        as [(R & _)|[(_ & _ & _ & _ & C')|(_ & _ & [(_ & _ & [C'|(_ & X)])|(E' & _)])]];
        try congruence; try discriminate.
      rewrite C', C. reflexivity. }
  rewrite G; auto.
Qed.

Lemma nothing_captured_without_start_witness :
  processSimpleOutput 2500 (str "hello" ++ nl ++ str "world")
                      (str "x.service") []
  = Some [].
Proof.
  apply nothing_captured_without_start.
  change (Split (str "hello" ++ nl ++ str "world") nl)
    with [str "hello"; str "world"].
  repeat (constructor; [vm_compute; reflexivity|]). constructor.
Defined.

Lemma capture_plain_run (serviceName execCommand : gostring)
      (body : list gostring) :
  Forall (fun line => plain serviceName line = true) body ->
  forall out seen,
    capture_lines serviceName execCommand body (mkCapture out true seen)
    = mkCapture (out ++ body) true seen.
Proof.
  induction 1 as [|line body P F IH]; intros out seen.
  - cbn. now rewrite app_nil_r.
  - unfold capture_lines in *. cbn [fold_left].
    replace (capture_line serviceName execCommand (mkCapture out true seen) line)
      with (mkCapture (out ++ [line]) true seen).
    + rewrite IH, <- app_assoc. reflexivity.
    + unfold capture_line. unfold plain in P.
      destruct (shouldSkipLine line serviceName) as [skip reset].
      cbn in P. destruct skip, reset; try discriminate. reflexivity.
Qed.

Lemma capture_after_completion (serviceName execCommand : gostring)
      (rest : list gostring) :
  Forall (fun line => snd (shouldSkipLine line serviceName) = false) rest ->
  forall out,
    capture_lines serviceName execCommand rest (mkCapture out false true)
    = mkCapture out false true.
Proof.
  induction 1 as [|line rest R F IH]; intro out; [reflexivity|].
  unfold capture_lines in *. cbn [fold_left].
  replace (capture_line serviceName execCommand (mkCapture out false true) line)
    with (mkCapture out false true); [apply IH|].
  unfold capture_line.
  destruct (shouldSkipLine line serviceName) as [skip reset].
  cbn in R. subst reset. destruct skip; [|reflexivity].
  now destruct (_ || _).
Qed.

(** X9: for one run of the service, from a start marker to a dropped line
    that carries Finished or Failed, [processSimpleOutput] delivers the
    lines in between, when each of them is a plain line and no start
    marker follows: what was logged before the start and after the
    completion is left out. *)
Theorem output_between_start_and_completion
        (maxOutputSize : Z) (output serviceName execCommand : gostring)
        (before body rest : list gostring) (start finish : gostring) :
  Split output nl = before ++ start :: body ++ finish :: rest ->
  snd (shouldSkipLine start serviceName) = true ->
  Forall (fun line => plain serviceName line = true) body ->
  completion serviceName finish = true ->
  Forall (fun line => snd (shouldSkipLine line serviceName) = false) rest ->
  processSimpleOutput maxOutputSize output serviceName execCommand
  = deliver maxOutputSize body.
Proof.
  intros Hs Hstart Hbody Hfin Hrest.
  rewrite processSimpleOutput_deliver, Hs. f_equal.
  unfold capture_lines. rewrite fold_left_app. cbn [fold_left].
  replace (capture_line serviceName execCommand _ start)
    with (mkCapture [] true true).
  2:{ unfold capture_line.
      destruct (shouldSkipLine start serviceName) as [skip reset].
      cbn in Hstart. now subst reset. }
  rewrite fold_left_app.
  fold (capture_lines serviceName execCommand body (mkCapture [] true true)).
  rewrite capture_plain_run by assumption. cbn [app fold_left].
  replace (capture_line serviceName execCommand (mkCapture body true true) finish)
    with (mkCapture body false true).
  2:{ unfold capture_line. unfold completion in Hfin.
      destruct (shouldSkipLine finish serviceName) as [skip reset].
      cbn [fst snd] in Hfin.
      apply andb_true_iff in Hfin as [Hfin H3].
      apply andb_true_iff in Hfin as [H1 H2].
      apply negb_true_iff in H2. subst skip reset. now rewrite H3. }
  fold (capture_lines serviceName execCommand rest (mkCapture body false true)).
  now rewrite capture_after_completion.
Qed.

Lemma output_between_start_and_completion_witness :
  processSimpleOutput 2500 cat_example (str "x.service") []
  = Some (str "hello" ++ nl ++ str "world").
Proof.
  rewrite (@output_between_start_and_completion 2500 cat_example
             (str "x.service") [] []
             [str "hello"; str "world"] [str "late line"]
             (str "Starting x.service...") (str "Finished x.service.")).
  - reflexivity.
  - reflexivity.
  - reflexivity.
  - repeat constructor.
  - reflexivity.
  - repeat constructor.
Defined.

(** X10: [GetExitStatusString] always begins with the decimal digits of the
    code it was given; what follows is empty or a slash and a name. *)
Theorem exit_status_starts_with_code (code : Z) :
  exists name,
    GetExitStatusString code = Itoa code ++ name
    /\ (name = [] \/ HasPrefix name (str "/") = true).
Proof.
  unfold GetExitStatusString.
  destruct (find _ interpretations) as [entry|] eqn:E.
  - apply find_some in E as [Hin Hc]. apply Z.eqb_eq in Hc. subst code.
    exists (skipn (length (Itoa (fst entry))) (str (snd entry))).
    assert (A : forallb (fun e =>
                  gostring_eqb (firstn (length (Itoa (fst e))) (str (snd e)))
                               (Itoa (fst e))
                  && HasPrefix (skipn (length (Itoa (fst e))) (str (snd e)))
                               (str "/")) interpretations = true)
      by (vm_compute; reflexivity).
    rewrite forallb_forall in A. apply A in Hin.
    apply andb_true_iff in Hin as [H1 H2]. apply gostring_eqb_eq in H1.
    split; [|now right].
    transitivity (firstn (length (Itoa (fst entry))) (str (snd entry))
                  ++ skipn (length (Itoa (fst entry))) (str (snd entry)));
      [symmetry; apply firstn_skipn|now rewrite H1].
  - exists []. rewrite app_nil_r. auto.
Qed.

End SystemdFacts.

(** ** The formatted message *)
Module NotifierFacts.
Import Utf8 Strings Constants Validation Trim Notifier NotifierSpec TruncateFacts.

Lemma render_header (data : NotificationData) (message : gostring) :
  render (status_text (IsSuccess data)) (Hostname data) (DateTime data)
         (Itoa (ProcessExitCode data)) (ServiceName data) (ServiceDesc data)
         message
  = header data ++ message.
Proof.
  unfold header, render. rewrite app_nil_r.
  repeat rewrite <- app_assoc. reflexivity.
Qed.

Lemma len_app (a b : gostring) : len (a ++ b) = (len a + len b)%Z.
Proof. unfold len. rewrite length_app. lia. Qed.

(** The function in terms of the header. *)
Lemma formatAndValidateMessage_eq (data : NotificationData) :
  formatAndValidateMessage data
  = if (formatted_limit <? len (header data) + len (Message data))%Z
    then if (0 <? formatted_limit - len (header data))%Z
         then option_map (app (header data))
                (TruncateMessage (Message data)
                                 (formatted_limit - len (header data)))
         else Some (header data ++ Message data)
    else Some (header data ++ Message data).
Proof.
  unfold formatAndValidateMessage. rewrite !render_header, len_app.
  fold formatted_limit.
  replace (len (header data) + len (Message data) - len (Message data))%Z
    with (len (header data)) by lia.
  destruct (_ <? _)%Z; [|reflexivity].
  destruct (_ <? _)%Z; [|reflexivity].
  destruct (TruncateMessage _ _); [|reflexivity].
  cbn [option_map]. now rewrite render_header.
Qed.

(** X11: [formatAndValidateMessage] never fails and never cuts the header:
    its result is the header followed by a body, and the body is the
    message text itself when the whole message fits the limit, and also
    when the header alone already reaches the limit (then nothing is
    shortened at all). *)
Theorem header_is_never_cut (data : NotificationData) :
  exists body,
    formatAndValidateMessage data = Some (header data ++ body)
    /\ ((len (header data) + len (Message data) <= formatted_limit)%Z
        \/ (formatted_limit <= len (header data))%Z ->
        body = Message data).
Proof.
  rewrite formatAndValidateMessage_eq.
  destruct (Z.ltb_spec formatted_limit (len (header data) + len (Message data)))
    as [Hbig|Hfit].
  - destruct (Z.ltb_spec 0 (formatted_limit - len (header data))) as [Hpos|Hneg].
    + unfold TruncateMessage.
      destruct (Z.leb_spec (len (Message data))
                           (formatted_limit - len (header data))); [lia|].
      destruct (_ <=? 0)%Z.
      * destruct (Z.ltb_spec (formatted_limit - len (header data)) 0); [lia|].
        eexists. split; [reflexivity|]. lia.
      * eexists. split; [reflexivity|]. lia.
    + eexists. split; [reflexivity|]. auto.
  - eexists. split; [reflexivity|]. auto.
Qed.

(** X12: when the header is shorter than the limit of 3596 bytes and the
    tail that truncation keeps is valid UTF-8, the formatted message has at
    most 3596 bytes, and [ValidateMessageSize] accepts it. *)
Theorem formatted_message_fits (data : NotificationData) (out : gostring) :
  (len (header data) < formatted_limit)%Z ->
  kept_tail_valid (Message data) (formatted_limit - len (header data)) ->
  formatAndValidateMessage data = Some out ->
  (len out <= formatted_limit)%Z /\ ValidateMessageSize out = None.
Proof.
  intros Hh Hv. rewrite formatAndValidateMessage_eq. intro H.
  assert (L : (len out <= formatted_limit)%Z).
  { destruct (Z.ltb_spec formatted_limit
                         (len (header data) + len (Message data)))
      as [Hbig|Hfit].
    - destruct (Z.ltb_spec 0 (formatted_limit - len (header data))); [|lia].
      destruct (TruncateMessage _ _) as [t|] eqn:E; [|discriminate].
      cbn [option_map] in H.
      assert (Eo : out = header data ++ t) by congruence.
      apply TruncateMessage_within_limit in E; [|lia|exact Hv].
      rewrite Eo, len_app. lia.
    - assert (Eo : out = header data ++ Message data) by congruence.
      rewrite Eo, len_app. lia. }
  split; [exact L|].
  unfold ValidateMessageSize.
  destruct (Z.ltb_spec TelegramMaxMessageSize (len out)); [|reflexivity].
  unfold formatted_limit, TelegramMaxMessageSize, MessageSafetyMargin in *. lia.
Qed.

Lemma formatted_message_fits_witness :
  exists out,
    formatAndValidateMessage (sample_data (repeat "a"%char 5000)) = Some out
    /\ (len out <= formatted_limit)%Z /\ ValidateMessageSize out = None.
Proof.
  destruct (formatAndValidateMessage (sample_data (repeat "a"%char 5000)))
    as [out|] eqn:E; [|vm_compute in E; discriminate].
  exists out. split; [reflexivity|].
  apply (@formatted_message_fits (sample_data (repeat "a"%char 5000)) out).
  - vm_compute. reflexivity.
  - intros _. vm_compute. reflexivity.
  - exact E.
Defined.

End NotifierFacts.

(** ** Completeness of the matcher *)
Module CompletenessFacts.
Import Utf8Spec RegexpSpec.
Import Utf8 Regexp Utf8Facts RegexpFacts.

(** [run] finds an answer whenever some match leads to one. *)
Lemma run_complete (A : Type) (r : regex) :
  forall bot s bot' s' (k : bool -> gostring -> option A),
    matches r bot s bot' s' ->
    k bot' s' <> None ->
    run r bot s k <> None.
Proof.
  induction r as [|fold neg ranges|a IHa b IHb|a IHa b IHb|a IHa| |];
    intros bot s bot' s' k Hm Hk.
  - inversion Hm; subst. exact Hk.
  - inversion Hm as [|? ? ? ? ? c w Hs D M| | | | | | |]; subst.
    cbn [run]. destruct s as [|b0 s1]; [congruence|].
    rewrite D, M. exact Hk.
  - inversion Hm as [| |? ? ? ? bot1 s1 ? ? Ha Hb| | | | | |]; subst.
    cbn [run]. eapply IHa; [exact Ha|]. eapply IHb; eauto.
  - cbn [run].
    inversion Hm as [| | |? ? ? ? ? ? Ha|? ? ? ? ? ? Hb| | | |]; subst.
    + pose proof (IHa _ _ _ _ k Ha Hk) as N.
      destruct (run a bot s k); congruence.
    + destruct (run a bot s k); [discriminate|]. eapply IHb; eauto.
  - cbn [run].
    assert (G : forall n bot s,
               length s <= n ->
               matches (Star a) bot s bot' s' ->
               (fix loop (n : nat) (bot : bool) (s : gostring) {struct n}
                  : option A :=
                  match n with
                  | O => k bot s
                  | S n' =>
                    match run a bot s
                              (fun bot' s' =>
                                 if length s' <? length s then loop n' bot' s'
                                 else None) with
                    | Some x => Some x
                    | None => k bot s
                    end
                  end) n bot s <> None).
    { clear bot s Hm. induction n as [|n IHn]; intros bot s Hn Hm.
      - inversion Hm as [| | | | |? ? ?|? ? ? ? ? ? ? Ha L Hs| |]; subst.
        + exact Hk.
        + lia.
      - inversion Hm as [| | | | |? ? ?|? ? ? bot1 s1 ? ? Ha L Hs| |]; subst.
        + destruct (run a bot' s' _); [discriminate|exact Hk].
        + match goal with
          | |- match ?x with _ => _ end <> None =>
            assert (N : x <> None)
          end.
          { eapply IHa; [exact Ha|].
            apply Nat.ltb_lt in L as L'. rewrite L'.
            apply IHn; [lia|exact Hs]. }
          destruct (run a bot s _); [discriminate|congruence]. }
    apply G; [lia|exact Hm].
  - inversion Hm; subst. exact Hk.
  - inversion Hm; subst. exact Hk.
Qed.

(** A match at the start of the text is found by [MatchString]. *)
Lemma MatchString_intro (r : regex) (s : gostring) (bot' : bool)
      (rest : gostring) :
  matches r true s bot' rest -> MatchString r s = true.
Proof.
  intro Hm. unfold MatchString, doExecute. cbn [skipn].
  assert (N : match_here r true s <> None).
  { unfold match_here. eapply run_complete; [exact Hm|discriminate]. }
  destruct (length s); cbn [search Nat.eqb];
    destruct (match_here r true s); congruence.
Qed.

(** A class matches one ASCII byte it has as a member. *)
Lemma class_byte (fold neg : bool) (ranges : list (N * N)) (bot : bool)
      (b : ascii) (t : gostring) :
  is_ascii b = true ->
  member fold neg ranges (N_of_ascii b) = true ->
  matches (Class fold neg ranges) bot (b :: t) false t.
Proof.
  intros Hb Hm.
  change t with (skipn 1 (b :: t)) at 2.
  eapply m_class; [discriminate|now apply DecodeRune_of_ascii|exact Hm].
Qed.

(** The star of a class takes any run of bytes of the class. *)
Lemma star_bytes (fold neg : bool) (ranges : list (N * N)) (m t : gostring) :
  Forall (fun b => is_ascii b = true
                   /\ member fold neg ranges (N_of_ascii b) = true) m ->
  forall bot, exists bot',
      matches (Star (Class fold neg ranges)) bot (m ++ t) bot' t.
Proof.
  induction 1 as [|b m [Hb Hm] F IH]; intro bot.
  - exists bot. apply m_star_stop.
  - destruct (IH false) as [bot' Hs]. exists bot'.
    apply m_star_more with (bot1 := false) (s1 := m ++ t);
      [apply class_byte; assumption| |exact Hs].
    cbn [app length]. lia.
Qed.

(** What a literal matches is the literal. *)
Lemma chr_matches (c : ascii) (bot : bool) (s : gostring) (bot' : bool)
      (s' : gostring) :
  is_ascii c = true ->
  matches (chr false c) bot s bot' s' -> s = c :: s'.
Proof.
  intros Hc Hm. unfold chr in Hm.
  inversion Hm as [|? ? ? ? ? r w Hs D M| | | | | | |]; subst.
  destruct s as [|b0 s1]; [congruence|].
  unfold member in M. cbn [xorb existsb in_ranges] in M.
  rewrite !orb_false_r in M. unfold in_range in M.
  apply andb_true_iff in M as [M1 M2].
  apply N.leb_le in M1, M2.
  assert (E : r = N_of_ascii c) by lia. subst r.
  unfold is_ascii, RuneSelf in Hc. apply N.ltb_lt in Hc.
  destruct (@DecodeRune_ascii _ _ _ _ D Hc) as [-> E].
  cbn [skipn]. f_equal.
  rewrite <- (ascii_N_embedding b0), <- (ascii_N_embedding c). now f_equal.
Qed.

Lemma literal_matches (l : gostring) :
  forallb is_ascii l = true ->
  forall bot s bot' s',
    matches (Seq (map (chr false) l)) bot s bot' s' -> s = l ++ s'.
Proof.
  induction l as [|c l IH]; intros Hl bot s bot' s' Hm.
  - cbn in Hm. inversion Hm; subst. reflexivity.
  - cbn [forallb] in Hl. apply andb_true_iff in Hl as [Hc Hl].
    destruct l as [|d l].
    + cbn in Hm. apply chr_matches in Hm; assumption.
    + cbn [map Seq] in Hm.
      inversion Hm as [| |? ? ? ? bot1 s1 ? ? Ha Hb| | | | | |]; subst.
      apply chr_matches in Ha; [|assumption]. subst s.
      apply (IH Hl) in Hb. subst s1. reflexivity.
Qed.

Lemma literal_intro (l : gostring) :
  forallb is_ascii l = true -> l <> [] ->
  forall bot t, matches (Seq (map (chr false) l)) bot (l ++ t) false t.
Proof.
  assert (M : forall c, member false false [(N_of_ascii c, N_of_ascii c)]
                               (N_of_ascii c) = true).
  { intro c. unfold member, in_ranges, in_range. cbn.
    now rewrite N.leb_refl. }
  induction l as [|c l IH]; intros Hl Hne bot t; [congruence|].
  cbn [forallb] in Hl. apply andb_true_iff in Hl as [Hc Hl].
  destruct l as [|d l].
  - cbn. apply class_byte; [assumption|apply M].
  - cbn [map Seq app]. eapply m_cat.
    + apply class_byte; [assumption|apply M].
    + apply IH; [assumption|discriminate].
Qed.

End CompletenessFacts.

(** ** The shape of a service name *)
Module NameShapeFacts.
Import Utf8Spec RegexpSpec ServiceNameSpec NameShapeSpec.
Import Utf8 Strings Regexp Constants Validation Utf8Facts RegexpFacts
       SearchFacts ServiceNameFacts CompletenessFacts.

Lemma service_class_member (c : rune) :
  member false false service_class c = allowed c.
Proof.
  unfold member, allowed. cbn [xorb existsb]. now rewrite orb_false_r.
Qed.

(** The pattern matches exactly the names of the shape [body.service]. *)
Lemma pattern_matches_shape (name : gostring) :
  MatchString ServiceNamePattern name = true
  <-> exists body,
      name = body ++ str ".service" /\ body <> []
      /\ Forall (fun b => allowed (N_of_ascii b) = true) body.
Proof.
  split.
  - unfold MatchString, doExecute. cbn [skipn].
    destruct (search _ _ _ _) as [[a0 a1]|] eqn:E; [intros _|discriminate].
    apply search_sound in E as (n & bot' & rest & -> & _ & _ & Hm & _).
    pose proof (matches_begins_text (r:=ServiceNamePattern) eq_refl Hm) as Hb.
    apply Nat.eqb_eq in Hb. cbn [Nat.add] in Hb. subst n. cbn [skipn] in Hm.
    cbn [Nat.add Nat.eqb] in Hm.
    unfold ServiceNamePattern in Hm. cbn [Seq] in Hm.
    inversion Hm as [| |? ? ? ? bot1 s1 ? ? H1 H2| | | | | |]; subst.
    inversion H1; subst.
    inversion H2 as [| |? ? ? ? bot2 s2 ? ? H3 H4| | | | | |]; subst.
    inversion H4 as [| |? ? ? ? bot3 s3 ? ? H5 H6| | | | | |]; subst.
    inversion H6; subst.
    apply (@literal_matches (str ".service") eq_refl) in H5.
    assert (Hc : classes_within allowed
                                (Plus (Class false false service_class)))
      by exact (proj1 (proj2 pattern_classes)).
    destruct (@matches_content allowed _ _ _ _ _ allowed_ascii Hc H3)
      as (m & -> & F).
    apply matches_advance in H3 as (k & Hk & _ & _ & Hn).
    specialize (Hn eq_refl).
    exists m. subst s2. repeat split; [|exact F].
    intros ->. cbn [app] in Hk.
    apply (f_equal (@length ascii)) in Hk. rewrite length_skipn in Hk.
    change (length (str ".service" ++ [])) with 8 in Hk. lia.
  - intros (body & -> & Hne & F).
    destruct body as [|b body]; [congruence|].
    inversion F as [|? ? Hb F']; subst.
    assert (A : forall x, allowed (N_of_ascii x) = true ->
                          is_ascii x = true
                          /\ member false false service_class (N_of_ascii x)
                             = true).
    { intros x Hx. split; [|now rewrite service_class_member].
      apply allowed_ascii in Hx. unfold is_ascii, RuneSelf.
      now apply N.ltb_lt. }
    destruct (@star_bytes false false service_class body (str ".service"))
      with (bot := false) as [bot' Hs].
    { eapply Forall_impl; [|exact F']. intros x Hx. now apply A. }
    eapply MatchString_intro with (bot' := false) (rest := []).
    unfold ServiceNamePattern. cbn [Seq].
    eapply m_cat; [apply m_begin|].
    eapply m_cat.
    { unfold Plus. eapply m_cat; [|exact Hs].
      cbn [app]. apply class_byte; apply A; exact Hb. }
    eapply m_cat; [|apply m_end].
    rewrite <- (app_nil_r (str ".service")) at 1.
    apply (@literal_intro (str ".service")); [reflexivity|discriminate].
Qed.

(** X13: [ValidateServiceName] accepts exactly the names of at most 256
    bytes that are a body followed by [.service], the body not empty and
    made of ASCII letters, digits and the characters [: _ . @ -]. *)
Theorem ValidateServiceName_accepts_exactly (name : gostring) :
  ValidateServiceName name = None <-> well_formed name.
Proof.
  unfold well_formed. split.
  - unfold ValidateServiceName.
    destruct name as [|b name]; [discriminate|].
    destruct (256 <? len (b :: name))%Z eqn:E1; [discriminate|].
    destruct (existsb _ _); [discriminate|].
    destruct (existsb _ _); [discriminate|].
    destruct (find _ _); [discriminate|].
    destruct (MatchString _ _) eqn:M; [|discriminate].
    intros _. apply Z.ltb_ge in E1.
    apply pattern_matches_shape in M as (body & E & Hne & F).
    exists body. rewrite <- E. repeat split; auto.
  - intros (body & E & Hne & F & Hlen).
    assert (Hm : MatchString ServiceNamePattern name = true).
    { apply pattern_matches_shape. now exists body. }
    assert (Fn : Forall (fun b => allowed (N_of_ascii b) = true) name).
    { subst name. apply Forall_app. split; [exact F|].
      repeat constructor. }
    unfold ValidateServiceName.
    destruct name as [|b0 name0] eqn:En.
    { destruct body; discriminate. }
    rewrite <- En in *. clear En.
    apply Z.ltb_ge in Hlen. rewrite Hlen.
    rewrite (runes_ascii _ (allowed_bytes_ascii Fn)).
    rewrite Forall_forall in Fn.
    rewrite existsb_map_false.
    2:{ intros x Hx. apply Fn, allowed_spec in Hx.
        unfold Unicode.IsControl, in_range.
        rewrite !orb_false_iff, andb_false_iff, !N.eqb_neq, N.ltb_ge, !N.leb_gt.
        lia. }
    rewrite existsb_map_false.
    2:{ intros x Hx. apply Fn, allowed_spec in Hx. apply N.ltb_ge. lia. }
    assert (D : find (fun danger => ContainsRune name danger) dangerousChars
                = None).
    { apply find_none_intro. intros danger Hd. unfold ContainsRune.
      rewrite (runes_ascii _ (allowed_bytes_ascii (proj2 (Forall_forall _ _) Fn))).
      apply existsb_map_false. intros x Hx.
      apply Fn, allowed_spec in Hx. apply N.eqb_neq.
      unfold dangerousChars in Hd. cbn [In] in Hd. lia. }
    rewrite D, Hm. reflexivity.
Qed.

End NameShapeFacts.

(** ** Bounds of truncation *)
Module TruncateBoundFacts.
Import Utf8Spec TruncateSpec.
Import Utf8 Strings Constants Validation Utf8Facts TruncateFacts.

(** X14: [TruncateMessage] panics exactly when the limit is negative (the
    slice [msg[:maxSize]]); for every other limit it returns a string. *)
Theorem TruncateMessage_panics_iff_negative (msg : gostring) (maxSize : Z) :
  TruncateMessage msg maxSize = None <-> (maxSize < 0)%Z.
Proof.
  unfold TruncateMessage.
  assert (L : (0 <= len msg)%Z) by (unfold len; lia).
  assert (M : len OutputTruncatedMsg = 23%Z) by reflexivity.
  split.
  - destruct (len msg <=? maxSize)%Z; [discriminate|].
    destruct (maxSize - len OutputTruncatedMsg <=? 0)%Z; [|discriminate].
    destruct (Z.ltb_spec maxSize 0); [auto|discriminate].
  - intro H.
    destruct (Z.leb_spec (len msg) maxSize); [lia|].
    destruct (Z.leb_spec (maxSize - len OutputTruncatedMsg) 0); [|lia].
    destruct (Z.ltb_spec maxSize 0); [reflexivity|lia].
Qed.

(** The repair at most triples the length. *)
Lemma to_valid_fuel_length (replacement : gostring) (fuel : nat) :
  length replacement <= 3 ->
  forall s invalid,
    length (to_valid_fuel fuel invalid replacement s) <= 3 * length s.
Proof.
  intro R. induction fuel as [|fuel IH]; intros s invalid; [cbn; lia|].
  destruct s as [|c s']; [cbn; lia|].
  cbn [to_valid_fuel].
  destruct (N_of_ascii c <? RuneSelf)%N.
  - cbn [length]. specialize (IH s' false). lia.
  - destruct (DecodeRune (c :: s')) as [r wid].
    destruct (Nat.eqb wid 1).
    + rewrite length_app. specialize (IH s' true).
      destruct invalid; cbn [length]; lia.
    + rewrite length_app, length_firstn.
      specialize (IH (skipn wid (c :: s')) false).
      rewrite length_skipn in IH. lia.
Qed.

(** X15: the result of [TruncateMessage] has at most
    [max (maxSize, 3 * maxSize - 46)] bytes: the marker is kept as it is and
    the repair of the tail at most triples it. *)
Theorem TruncateMessage_growth_bound (msg out : gostring) (maxSize : Z) :
  TruncateMessage msg maxSize = Some out ->
  (len out <= Z.max maxSize (3 * maxSize - 2 * len OutputTruncatedMsg))%Z.
Proof.
  unfold TruncateMessage.
  destruct (Z.leb_spec (len msg) maxSize) as [Hfit|Hover].
  { intro H. injection H as <-. lia. }
  destruct (Z.leb_spec (maxSize - len OutputTruncatedMsg) 0) as [Hs|Hb].
  - destruct (Z.ltb_spec maxSize 0) as [Hneg|Hpos]; [discriminate|].
    intro Ht. injection Ht as <-.
    unfold slice_to, len. rewrite length_firstn. lia.
  - rewrite ToValidUTF8_ascii_prefix by (apply marker_ascii || discriminate).
    intro H.
    match type of H with
    | Some ?x = Some _ => assert (E : x = out) by congruence
    end.
    rewrite <- E. clear H E.
    unfold ToValidUTF8.
    pose proof (@to_valid_fuel_length replacement_char
                  (length (slice_from msg
                             (len msg - (maxSize - len OutputTruncatedMsg))))
                  (le_n 3)
                  (slice_from msg (len msg - (maxSize - len OutputTruncatedMsg)))
                  false) as B.
    unfold len, slice_from in *. rewrite length_app.
    rewrite length_skipn in B at 2. lia.
Qed.

Lemma TruncateMessage_growth_bound_witness :
  (len (OutputTruncatedMsg ++ replacement_char)
   <= Z.max 24 (3 * 24 - 2 * len OutputTruncatedMsg))%Z.
Proof.
  apply (@TruncateMessage_growth_bound cut_text). reflexivity.
Defined.

(** *** The repaired tail is valid UTF-8 *)

(** A rune of more than one byte is decoded from its own bytes: what
    follows them does not matter. *)
Lemma DecodeRune_own_bytes (s : gostring) (r : rune) (w : nat) :
  DecodeRune s = (r, w) -> w <> 1 -> s <> [] ->
  forall t, DecodeRune (firstn w s ++ t) = (r, w).
Proof.
  intros D W Hs t.
  destruct s as [|b0 s1]; [congruence|].
  unfold DecodeRune in D.
  destruct (N_of_ascii b0 <? RuneSelf)%N eqn:E0.
  { injection D as <- <-. congruence. }
  destruct (in_range 194 223 (N_of_ascii b0)) eqn:E1.
  { destruct s1 as [|b1 s2]; [injection D as <- <-; congruence|].
    destruct (cont b1) eqn:C1; [|injection D as <- <-; congruence].
    injection D as <- <-. cbn [firstn app DecodeRune].
    now rewrite E0, E1, C1. }
  destruct (in_range 224 239 (N_of_ascii b0)) eqn:E2.
  { destruct s1 as [|b1 [|b2 s3]]; try (injection D as <- <-; congruence).
    destruct (second _ _ b1) eqn:C1; [|injection D as <- <-; congruence].
    destruct (cont b2) eqn:C2; [|injection D as <- <-; congruence].
    injection D as <- <-. cbn [firstn app DecodeRune].
    now rewrite E0, E1, E2, C1, C2. }
  destruct (in_range 240 244 (N_of_ascii b0)) eqn:E3.
  { destruct s1 as [|b1 [|b2 [|b3 s4]]]; try (injection D as <- <-; congruence).
    destruct (second _ _ b1) eqn:C1; [|injection D as <- <-; congruence].
    destruct (cont b2) eqn:C2; [|injection D as <- <-; congruence].
    destruct (cont b3) eqn:C3; [|injection D as <- <-; congruence].
    injection D as <- <-. cbn [firstn app DecodeRune].
    now rewrite E0, E1, E2, E3, C1, C2, C3. }
  injection D as <- <-. congruence.
Qed.

Lemma valid_fuel_nil (fuel : nat) : valid_fuel fuel [] = true.
Proof. now destruct fuel. Qed.

Lemma to_valid_fuel_is_valid (fuel : nat) :
  forall s invalid vfuel,
    length (to_valid_fuel fuel invalid replacement_char s) <= vfuel ->
    valid_fuel vfuel (to_valid_fuel fuel invalid replacement_char s) = true.
Proof.
  induction fuel as [|fuel IH]; intros s invalid vfuel Hv;
    [apply valid_fuel_nil|].
  destruct s as [|c s']; [apply valid_fuel_nil|].
  cbn [to_valid_fuel] in *.
  destruct (N_of_ascii c <? RuneSelf)%N eqn:E0.
  - cbn [length] in Hv. destruct vfuel as [|vfuel]; [lia|].
    cbn [valid_fuel]. destruct (DecodeRune _) as [r w]. rewrite E0.
    cbn [skipn]. apply IH. lia.
  - destruct (DecodeRune (c :: s')) as [r wid] eqn:D.
    destruct (Nat.eqb wid 1) eqn:W1.
    + destruct invalid; [cbn [app] in *; now apply IH|].
      unfold replacement_char in *. cbn [app length] in *.
      destruct vfuel as [|vfuel]; [lia|].
      cbn [valid_fuel]. cbn [DecodeRune]. cbn.
      apply IH. lia.
    + apply Nat.eqb_neq in W1.
      assert (Hne : c :: s' <> []) by discriminate.
      pose proof (DecodeRune_width Hne) as [[Wlo _] Whi].
      rewrite D in Wlo, Whi. cbn [snd] in Wlo, Whi.
      rewrite length_app, length_firstn in Hv.
      pose proof (@DecodeRune_own_bytes _ _ _ D W1 Hne
                    (to_valid_fuel fuel false replacement_char
                                   (skipn wid (c :: s')))) as D'.
      destruct wid as [|wid]; [lia|].
      destruct vfuel as [|vfuel]; [cbn [length] in *; lia|].
      remember (to_valid_fuel fuel false replacement_char
                              (skipn (S wid) (c :: s'))) as rest.
      cbn [firstn app] in *.
      cbn [valid_fuel]. rewrite D', E0.
      apply Nat.eqb_neq in W1. rewrite W1.
      change (c :: firstn wid s' ++ rest)
        with ((c :: firstn wid s') ++ rest).
      replace (S wid) with (length (c :: firstn wid s')) at 1.
      2:{ cbn [length]. rewrite length_firstn. cbn [length] in Whi. lia. }
      rewrite skipn_app, Nat.sub_diag, skipn_all. cbn [app skipn].
      subst rest. apply IH. cbn [length] in *. lia.
Qed.

(** X16: when the text is cut and the marker put in front (the limit
    exceeds the 23 bytes of the marker), the result is valid UTF-8,
    whatever bytes the text holds. *)
Theorem TruncateMessage_tail_is_valid_text (msg out : gostring) (maxSize : Z) :
  (len OutputTruncatedMsg < maxSize < len msg)%Z ->
  TruncateMessage msg maxSize = Some out ->
  ValidString out = true.
Proof.
  intros [H1 H2]. unfold TruncateMessage.
  destruct (Z.leb_spec (len msg) maxSize) as [Ha|Ha]; [lia|].
  destruct (Z.leb_spec (maxSize - len OutputTruncatedMsg) 0) as [Hb|Hb]; [lia|].
  intro Ht.
  match type of Ht with
  | Some ?x = Some _ => assert (E : x = out) by congruence
  end.
  rewrite <- E. unfold ValidString, ToValidUTF8.
  apply to_valid_fuel_is_valid. lia.
Qed.

Lemma TruncateMessage_tail_is_valid_text_witness :
  ValidString (OutputTruncatedMsg ++ replacement_char) = true.
Proof.
  apply (@TruncateMessage_tail_is_valid_text cut_text _ 24).
  - vm_compute. split; reflexivity.
  - reflexivity.
Defined.

End TruncateBoundFacts.

(** ** The retry loop *)
Module RetryFacts.
Import DeliverySpec RetrySpec.
Import Constants Validation RateLimit Telegram.

Lemma sendRequest_reply (e : env) (attempt : nat) :
  request_created e = true ->
  sendRequest e attempt = (reply_error (transport e attempt), [EvDo attempt]).
Proof.
  intro H. unfold sendRequest, reply_error. rewrite H.
  destruct (transport e attempt) as [cause done|code d]; [reflexivity|].
  now destruct (negb (code =? 200)%Z).
Qed.

Lemma sendRequest_calls (e : env) (attempt : nat) :
  network_calls (snd (sendRequest e attempt)) <= 1
  /\ backoffs (snd (sendRequest e attempt)) = 0.
Proof.
  unfold sendRequest. destruct (request_created e); [|cbn; lia].
  destruct (transport e attempt) as [cause done|code d]; [cbn; lia|].
  destruct (negb (code =? 200)%Z); cbn; lia.
Qed.

Lemma network_calls_app (a b : list event) :
  network_calls (a ++ b) = network_calls a + network_calls b.
Proof. unfold network_calls. now rewrite filter_app, length_app. Qed.

Lemma backoffs_app (a b : list event) :
  backoffs (a ++ b) = backoffs a + backoffs b.
Proof. unfold backoffs. now rewrite filter_app, length_app. Qed.

(** The loop makes at most one request per turn, and waits before every
    turn but the one of attempt 0. *)
Lemma retry_loop_effort (e : env) (remaining : nat) :
  forall attempt lastErr,
    network_calls (snd (retry_loop remaining attempt e lastErr)) <= remaining
    /\ backoffs (snd (retry_loop remaining attempt e lastErr))
       <= (if 0 <? attempt then remaining else remaining - 1).
Proof.
  induction remaining as [|remaining IH]; intros attempt lastErr.
  - cbn [retry_loop snd]. change (network_calls []) with 0.
    change (backoffs []) with 0. destruct (0 <? attempt); cbn; lia.
  - cbn [retry_loop].
    assert (P : network_calls
                  (if 0 <? attempt then [EvBackoff (calculateBackoff attempt)]
                   else []) = 0
                /\ backoffs
                     (if 0 <? attempt then [EvBackoff (calculateBackoff attempt)]
                      else []) = (if 0 <? attempt then 1 else 0)).
    { destruct (0 <? attempt); split; reflexivity. }
    destruct P as [P1 P2].
    destruct ((0 <? attempt) && backoff_cancelled e attempt).
    { cbn [snd]. rewrite P1, P2. destruct (0 <? attempt); lia. }
    pose proof (sendRequest_calls e attempt) as [S1 S2].
    destruct (sendRequest e attempt) as [err evs]. cbn [snd] in S1, S2.
    destruct err as [er|].
    + destruct (isClientError er).
      * cbn [snd]. rewrite network_calls_app, backoffs_app, P1, P2, S2.
        destruct (0 <? attempt); lia.
      * specialize (IH (S attempt) (Some er)).
        destruct (retry_loop remaining (S attempt) e (Some er)) as [r evs'].
        cbn [snd] in *. change (0 <? S attempt) with true in IH.
        rewrite !network_calls_app, !backoffs_app, P1, P2, S2.
        destruct (0 <? attempt); lia.
    + cbn [snd]. rewrite network_calls_app, backoffs_app, P1, P2, S2.
      destruct (0 <? attempt); lia.
Qed.

(** X17: one call of [SendNotification] makes at most four requests
    ([MaxHTTPRetries + 1]) and waits at most three backoff delays, whatever
    the transport answers. *)
Theorem at_most_four_requests
        (e : env) (rateLimiter tb : TokenBucket) (message : gostring)
        (result : option error) (events : list event) :
  SendNotification e rateLimiter message = Some (result, events, tb) ->
  network_calls events <= MaxHTTPRetries + 1
  /\ backoffs events <= MaxHTTPRetries.
Proof.
  unfold SendNotification.
  destruct (ctx_done_on_entry e).
  { intro H. injection H as <- <- <-. cbn. lia. }
  destruct (ValidateMessageSize message).
  { intro H. injection H as <- <- <-. cbn. lia. }
  destruct (Wait _ _ _) as [[[werr|] tb1]|]; [| |discriminate].
  { intro H. injection H as <- <- <-. cbn. lia. }
  pose proof (retry_loop_effort e (MaxHTTPRetries + 1) 0 None) as [N B].
  destruct (retry_loop (MaxHTTPRetries + 1) 0 e None) as [r evs].
  cbn [snd] in N, B. intro H. injection H as <- <- <-.
  change (EvWait :: evs) with ([EvWait] ++ evs).
  rewrite network_calls_app, backoffs_app.
  change (network_calls [EvWait]) with 0. change (backoffs [EvWait]) with 0.
  change (0 <? 0) with false in B. unfold MaxHTTPRetries in *. cbn in B. lia.
Qed.

Lemma at_most_four_requests_witness :
  network_calls [EvWait; EvDo 0; EvBackoff (1 * Second); EvDo 1]
  <= MaxHTTPRetries + 1
  /\ backoffs [EvWait; EvDo 0; EvBackoff (1 * Second); EvDo 1]
     <= MaxHTTPRetries.
Proof.
  apply (@at_most_four_requests (flaky_env 1) fresh_limiter
           (snd (tryTake 0 fresh_limiter)) (str "backup failed") None).
  vm_compute. reflexivity.
Defined.

Lemma backoff_delays :
  calculateBackoff 1 = (1 * Second)%Z
  /\ calculateBackoff 2 = (2 * Second)%Z
  /\ calculateBackoff 3 = (4 * Second)%Z.
Proof. repeat split; vm_compute; reflexivity. Qed.

Lemma retryable_reply (t : transport_result) :
  retryable t = true ->
  exists er, reply_error t = Some er /\ isClientError er = false.
Proof.
  unfold retryable. destruct (reply_error t) as [er|]; [|discriminate].
  intro H. exists er. split; [reflexivity|]. now apply negb_true_iff.
Qed.

(** X18: when all four requests fail with a retryable error and no backoff
    is cancelled, [SendNotification] makes the requests 0 to 3 with the
    delays 1s, 2s and 4s in between and returns the error that wraps the
    last failure. *)
Theorem gives_up_after_four_failures
        (e : env) (rateLimiter tb : TokenBucket) (message : gostring) :
  reaches_transport e rateLimiter tb message ->
  request_created e = true ->
  (forall k, k <= MaxHTTPRetries -> retryable (transport e k) = true) ->
  (forall k, 1 <= k <= MaxHTTPRetries -> backoff_cancelled e k = false) ->
  SendNotification e rateLimiter message
  = Some (Some (FailedAfterRetries MaxHTTPRetries
                                   (reply_error (transport e MaxHTTPRetries))),
          [EvWait; EvDo 0; EvBackoff (1 * Second); EvDo 1;
           EvBackoff (2 * Second); EvDo 2; EvBackoff (4 * Second); EvDo 3],
          tb).
Proof.
  intros (Hctx & Hsize & Hwait) Hreq Hfail Hb.
  unfold SendNotification. rewrite Hctx, Hsize, Hwait.
  unfold MaxHTTPRetries in *.
  destruct (@retryable_reply _ (Hfail 0 ltac:(lia))) as (e0 & R0 & C0).
  destruct (@retryable_reply _ (Hfail 1 ltac:(lia))) as (e1 & R1 & C1).
  destruct (@retryable_reply _ (Hfail 2 ltac:(lia))) as (e2 & R2 & C2).
  destruct (@retryable_reply _ (Hfail 3 ltac:(lia))) as (e3 & R3 & C3).
  destruct backoff_delays as (D1 & D2 & D3).
  cbn [Nat.add retry_loop Nat.ltb Nat.leb andb].
  rewrite !sendRequest_reply by assumption.
  rewrite R0, C0, R1, C1, R2, C2, R3, C3.
  rewrite (Hb 1), (Hb 2), (Hb 3) by lia.
  rewrite D1, D2, D3. reflexivity.
Qed.

Lemma gives_up_after_four_failures_witness :
  SendNotification (flaky_env 4) fresh_limiter (str "backup failed")
  = Some (Some (FailedAfterRetries 3
                  (Some (HTTPError 502 (str "unknown error")))),
          [EvWait; EvDo 0; EvBackoff (1 * Second); EvDo 1;
           EvBackoff (2 * Second); EvDo 2; EvBackoff (4 * Second); EvDo 3],
          snd (tryTake 0 fresh_limiter)).
Proof.
  apply (@gives_up_after_four_failures (flaky_env 4) fresh_limiter
           (snd (tryTake 0 fresh_limiter)) (str "backup failed")).
  - repeat split; vm_compute; reflexivity.
  - reflexivity.
  - intros k Hk. unfold MaxHTTPRetries in Hk.
    destruct k as [|[|[|[|k]]]]; try reflexivity; lia.
  - reflexivity.
Defined.

(** When the request cannot be built, no turn of the loop succeeds. *)
Lemma retry_loop_no_request (e : env) (remaining : nat) :
  request_created e = false ->
  forall attempt lastErr,
    fst (retry_loop remaining attempt e lastErr) <> None.
Proof.
  intro Hreq. induction remaining as [|remaining IH]; intros attempt lastErr;
    cbn [retry_loop]; [discriminate|].
  destruct ((0 <? attempt) && backoff_cancelled e attempt); [discriminate|].
  unfold sendRequest. rewrite Hreq. cbn [isClientError].
  specialize (IH (S attempt) (Some RequestCreationError)).
  now destruct (retry_loop remaining (S attempt) e (Some RequestCreationError)).
Qed.

(** The loop returns nil only at a reply with the status 200, after
    retryable failures only. *)
Lemma retry_loop_success (e : env) (remaining : nat) :
  forall attempt lastErr events,
    retry_loop remaining attempt e lastErr = (None, events) ->
    exists k description,
      attempt <= k < attempt + remaining
      /\ transport e k = Response 200 description
      /\ (forall j, attempt <= j < k -> retryable (transport e j) = true)
      /\ network_calls events = k + 1 - attempt
      /\ backoffs events = (if 0 <? attempt then k + 1 - attempt else k).
Proof.
  induction remaining as [|remaining IH]; intros attempt lastErr events H;
    [cbn [retry_loop] in H; discriminate H|].
  destruct (request_created e) eqn:Hreq.
  2:{ pose proof (@retry_loop_no_request e (S remaining) Hreq attempt lastErr)
        as N.
      rewrite H in N. now contradiction N. }
  cbn [retry_loop] in H.
  destruct ((0 <? attempt) && backoff_cancelled e attempt); [discriminate|].
  unfold sendRequest in H. rewrite Hreq in H.
  assert (P : network_calls
                (if 0 <? attempt then [EvBackoff (calculateBackoff attempt)]
                 else []) = 0
              /\ backoffs
                   (if 0 <? attempt then [EvBackoff (calculateBackoff attempt)]
                    else []) = (if 0 <? attempt then 1 else 0)).
  { destruct (0 <? attempt); split; reflexivity. }
  destruct P as [P1 P2].
  assert (Retry : forall er,
             reply_error (transport e attempt) = Some er ->
             (if isClientError er
              then (Some er,
                    (if 0 <? attempt then [EvBackoff (calculateBackoff attempt)]
                     else []) ++ [EvDo attempt])
              else let '(r, evs') :=
                       retry_loop remaining (S attempt) e (Some er) in
                   (r, (if 0 <? attempt
                        then [EvBackoff (calculateBackoff attempt)]
                        else []) ++ [EvDo attempt] ++ evs'))
             = (None, events) ->
             exists k description,
               attempt <= k < attempt + S remaining
               /\ transport e k = Response 200 description
               /\ (forall j, attempt <= j < k ->
                             retryable (transport e j) = true)
               /\ network_calls events = k + 1 - attempt
               /\ backoffs events
                  = (if 0 <? attempt then k + 1 - attempt else k)).
  { intros er Her G.
    destruct (isClientError er) eqn:C; [discriminate|].
    destruct (retry_loop remaining (S attempt) e (Some er)) as [r evs'] eqn:L.
    injection G as -> <-.
    apply IH in L as (k & d & Hk & Ht & Hj & Hn & Hbk).
    exists k, d. repeat split; try lia; auto.
    - intros j Hjk. destruct (Nat.eq_dec j attempt) as [->|Hne].
      + unfold retryable. now rewrite Her, C.
      + apply Hj. lia.
    - change (EvDo attempt :: evs') with ([EvDo attempt] ++ evs').
      rewrite !network_calls_app, P1, Hn. cbn. lia.
    - change (EvDo attempt :: evs') with ([EvDo attempt] ++ evs').
      rewrite !backoffs_app, P2, Hbk. change (0 <? S attempt) with true.
      cbn [backoffs filter length Nat.add].
      destruct attempt; cbn [Nat.ltb Nat.leb]; lia. }
  destruct (transport e attempt) as [cause done|code d] eqn:T.
  - apply (Retry _ eq_refl). exact H.
  - destruct (Z.eqb_spec code 200) as [->|Hne].
    + cbn [negb] in H. injection H as <-.
      exists attempt, d. repeat split; try lia; auto.
      * rewrite network_calls_app, P1. cbn. lia.
      * rewrite backoffs_app, P2. cbn. destruct attempt; cbn; lia.
    + cbn [negb] in H.
      apply (Retry (HTTPError code match d with
                                   | Some d0 => d0
                                   | None => str "unknown error"
                                   end)); [|exact H].
      unfold reply_error. apply Z.eqb_neq in Hne. now rewrite Hne.
Qed.

(** X19: [SendNotification] returns nil only for a response with the
    status 200: it is the answer to request [k], after [k] retryable
    failures and [k] backoff delays, with [k + 1] requests made in all. *)
Theorem success_means_status_200
        (e : env) (rateLimiter tb : TokenBucket) (message : gostring)
        (events : list event) :
  SendNotification e rateLimiter message = Some (None, events, tb) ->
  exists k description,
    k <= MaxHTTPRetries
    /\ transport e k = Response 200 description
    /\ (forall j, j < k -> retryable (transport e j) = true)
    /\ network_calls events = k + 1
    /\ backoffs events = k.
Proof.
  unfold SendNotification.
  destruct (ctx_done_on_entry e); [discriminate|].
  destruct (ValidateMessageSize message); [discriminate|].
  destruct (Wait _ _ _) as [[[werr|] tb1]|]; try discriminate.
  destruct (retry_loop (MaxHTTPRetries + 1) 0 e None) as [r evs] eqn:L.
  intro H. injection H as -> <- <-.
  apply retry_loop_success in L as (k & d & Hk & Ht & Hj & Hn & Hb).
  exists k, d. unfold MaxHTTPRetries in *.
  split; [lia|]. split; [exact Ht|].
  split; [intros j Hjk; apply Hj; lia|].
  change (EvWait :: evs) with ([EvWait] ++ evs).
  rewrite network_calls_app, backoffs_app, Hn, Hb.
  change (network_calls [EvWait]) with 0. change (backoffs [EvWait]) with 0.
  change (0 <? 0) with false. split; [lia|reflexivity].
Qed.

Lemma success_means_status_200_witness :
  exists k description,
    k <= MaxHTTPRetries
    /\ transport (flaky_env 2) k = Response 200 description
    /\ (forall j, j < k -> retryable (transport (flaky_env 2) j) = true)
    /\ network_calls [EvWait; EvDo 0; EvBackoff (1 * Second); EvDo 1;
                      EvBackoff (2 * Second); EvDo 2] = k + 1
    /\ backoffs [EvWait; EvDo 0; EvBackoff (1 * Second); EvDo 1;
                 EvBackoff (2 * Second); EvDo 2] = k.
Proof.
  apply (@success_means_status_200 (flaky_env 2) fresh_limiter
           (snd (tryTake 0 fresh_limiter)) (str "backup failed")).
  vm_compute. reflexivity.
Defined.

(** X20: a request is made only when the context is live on entry, the
    message passes the size validation and the rate limiter gave a
    token. *)
Theorem request_only_after_admission
        (e : env) (rateLimiter tb : TokenBucket) (message : gostring)
        (result : option error) (events : list event) :
  SendNotification e rateLimiter message = Some (result, events, tb) ->
  0 < network_calls events ->
  reaches_transport e rateLimiter tb message.
Proof.
  unfold SendNotification, reaches_transport.
  destruct (ctx_done_on_entry e).
  { intro H. injection H as <- <- <-. cbn. lia. }
  destruct (ValidateMessageSize message).
  { intro H. injection H as <- <- <-. cbn. lia. }
  destruct (Wait _ _ _) as [[[werr|] tb1]|]; [| |discriminate].
  { intro H. injection H as <- <- <-. cbn. lia. }
  destruct (retry_loop _ _ _ _) as [r evs].
  intro H. injection H as <- <- <-. auto.
Qed.

Lemma request_only_after_admission_witness :
  reaches_transport forbidden_env fresh_limiter (snd (tryTake 0 fresh_limiter))
           (str "backup failed").
Proof.
  apply (@request_only_after_admission forbidden_env fresh_limiter
           (snd (tryTake 0 fresh_limiter)) (str "backup failed")
           (Some (HTTPError 403 (str "Forbidden: bot was blocked")))
           [EvWait; EvDo 0]).
  - vm_compute. reflexivity.
  - cbn. lia.
Defined.

End RetryFacts.

(** ** Waiting for a token *)
Module BucketFacts.
Import FloatSpec RateLimitSpec BucketSpec.
Import Constants RateLimit FloatFacts RateLimitFacts.

Lemma tryTake_rate_ok (now : Z) (tb : TokenBucket) :
  rate_ok tb = true -> rate_ok (snd (tryTake now tb)) = true.
Proof.
  unfold rate_ok. destruct (tryTake_frame now tb) as (_ & -> & _). auto.
Qed.

(** X21: [Wait] keeps the bucket in order: from a level within the
    capacity and a positive finite rate, with a clock that does not go
    back, the bucket [Wait] leaves has its level within the capacity, and
    the same capacity and rate, however it returns. *)
Theorem Wait_keeps_capacity
        (start : Z) (ticks : list tick) (tb tb' : TokenBucket)
        (result : option wait_error) :
  within_capacity tb = true ->
  rate_ok tb = true ->
  ticks_from (lastRefill tb) ticks ->
  Wait start ticks tb = Some (result, tb') ->
  within_capacity tb' = true /\ maxTokens tb' = maxTokens tb
  /\ refillRate tb' = refillRate tb.
Proof.
  unfold Wait. generalize (start + RateLimitMaxWaitTime)%Z as deadline.
  intro deadline. revert tb.
  induction ticks as [|t ticks IH]; intros tb W R C H; [discriminate|].
  cbn [wait_loop] in H. destruct C as [C1 C2].
  pose proof (@tryTake_within (take_time t) tb W R C1) as W1.
  pose proof (@tryTake_rate_ok (take_time t) tb R) as R1.
  destruct (tryTake_frame (take_time t) tb) as (F1 & F2 & F3).
  destruct (tryTake (take_time t) tb) as [ok tb1]. cbn [snd] in *.
  destruct ok.
  { injection H as <- <-. auto. }
  destruct (selected t) as [|now].
  { injection H as <- <-. auto. }
  destruct (deadline <? now)%Z.
  { injection H as <- <-. auto. }
  rewrite <- F3 in C2.
  destruct (IH tb1 W1 R1 C2 H) as (A & B & C). rewrite B, C. auto.
Qed.

Lemma Wait_keeps_capacity_witness :
  within_capacity (snd (tryTake 1500000000 drained)) = true
  /\ maxTokens (snd (tryTake 1500000000 drained)) = maxTokens drained
  /\ refillRate (snd (tryTake 1500000000 drained)) = refillRate drained.
Proof.
  apply (@Wait_keeps_capacity 0
           [mkTick 500000000 (TimerFired 600000000);
            mkTick 1500000000 CtxDone]
           drained (snd (tryTake 1500000000 drained)) None).
  - reflexivity.
  - reflexivity.
  - cbn. lia.
  - vm_compute. reflexivity.
Defined.

(** X22: [Wait] fails only on a signal: it reports a timeout only when a
    timer fired after the deadline (five seconds from its start), and a
    cancellation only when the context was done. *)
Theorem Wait_fails_only_on_signal
        (start : Z) (ticks : list tick) (tb tb' : TokenBucket)
        (err : wait_error) :
  Wait start ticks tb = Some (Some err, tb') ->
  match err with
  | WaitTimeout => fired_after (start + RateLimitMaxWaitTime) ticks
  | WaitCancelled => cancelled_in ticks
  end.
Proof.
  unfold Wait. generalize (start + RateLimitMaxWaitTime)%Z as deadline.
  intro deadline. revert tb.
  induction ticks as [|t ticks IH]; intros tb H; [discriminate|].
  cbn [wait_loop] in H.
  destruct (tryTake (take_time t) tb) as [ok tb1].
  destruct ok; [discriminate|].
  destruct (selected t) as [|now] eqn:S.
  { injection H as <- <-. exists t. split; [now left|exact S]. }
  destruct (Z.ltb_spec deadline now) as [L|L].
  { injection H as <- <-. exists t, now. repeat split; auto. now left. }
  apply IH in H. destruct err.
  - destruct H as (t' & I & S'). exists t'. split; [now right|exact S'].
  - destruct H as (t' & now' & I & S' & L'). exists t', now'.
    repeat split; auto. now right.
Qed.

Lemma Wait_fails_only_on_signal_witness :
  fired_after (0 + RateLimitMaxWaitTime)
              [mkTick 100000000 (TimerFired 200000000);
               mkTick 300000000 (TimerFired 5100000000)].
Proof.
  apply (@Wait_fails_only_on_signal 0
           [mkTick 100000000 (TimerFired 200000000);
            mkTick 300000000 (TimerFired 5100000000)]
           drained
           (snd (tryTake 300000000 (snd (tryTake 100000000 drained))))
           WaitTimeout).
  vm_compute. reflexivity.
Defined.

Lemma Sub_diag (t : Z) : Sub t t = 0%Z.
Proof. unfold Sub. rewrite Z.sub_diag. reflexivity. Qed.

(** At the instant of the last refill the clock reading does not matter. *)
Lemma takes_same_instant (now : Z) (n : nat) :
  forall level capacity rate,
    takes n now (mkBucket level capacity rate now)
    = takes n 0 (mkBucket level capacity rate 0).
Proof.
  induction n as [|n IH]; intros level capacity rate; [reflexivity|].
  cbn [takes]. unfold tryTake, refill.
  cbn [lastRefill tokens maxTokens refillRate]. rewrite !Sub_diag.
  destruct (1 <=? _)%float; cbn [fst snd lastRefill tokens maxTokens refillRate];
    f_equal; apply IH.
Qed.

(** X23: the rate limiter of the delivery client allows a burst of ten:
    of eleven takes at the instant the bucket is made, the first ten
    succeed and the eleventh fails. *)
Theorem burst_of_ten (now : Z) :
  takes 11 now (NewTokenBucket now RateLimitTokens RateLimitRefillRate)
  = repeat true 10 ++ [false].
Proof.
  unfold NewTokenBucket. rewrite takes_same_instant.
  vm_compute. reflexivity.
Qed.

Lemma SFadd_zero_r (x : spec_float) :
  nonneg x = true ->
  SFadd prec emax x (S754_zero false) = plus_zero x.
Proof.
  destruct x as [s|s| |s m e]; try destruct s; try discriminate; reflexivity.
Qed.

(** X24: no time, no tokens: a refill at the instant of the last refill
    leaves the level as it was (as [float64] compares), for a bucket with
    its level within the capacity and a positive finite rate. *)
Theorem no_tokens_without_time (tb : TokenBucket) :
  within_capacity tb = true ->
  rate_ok tb = true ->
  (tokens (refill (lastRefill tb) tb) =? tokens tb)%float = true.
Proof.
  intros W R. apply within_capacity_spec in W as [W0 W1].
  apply rate_ok_finite in R.
  unfold refill. cbn [tokens]. rewrite Sub_diag.
  change (Seconds 0) with 0%float.
  set (t1 := (tokens tb + 0 * refillRate tb)%float).
  assert (E : Prim2SF t1 = plus_zero (Prim2SF (tokens tb))).
  { subst t1. rewrite add_spec, mul_spec.
    change (Prim2SF 0) with (S754_zero false).
    destruct (Prim2SF (refillRate tb)) as [s|s| |s m e]; try discriminate.
    destruct s; [discriminate|].
    change (SF64mul (S754_zero false) (S754_finite false m e))
      with (S754_zero false).
    unfold SF64add. now apply SFadd_zero_r. }
  assert (C : forall y, SFcompare y (Prim2SF t1)
                        = SFcompare y (Prim2SF (tokens tb))).
  { intro y. rewrite E.
    destruct (Prim2SF (tokens tb)) as [s|s| |s m e]; try reflexivity. }
  assert (L : (maxTokens tb <? t1)%float = false).
  { rewrite ltb_spec. unfold SFltb. rewrite C.
    unfold SFleb in W1. rewrite (SFcompare_antisym (Prim2SF (tokens tb))).
    destruct (SFcompare (Prim2SF (tokens tb)) (Prim2SF (maxTokens tb)))
      as [[| |]|]; try discriminate; reflexivity. }
  rewrite L, eqb_spec. unfold SFeqb.
  rewrite (SFcompare_antisym (Prim2SF (tokens tb))), C.
  rewrite SFcompare_refl by now apply nonneg_not_nan. reflexivity.
Qed.

Lemma no_tokens_without_time_witness :
  (tokens (refill (lastRefill drained) drained) =? tokens drained)%float
  = true.
Proof. apply no_tokens_without_time; reflexivity. Defined.

End BucketFacts.

(** ** The redaction marker *)
Module MarkerFacts.
Import RegexpSpec RedactionSpec.
Import Utf8 Strings Regexp Constants Validation RegexpFacts SearchFacts
       RedactionFacts JournalScanFacts.

Lemma index_from_occurs (sub a b : gostring) :
  forall i, (0 <= i)%Z -> (0 <= index_from i sub (a ++ sub ++ b))%Z.
Proof.
  induction a as [|x a IH]; intros i Hi.
  - cbn [app]. destruct (sub ++ b) as [|y t] eqn:E.
    + cbn [index_from]. destruct (HasPrefix [] sub) eqn:P; [exact Hi|].
      destruct sub; [discriminate P|discriminate E].
    + cbn [index_from]. rewrite <- E, HasPrefix_app. exact Hi.
  - cbn [app index_from].
    destruct (HasPrefix (x :: a ++ sub ++ b) sub); [exact Hi|].
    apply IH. lia.
Qed.

Lemma Contains_occurs (sub a b : gostring) :
  Contains (a ++ sub ++ b) sub = true.
Proof.
  unfold Contains, Index. apply Z.leb_le. now apply index_from_occurs.
Qed.

Lemma redact_ends_with_marker (m : gostring) :
  exists kept, redact m = kept ++ redaction_marker.
Proof.
  unfold redact. destruct (20 <? len m)%Z.
  - now exists (slice_to m 20).
  - now exists [].
Qed.

(** One pass leaves the text as it is or leaves the marker in it. *)
Lemma pass_leaves_marker (re : regex) (src : gostring) :
  nullable re = false ->
  ReplaceAllStringFunc re src redact = src
  \/ Contains (ReplaceAllStringFunc re src redact) redaction_marker = true.
Proof.
  intro Hn. destruct (MatchString re src) eqn:M.
  - right. unfold MatchString in M.
    destruct (doExecute re src 0) as [[a0 a1]|] eqn:E; [|discriminate].
    unfold ReplaceAllStringFunc.
    replace (length src + 2) with (S (length src + 1)) by lia.
    rewrite (@replace_loop_step re redact src (length src + 1) 0 a0 a1 []
               Hn (Nat.le_0_l _) E).
    destruct (redact_ends_with_marker (slice src a0 a1)) as [kept ->].
    cbn [app]. rewrite <- app_assoc, app_assoc. apply Contains_occurs.
  - left. now apply ReplaceAllStringFunc_no_match.
Qed.

(** X25: [FilterSecrets] never changes a text silently: its result is the
    input itself or contains the marker [REDACTED]. *)
Theorem filter_changes_leave_marker (input : gostring) :
  FilterSecrets input = input
  \/ Contains (FilterSecrets input) redaction_marker = true.
Proof.
  unfold FilterSecrets.
  assert (G : forall patterns result,
             (forall re, In re patterns -> nullable re = false) ->
             result = input \/ Contains result redaction_marker = true ->
             fold_left (fun result pattern =>
                          ReplaceAllStringFunc pattern result redact)
                       patterns result = input
             \/ Contains (fold_left (fun result pattern =>
                                       ReplaceAllStringFunc pattern result redact)
                                    patterns result)
                         redaction_marker = true).
  { induction patterns as [|re patterns IH]; intros result Hn H; [exact H|].
    cbn [fold_left]. apply IH; [intros r Hr; apply Hn; now right|].
    destruct (@pass_leaves_marker re result (Hn re (or_introl eq_refl)))
      as [E|C]; [rewrite E; exact H|now right]. }
  apply G; [apply SecretPatterns_not_nullable|now left].
Qed.

End MarkerFacts.

(** ** The sweeps of the redaction filter *)
Module SweepFacts.
Import RegexpSpec RedactionSpec SweepSpec.
Import Utf8 Strings Regexp Constants Validation Utf8Facts RegexpFacts
       SearchFacts RedactionFacts CompletenessFacts.

Lemma redact_replacement (m : gostring) : redact m = replacement m.
Proof.
  unfold redact, replacement, slice_to.
  destruct (20 <? len m)%Z eqn:E.
  - apply Z.ltb_lt in E. apply Z.leb_gt in E. now rewrite E.
  - apply Z.ltb_ge in E. apply Z.leb_le in E. now rewrite E.
Qed.

(** The loop of the library and the pass of C7 give the same text, with
    any fuel that covers the bytes left. *)
Lemma replace_loop_each_match (re : regex) (src : gostring) :
  nullable re = false ->
  forall n p fuel fuel',
    p <= length src -> length src - p <= n -> n < fuel -> n <= fuel' ->
    replace_loop fuel re redact src p p []
    = replace_each_match fuel' re src p.
Proof.
  intro Hn. induction n as [|n IH]; intros p fuel fuel' Hp Hl Hf Hf'.
  - destruct fuel as [|fuel]; [lia|].
    cbn [replace_loop].
    assert (E : (p <=? length src) = true) by (apply Nat.leb_le; lia).
    rewrite E.
    destruct (doExecute re src p) as [[a0 a1]|] eqn:X.
    + pose proof (doExecute_bounds _ _ Hn Hp X). lia.
    + destruct fuel'; cbn [replace_each_match app]; [reflexivity|].
      now rewrite X.
  - destruct fuel as [|fuel]; [lia|].
    destruct (doExecute re src p) as [[a0 a1]|] eqn:X.
    + pose proof (doExecute_bounds _ _ Hn Hp X) as (B1 & B2 & B3 & _).
      rewrite (@replace_loop_step re redact src fuel p a0 a1 [] Hn Hp X).
      destruct fuel' as [|fuel']; [lia|].
      cbn [replace_each_match app]. rewrite X.
      rewrite redact_replacement.
      rewrite (IH a1 fuel fuel') by lia. reflexivity.
    + cbn [replace_loop].
      assert (E : (p <=? length src) = true) by (apply Nat.leb_le; lia).
      rewrite E, X.
      destruct fuel'; cbn [replace_each_match app]; [reflexivity|].
      now rewrite X.
Qed.

Lemma ReplaceAllStringFunc_redact_pass (re : regex) (src : gostring) :
  nullable re = false ->
  ReplaceAllStringFunc re src redact = redact_pass re src.
Proof.
  intro Hn. unfold ReplaceAllStringFunc, redact_pass.
  apply (@replace_loop_each_match re src Hn (length src)); lia.
Qed.

Lemma fold_left_passes (f g : gostring -> regex -> gostring)
      (l : list regex) :
  (forall re text, In re l -> f text re = g text re) ->
  forall text, fold_left f l text = fold_left g l text.
Proof.
  induction l as [|re l IH]; intros H text; [reflexivity|].
  cbn [fold_left]. rewrite H by now left.
  apply IH. intros re' text' Hin. apply H. now right.
Qed.

(** C7 (amended): the filter is the pass of C7, with the lengths in bytes,
    made for each pattern in order over the output of the pass before:
    in each pass every match found, from the left and each from the end of
    the one before, is replaced by the marker alone when it has at most
    20 bytes and by its first 20 bytes followed by the marker when it has
    more; the text between the matches is kept. *)
Theorem FilterSecrets_replaces_each_match (input : gostring) :
  FilterSecrets input
  = fold_left (fun text re => redact_pass re text) SecretPatterns input.
Proof.
  unfold FilterSecrets. apply fold_left_passes.
  intros re text Hin. apply ReplaceAllStringFunc_redact_pass.
  now apply SecretPatterns_not_nullable.
Qed.

(** C7 does not hold with the lengths in characters: a match of 17
    characters and 25 bytes is not replaced by the marker alone, its first
    20 bytes are kept, the last of which is half a character. *)
Lemma short_match_in_characters_kept :
  chars wide_password = 17
  /\ doExecute (nth 0 SecretPatterns Empty) wide_password 0 = Some (0, 25)
  /\ FilterSecrets wide_password
     = firstn 20 wide_password ++ redaction_marker
  /\ ~ replaced_by_characters wide_password.
Proof.
  split; [vm_compute; reflexivity|].
  split; [vm_compute; reflexivity|].
  assert (E : FilterSecrets wide_password
              = firstn 20 wide_password ++ redaction_marker)
    by (vm_compute; reflexivity).
  split; [exact E|].
  intro H. unfold replaced_by_characters in H.
  assert (C : chars wide_password <= 20) by (vm_compute; lia).
  apply H in C. rewrite E in C. vm_compute in C. discriminate.
Qed.

Lemma tried_from (src : gostring) (p q : nat) : tried src p q -> p <= q.
Proof. induction 1; lia. Qed.

(** Where the matcher finds nothing, the pattern has no match. *)
Lemma match_here_none (re : regex) (src : gostring) (q : nat) :
  match_here re (Nat.eqb q 0) (skipn q src) = None -> ~ matches_at re src q.
Proof.
  intros H (bot' & rest & Hm). revert H. unfold match_here.
  eapply run_complete; [exact Hm|discriminate].
Qed.

(** The search is leftmost: it finds a match at the first offset it tries at
    which the pattern has one, and none only when there is none at any
    offset it tries. *)
Lemma search_leftmost (re : regex) (src : gostring) (fuel : nat) :
  forall p,
    p <= length src -> length src - p <= fuel ->
    match search fuel re p (skipn p src) with
    | None => forall q, tried src p q -> ~ matches_at re src q
    | Some (a0, a1) =>
      tried src p a0
      /\ (forall q, tried src p q -> q < a0 -> ~ matches_at re src q)
      /\ exists rest, match_here re (Nat.eqb a0 0) (skipn a0 src) = Some rest
                      /\ a1 = a0 + (length (skipn a0 src) - length rest)
    end.
Proof.
  induction fuel as [|fuel IH]; intros p Hp Hl; cbn [search];
    destruct (match_here re (Nat.eqb p 0) (skipn p src)) as [rest|] eqn:E.
  1, 3: split; [constructor|]; split;
    [intros q Hq Hlt; apply tried_from in Hq; lia|now exists rest].
  - intros q Hq. inversion Hq as [|? ? Hlt _]; subst;
      [now apply match_here_none|lia].
  - destruct (skipn p src) as [|b0 s1] eqn:S.
    { intros q Hq. inversion Hq as [|? ? Hlt _]; subst.
      - apply match_here_none. now rewrite S.
      - apply (f_equal (@length _)) in S. rewrite length_skipn in S.
        cbn in S. lia. }
    assert (Hne : b0 :: s1 <> []) by discriminate.
    pose proof (DecodeRune_width Hne) as [[W1 _] W2].
    assert (Ls : length (b0 :: s1) = length src - p)
      by (rewrite <- S; apply length_skipn).
    destruct (DecodeRune (b0 :: s1)) as [c w] eqn:D. cbn [snd] in W1, W2.
    assert (K : skipn w (b0 :: s1) = skipn (p + w) src)
      by (rewrite <- S, skipn_skipn; f_equal; lia).
    rewrite K.
    assert (Hp' : p + w <= length src) by lia.
    assert (Hl' : length src - (p + w) <= fuel) by lia.
    specialize (IH (p + w) Hp' Hl').
    assert (Hw : p + snd (DecodeRune (skipn p src)) = p + w)
      by (now rewrite S, D).
    assert (Hlt : p < length src) by lia.
    assert (Np : ~ matches_at re src p)
      by (apply match_here_none; now rewrite S).
    destruct (search fuel re (p + w) (skipn (p + w) src)) as [[a0 a1]|].
    + destruct IH as (T & N & R). split; [|split; [|exact R]].
      * apply tried_next; [exact Hlt|now rewrite Hw].
      * intros q Hq Hq0. inversion Hq as [|? ? _ Hq']; subst; [exact Np|].
        rewrite Hw in Hq'. now apply N.
    + intros q Hq. inversion Hq as [|? ? _ Hq']; subst; [exact Np|].
      rewrite Hw in Hq'. now apply IH.
Qed.

(** The loop of the library makes a sweep. *)
Lemma replace_loop_swept (re : regex) (src : gostring) :
  nullable re = false ->
  forall fuel p,
    p <= length src -> length src - p < fuel ->
    swept re src p (replace_loop fuel re redact src p p []).
Proof.
  intro Hn. induction fuel as [|fuel IH]; intros p Hp Hl; [lia|].
  assert (L : length src - p <= length src) by lia.
  pose proof (@search_leftmost re src (length src) p Hp L) as S.
  fold (doExecute re src p) in S.
  destruct (doExecute re src p) as [[a0 a1]|] eqn:X.
  - pose proof (doExecute_bounds _ _ Hn Hp X) as (B1 & B2 & B3 & _).
    destruct S as (T & N & rest & M & A).
    rewrite (@replace_loop_step re redact src fuel p a0 a1 [] Hn Hp X).
    cbn [app]. rewrite redact_replacement.
    apply match_here_sound in M as [bot' M].
    pose proof (matches_advance M) as (n & R & Ln & _).
    rewrite R, !length_skipn in A.
    assert (Ra : rest = skipn a1 src).
    { rewrite R, skipn_skipn. f_equal.
      rewrite length_skipn in Ln. lia. }
    rewrite Ra in M.
    eapply swept_match; eauto. apply IH; lia.
  - cbn [replace_loop].
    assert (E : (p <=? length src) = true) by (apply Nat.leb_le; lia).
    rewrite E, X. cbn [app]. now apply swept_end.
Qed.

Lemma ReplaceAllStringFunc_swept (re : regex) (src : gostring) :
  nullable re = false ->
  swept re src 0 (ReplaceAllStringFunc re src redact).
Proof.
  intro Hn. unfold ReplaceAllStringFunc.
  apply replace_loop_swept; [exact Hn|lia|lia].
Qed.

Lemma fold_left_sweeps (patterns : list regex) :
  (forall re, In re patterns -> nullable re = false) ->
  forall text,
    sweeps patterns text
           (fold_left (fun result pattern =>
                         ReplaceAllStringFunc pattern result redact)
                      patterns text).
Proof.
  induction patterns as [|re patterns IH]; intros H text; cbn [fold_left].
  - constructor.
  - eapply sweeps_cons.
    + apply ReplaceAllStringFunc_swept. apply H. now left.
    + apply IH. intros re' Hin. apply H. now right.
Qed.

(** C2 (amended): the filter makes one sweep per pattern, in the order of
    [SecretPatterns], each over the output of the sweep before.  In a
    sweep the text is cut at the matches found: where text is kept, the
    pattern has no match at any offset the leftmost search tries before
    the next replaced piece (or up to the end of the text); each replaced
    piece is not empty, is a match of the pattern at the first such offset
    that has one, and gives way to the marker, after its first 20 bytes
    when it has more than 20.  So every match of a pattern that its sweep
    meets is redacted, and a text in which no pattern matches is returned
    as it is, without a match in the result.  Nothing is said of the
    matches that the kept 20 bytes and the markers make in the output. *)
Theorem FilterSecrets_sweeps (input : gostring) :
  sweeps SecretPatterns input (FilterSecrets input)
  /\ ((forall re, In re SecretPatterns -> MatchString re input = false) ->
      FilterSecrets input = input /\ no_secret_left input).
Proof.
  split.
  - apply fold_left_sweeps. apply SecretPatterns_not_nullable.
  - intro H.
    assert (E : FilterSecrets input = input).
    { unfold FilterSecrets. apply fold_left_fixed. intros re Hre.
      apply ReplaceAllStringFunc_no_match. now apply H. }
    split; [assumption|]. unfold no_secret_left. now rewrite E.
Qed.

Lemma FilterSecrets_sweeps_witness :
  sweeps SecretPatterns password_line (str "password=abcdef12345[REDACTED]")
  /\ FilterSecrets plain_line = plain_line
  /\ no_secret_left plain_line.
Proof.
  split.
  - pose proof (proj1 (FilterSecrets_sweeps password_line)) as H.
    assert (E : FilterSecrets password_line
                = str "password=abcdef12345[REDACTED]")
      by (vm_compute; reflexivity).
    rewrite E in H. exact H.
  - exact (proj2 (FilterSecrets_sweeps plain_line) (@plain_line_no_match)).
Defined.

(** A marker can complete a match of a pattern whose sweep is over: the
    last pattern redacts the quoted value, and the pattern of a password
    in a URL, the tenth of the list, matches the result. *)
Example marker_completes_match :
  FilterSecrets (str "x://a:B_KEY='p q'@") = str "x://a:[REDACTED]@"
  /\ MatchString (nth 9 SecretPatterns Empty) (str "x://a:B_KEY='p q'@")
     = false
  /\ MatchString (nth 9 SecretPatterns Empty) (str "x://a:[REDACTED]@")
     = true.
Proof. repeat split; vm_compute; reflexivity. Qed.

End SweepFacts.

(** ** The end of a delivery at a client error *)
Module ClientErrorFacts.
Import DeliverySpec RetrySpec ClientErrorSpec.
Import Constants Validation RateLimit Telegram RetryFacts.

(** The delays outside the attempts 1 to 3 that the loop asks for: half the
    initial delay at attempt 0, the ceiling from attempt 5 on, and the
    least int64 once the product leaves the range of int64. *)
Lemma calculateBackoff_values :
  calculateBackoff 0 = 500000000%Z
  /\ calculateBackoff 4 = (8 * Second)%Z
  /\ calculateBackoff 5 = MaxRetryDelay
  /\ calculateBackoff 34 = MaxRetryDelay
  /\ calculateBackoff 35 = minInt64.
Proof. repeat split; vm_compute; reflexivity. Qed.

Lemma client_error_reply (status : Z) (description : option gostring) :
  (400 <= status < 500)%Z ->
  reply_error (Response status description)
  = Some (HTTPError status (error_text description))
  /\ isClientError (HTTPError status (error_text description)) = true.
Proof.
  intro H. unfold reply_error, error_text, isClientError.
  assert (E : (status =? 200)%Z = false) by (apply Z.eqb_neq; lia).
  rewrite E. split; [reflexivity|].
  apply andb_true_iff. split; [apply Z.leb_le|apply Z.ltb_lt]; lia.
Qed.

Lemma last_after (A : Type) (l l' : list A) (d : A) :
  l' <> [] -> last (l ++ l') d = last l' d.
Proof.
  intro H. induction l as [|x l IH]; [reflexivity|].
  cbn [app last]. rewrite IH. destruct (l ++ l') eqn:E; [|reflexivity].
  apply app_eq_nil in E as [_ E]. congruence.
Qed.

Lemma trace_from_counts (n : nat) :
  forall a,
    network_calls (trace_from a n) = n + 1
    /\ backoffs (trace_from a n) = (if 0 <? a then n + 1 else n)
    /\ last (trace_from a n) EvWait = EvDo (a + n).
Proof.
  induction n as [|n IH]; intro a; cbn [trace_from].
  - rewrite Nat.add_0_r. destruct (0 <? a); repeat split.
  - destruct (IH (S a)) as (C & B & L). change (0 <? S a) with true in B.
    rewrite network_calls_app, backoffs_app.
    change (EvDo a :: trace_from (S a) n)
      with ([EvDo a] ++ trace_from (S a) n).
    rewrite network_calls_app, backoffs_app, C, B.
    rewrite last_after by discriminate.
    change (EvDo a :: trace_from (S a) n)
      with ([EvDo a] ++ trace_from (S a) n).
    rewrite last_after
      by (destruct n; cbn [trace_from]; discriminate).
    rewrite L.
    replace (S a + n) with (a + S n) by lia.
    destruct (0 <? a); cbn; repeat split; lia.
Qed.

(** The loop retries every retryable failure and ends at the request that
    is answered with a client error. *)
Lemma retry_loop_until_client_error (e : env) (status : Z)
      (description : option gostring) :
  request_created e = true ->
  (400 <= status < 500)%Z ->
  forall n a remaining lastErr,
    n < remaining ->
    (forall j, a <= j < a + n -> retryable (transport e j) = true) ->
    (forall j, a <= j <= a + n -> 0 < j -> backoff_cancelled e j = false) ->
    transport e (a + n) = Response status description ->
    retry_loop remaining a e lastErr
    = (Some (HTTPError status (error_text description)), trace_from a n).
Proof.
  intros Hreq Hst. destruct (client_error_reply description Hst) as [R C].
  induction n as [|n IH]; intros a remaining lastErr Hn Hretry Hback Htr;
    (destruct remaining as [|remaining]; [lia|]); cbn [retry_loop trace_from].
  - rewrite Nat.add_0_r in *.
    assert (B : (0 <? a) && backoff_cancelled e a = false).
    { destruct (0 <? a) eqn:E; [|reflexivity]. apply Nat.ltb_lt in E.
      cbn [andb]. apply Hback; lia. }
    rewrite B, (@sendRequest_reply e a Hreq), Htr, R, C. reflexivity.
  - assert (B : (0 <? a) && backoff_cancelled e a = false).
    { destruct (0 <? a) eqn:E; [|reflexivity]. apply Nat.ltb_lt in E.
      cbn [andb]. apply Hback; lia. }
    assert (Hr : retryable (transport e a) = true) by (apply Hretry; lia).
    apply retryable_reply in Hr as (er & Er & Ec).
    rewrite B, (@sendRequest_reply e a Hreq), Er, Ec.
    rewrite (IH (S a) remaining (Some er)).
    + reflexivity.
    + lia.
    + intros j Hj. apply Hretry. lia.
    + intros j Hj Hj0. apply Hback; lia.
    + replace (S a + n) with (a + S n) by lia. exact Htr.
Qed.

(** A request is made only when the requests before it failed with
    retryable errors and no backoff was cancelled. *)
Lemma retry_loop_request (e : env) (remaining : nat) :
  forall a lastErr r evs k,
    retry_loop remaining a e lastErr = (r, evs) ->
    In (EvDo k) evs ->
    request_created e = true
    /\ a <= k < a + remaining
    /\ (forall j, a <= j < k -> retryable (transport e j) = true)
    /\ (forall j, a <= j <= k -> 0 < j -> backoff_cancelled e j = false).
Proof.
  induction remaining as [|remaining IH]; intros a lastErr r evs k H Hin;
    cbn [retry_loop] in H.
  - injection H as <- <-. destruct Hin.
  - assert (P : forall l, In (EvDo k)
                  ((if 0 <? a then [EvBackoff (calculateBackoff a)] else [])
                     ++ l) -> In (EvDo k) l).
    { intros l Hl. apply in_app_or in Hl as [Hl|Hl]; [|exact Hl].
      destruct (0 <? a); [|destruct Hl].
      destruct Hl as [Hl|[]]. discriminate. }
    destruct ((0 <? a) && backoff_cancelled e a) eqn:B.
    { injection H as <- <-. rewrite <- app_nil_r in Hin.
      apply P in Hin. destruct Hin. }
    assert (Hb : 0 < a -> backoff_cancelled e a = false).
    { intro Ha. apply Nat.ltb_lt in Ha. now rewrite Ha in B. }
    destruct (request_created e) eqn:Hreq.
    + rewrite (@sendRequest_reply e a Hreq) in H.
      assert (Here : forall er,
                 In (EvDo k) [EvDo a] -> reply_error (transport e a) = er ->
                 True /\ a <= k < a + S remaining
                 /\ (forall j, a <= j < k -> retryable (transport e j) = true)
                 /\ (forall j, a <= j <= k -> 0 < j ->
                               backoff_cancelled e j = false)).
      { intros er [Hk|[]] _. assert (Ek : a = k) by congruence.
        split; [exact I|]. split; [lia|]. split; [intros; lia|].
        intros j Hj Hj0. assert (Ej : j = a) by lia.
        rewrite Ej. apply Hb. lia. }
      destruct (reply_error (transport e a)) as [er|] eqn:Er.
      * destruct (isClientError er) eqn:Ec.
        -- injection H as <- <-. apply P in Hin.
           destruct (Here (Some er) Hin eq_refl) as (_ & ? & ? & ?). auto.
        -- destruct (retry_loop remaining (S a) e (Some er))
             as [r' evs'] eqn:L.
           injection H as <- <-. apply P in Hin.
           destruct Hin as [Hin|Hin].
           ++ destruct (Here (Some er) (or_introl Hin) eq_refl)
                as (_ & ? & ? & ?). auto.
           ++ destruct (IH _ _ _ _ _ L Hin) as (_ & K & Hr & Hc).
              split; [reflexivity|]. split; [lia|]. split.
              ** intros j Hj. destruct (Nat.eq_dec j a) as [->|Hne].
                 --- unfold retryable. rewrite Er, Ec. reflexivity.
                 --- apply Hr. lia.
              ** intros j Hj Hj0. destruct (Nat.eq_dec j a) as [->|Hne].
                 --- now apply Hb.
                 --- apply Hc; lia.
      * injection H as <- <-. apply P in Hin.
        destruct (Here None Hin eq_refl) as (_ & ? & ? & ?). auto.
    + unfold sendRequest in H. rewrite Hreq in H. cbn [isClientError] in H.
      destruct (retry_loop remaining (S a) e (Some RequestCreationError))
        as [r' evs'] eqn:L.
      injection H as <- <-. apply P in Hin. cbn [app] in Hin.
      destruct (IH _ _ _ _ _ L Hin) as (Hc & _). congruence.
Qed.

(** When the delivery gets to request [k], it ends there with the client
    error. *)
Lemma client_error_reached
      (e : env) (rateLimiter tb : TokenBucket) (message : gostring)
      (k : nat) (status : Z) (description : option gostring) :
  transport e k = Response status description ->
  (400 <= status < 500)%Z ->
  reaches_transport e rateLimiter tb message ->
  request_created e = true ->
  k <= MaxHTTPRetries ->
  (forall j, j < k -> retryable (transport e j) = true) ->
  (forall j, 1 <= j <= k -> backoff_cancelled e j = false) ->
  SendNotification e rateLimiter message
  = Some (Some (HTTPError status (error_text description)),
          EvWait :: trace_from 0 k, tb).
Proof.
  intros Htr Hst (Hctx & Hsize & Hwait) Hreq Hk Hr Hc.
  unfold SendNotification. rewrite Hctx, Hsize, Hwait.
  rewrite (@retry_loop_until_client_error e status description Hreq Hst k 0
             (MaxHTTPRetries + 1) None).
  - reflexivity.
  - unfold MaxHTTPRetries in *. lia.
  - intros j Hj. apply Hr. lia.
  - intros j Hj Hj0. apply Hc. lia.
  - exact Htr.
Qed.

(** A delivery that has sent request [k] has got to it. *)
Lemma request_sent
      (e : env) (rateLimiter tb : TokenBucket) (message : gostring)
      (result : option error) (events : list event) (k : nat) :
  SendNotification e rateLimiter message = Some (result, events, tb) ->
  In (EvDo k) events ->
  reaches_transport e rateLimiter tb message
  /\ request_created e = true
  /\ k <= MaxHTTPRetries
  /\ (forall j, j < k -> retryable (transport e j) = true)
  /\ (forall j, 1 <= j <= k -> backoff_cancelled e j = false).
Proof.
  unfold SendNotification, reaches_transport.
  destruct (ctx_done_on_entry e).
  { intro H. injection H as <- <- <-. intros []. }
  destruct (ValidateMessageSize message).
  { intro H. injection H as <- <- <-. intros []. }
  destruct (Wait (wait_start e) (wait_ticks e) rateLimiter)
    as [[[werr|] tb']|]; [| |discriminate].
  { intro H. injection H as <- <- <-. intros [Hk|[]]. discriminate. }
  destruct (retry_loop (MaxHTTPRetries + 1) 0 e None) as [r evs] eqn:L.
  intros H Hin. injection H as <- <- <-.
  destruct Hin as [Hk|Hin]; [discriminate|].
  destruct (@retry_loop_request e _ _ _ _ _ k L Hin) as (Hreq & K & Hr & Hc).
  split; [auto|]. split; [exact Hreq|].
  split; [unfold MaxHTTPRetries in *; lia|].
  split.
  - intros j Hj. apply Hr. lia.
  - intros j Hj. apply Hc; lia.
Qed.

(** C3 (amended): take a request number [k] (counted from 0) that the
    transport answers with a status in [400, 500).  When the delivery gets
    to that request (the context is live, the size is valid, a token is
    acquired, the request can be created, [k] is at most
    [MaxHTTPRetries], the requests before it fail with retryable errors
    and no backoff is cancelled), [SendNotification] returns the
    [HTTPError] of that status, with the description of the response or
    [unknown error] as its message, right after that request: the events
    are the rate-limiter wait and then the requests 0 to [k], with a backoff
    before each of the requests 1 to [k].  And every delivery in which
    request [k] is sent is such a delivery: its result is that error, its
    last event is request [k], and it has made [k + 1] network calls and
    [k] backoffs.  One network call and no backoff is the case [k = 0], in
    which the first request meets the client error. *)
Theorem client_error_ends_delivery
        (e : env) (rateLimiter : TokenBucket) (message : gostring)
        (k : nat) (status : Z) (description : option gostring) :
  transport e k = Response status description ->
  (400 <= status < 500)%Z ->
  (forall tb,
      reaches_transport e rateLimiter tb message ->
      request_created e = true ->
      k <= MaxHTTPRetries ->
      (forall j, j < k -> retryable (transport e j) = true) ->
      (forall j, 1 <= j <= k -> backoff_cancelled e j = false) ->
      SendNotification e rateLimiter message
      = Some (Some (HTTPError status (error_text description)),
              EvWait :: trace_from 0 k, tb))
  /\ (forall result events tb,
         SendNotification e rateLimiter message = Some (result, events, tb) ->
         In (EvDo k) events ->
         result = Some (HTTPError status (error_text description))
         /\ events = EvWait :: trace_from 0 k
         /\ last events EvWait = EvDo k
         /\ network_calls events = k + 1
         /\ backoffs events = k
         /\ (k = 0 -> events = [EvWait; EvDo 0])).
Proof.
  intros Htr Hst. split.
  - intro tb. now apply client_error_reached.
  - intros result events tb H Hin.
    destruct (@request_sent e rateLimiter tb message result events k H Hin)
      as (Hreach & Hreq & Hk & Hr & Hc).
    pose proof (@client_error_reached e rateLimiter tb message k status
                  description Htr Hst Hreach Hreq Hk Hr Hc) as E.
    assert (X : Some (result, events, tb)
                = Some (Some (HTTPError status (error_text description)),
                        EvWait :: trace_from 0 k, tb))
      by (now rewrite <- H, <- E).
    assert (Er : result = Some (HTTPError status (error_text description)))
      by congruence.
    assert (Ee : events = EvWait :: trace_from 0 k) by congruence.
    destruct (trace_from_counts k 0) as (C & B & La).
    split; [exact Er|]. split; [exact Ee|]. rewrite Ee.
    change (EvWait :: trace_from 0 k) with ([EvWait] ++ trace_from 0 k).
    split; [|split; [|split]].
    + rewrite last_after; [exact La|]. destruct k; discriminate.
    + rewrite network_calls_app, C. reflexivity.
    + rewrite backoffs_app, B. reflexivity.
    + intros ->. reflexivity.
Qed.

Lemma client_error_ends_delivery_witness :
  SendNotification retried_env fresh_limiter (str "backup failed")
  = Some (Some (HTTPError 400 (str "unknown error")),
          EvWait :: trace_from 0 1, snd (tryTake 0 fresh_limiter))
  /\ network_calls (EvWait :: trace_from 0 1) = 1 + 1
  /\ backoffs (EvWait :: trace_from 0 1) = 1.
Proof.
  assert (Hst : (400 <= 400 < 500)%Z) by lia.
  destruct (@client_error_ends_delivery retried_env fresh_limiter
              (str "backup failed") 1 400 None eq_refl Hst) as [A B].
  assert (E : SendNotification retried_env fresh_limiter (str "backup failed")
              = Some (Some (HTTPError 400 (error_text None)),
                      EvWait :: trace_from 0 1,
                      snd (tryTake 0 fresh_limiter))).
  { apply A.
    - repeat split; vm_compute; reflexivity.
    - reflexivity.
    - unfold MaxHTTPRetries. lia.
    - intros j Hj. assert (Ej : j = 0) by lia. rewrite Ej. reflexivity.
    - intros j Hj. reflexivity. }
  split; [exact E|].
  assert (Hin : In (EvDo 1) (EvWait :: trace_from 0 1))
    by (cbn [trace_from In app Nat.ltb Nat.leb]; auto).
  destruct (B _ _ _ E Hin) as (_ & _ & _ & C & K & _).
  split; [exact C|exact K].
Defined.

(** C3 does not hold as it is worded: when the first request is answered
    with 500 and the second with 400, the client error is returned after
    two network calls and one backoff. *)
Lemma client_error_after_retry :
  SendNotification retried_env fresh_limiter (str "backup failed")
  = Some (Some (HTTPError 400 (str "unknown error")),
          [EvWait; EvDo 0; EvBackoff (1 * Second); EvDo 1],
          snd (tryTake 0 fresh_limiter))
  /\ ~ single_call retried_env fresh_limiter (str "backup failed").
Proof.
  assert (E : SendNotification retried_env fresh_limiter (str "backup failed")
              = Some (Some (HTTPError 400 (str "unknown error")),
                      [EvWait; EvDo 0; EvBackoff (1 * Second); EvDo 1],
                      snd (tryTake 0 fresh_limiter)))
    by (vm_compute; reflexivity).
  split; [exact E|]. intro H.
  destruct (H _ _ _ 1 400%Z None E) as (_ & C & _).
  - cbn [In]. auto.
  - reflexivity.
  - lia.
  - vm_compute in C. discriminate.
Qed.

End ClientErrorFacts.

(** ** The size limit of a delivery *)
Module SizeLimitFacts.
Import DeliverySpec RetrySpec SizeLimitSpec SweepSpec.
Import Constants Validation RateLimit Telegram.

Lemma sendRequest_not_validation (e : env) (attempt : nat)
      (err : size_error) :
  fst (sendRequest e attempt) <> Some (MessageValidationFailed err).
Proof.
  unfold sendRequest. destruct (request_created e); [|discriminate].
  destruct (transport e attempt) as [cause done|code d].
  - destruct done; discriminate.
  - destruct (negb (code =? 200)%Z); discriminate.
Qed.

Lemma retry_loop_not_validation (e : env) (err : size_error)
      (remaining : nat) :
  forall attempt lastErr,
    fst (retry_loop remaining attempt e lastErr)
    <> Some (MessageValidationFailed err).
Proof.
  induction remaining as [|remaining IH]; intros attempt lastErr;
    cbn [retry_loop]; [discriminate|].
  destruct ((0 <? attempt) && backoff_cancelled e attempt); [discriminate|].
  pose proof (@sendRequest_not_validation e attempt err) as Hs.
  destruct (sendRequest e attempt) as [[er|] evs]; [|discriminate].
  cbn [fst] in Hs.
  destruct (isClientError er); [exact Hs|].
  specialize (IH (S attempt) (Some er)).
  now destruct (retry_loop remaining (S attempt) e (Some er)).
Qed.

(** C4 (amended): the ceiling is a number of bytes, [len(message)].
    [SendNotification] accepts every message of at most
    [TelegramMaxMessageSize] = 4096 bytes, so one of exactly 4096: it
    returns no size validation error, and with a context that is live on
    entry its result is the one of the wait for a rate-limit token and of
    the retry loop.  For every longer message, so one of 4097 bytes, it
    returns the validation error that carries the size and the limit, with
    no event at all: the rate limiter is not waited on, no token is taken
    and no network call is made.  When the context is already done on
    entry the result is the cancellation error for a message of any size,
    again with no event. *)
Theorem size_limit_in_bytes
        (e : env) (rateLimiter : TokenBucket) (message : gostring) :
  ((len message <= TelegramMaxMessageSize)%Z ->
   accepted e rateLimiter message
   /\ SendNotification e rateLimiter message
      = if ctx_done_on_entry e
        then Some (Some ContextCancelled, [], rateLimiter)
        else
          match Wait (wait_start e) (wait_ticks e) rateLimiter with
          | None => None
          | Some (Some werr, tb) =>
            Some (Some (RateLimitError werr), [EvWait], tb)
          | Some (None, tb) =>
            Some (fst (retry_loop (MaxHTTPRetries + 1) 0 e None),
                  EvWait :: snd (retry_loop (MaxHTTPRetries + 1) 0 e None),
                  tb)
          end)
  /\ ((TelegramMaxMessageSize < len message)%Z ->
      SendNotification e rateLimiter message
      = Some (Some (if ctx_done_on_entry e then ContextCancelled
                    else MessageValidationFailed
                           (MessageTooLarge (len message)
                                            TelegramMaxMessageSize)),
              [], rateLimiter)).
Proof.
  split.
  - intro H.
    assert (V : ValidateMessageSize message = None).
    { unfold ValidateMessageSize. apply Z.ltb_ge in H. now rewrite H. }
    assert (E : SendNotification e rateLimiter message
                = if ctx_done_on_entry e
                  then Some (Some ContextCancelled, [], rateLimiter)
                  else
                    match Wait (wait_start e) (wait_ticks e) rateLimiter with
                    | None => None
                    | Some (Some werr, tb) =>
                      Some (Some (RateLimitError werr), [EvWait], tb)
                    | Some (None, tb) =>
                      Some (fst (retry_loop (MaxHTTPRetries + 1) 0 e None),
                            EvWait
                              :: snd (retry_loop (MaxHTTPRetries + 1) 0 e
                                                 None),
                            tb)
                    end).
    { unfold SendNotification. rewrite V.
      destruct (ctx_done_on_entry e); [reflexivity|].
      destruct (Wait (wait_start e) (wait_ticks e) rateLimiter)
        as [[[werr|] tb]|]; try reflexivity.
      now destruct (retry_loop (MaxHTTPRetries + 1) 0 e None). }
    split; [|exact E].
    intros err events tb. rewrite E.
    destruct (ctx_done_on_entry e); [discriminate|].
    destruct (Wait (wait_start e) (wait_ticks e) rateLimiter)
      as [[[werr|] tb']|]; try discriminate.
    pose proof (@retry_loop_not_validation e err (MaxHTTPRetries + 1) 0 None)
      as N.
    destruct (retry_loop (MaxHTTPRetries + 1) 0 e None) as [r evs].
    cbn [fst snd] in N |- *. intro X. apply N. congruence.
  - intro H. unfold SendNotification, ValidateMessageSize.
    apply Z.ltb_lt in H. rewrite H. now destruct (ctx_done_on_entry e).
Qed.

Lemma size_limit_in_bytes_witness :
  SendNotification ok_env fresh_limiter (repeat "a"%char 4096)
  = Some (None, [EvWait; EvDo 0], snd (tryTake 0 fresh_limiter))
  /\ SendNotification forbidden_env fresh_limiter (repeat "a"%char 4097)
     = Some (Some (MessageValidationFailed (MessageTooLarge 4097 4096)),
             [], fresh_limiter).
Proof.
  destruct (size_limit_in_bytes ok_env fresh_limiter (repeat "a"%char 4096))
    as [H1 _].
  destruct (size_limit_in_bytes forbidden_env fresh_limiter
                                (repeat "a"%char 4097)) as [_ H2].
  split.
  - destruct H1 as [_ E]; [vm_compute; discriminate|].
    rewrite E. vm_compute. reflexivity.
  - rewrite H2 by (vm_compute; reflexivity). vm_compute. reflexivity.
Defined.

(** C4 does not hold with the length in characters: a message of 4096
    characters, one of them of two bytes, is refused. *)
Lemma ceiling_counts_bytes :
  chars wide_message = 4096
  /\ SendNotification forbidden_env fresh_limiter wide_message
     = Some (Some (MessageValidationFailed (MessageTooLarge 4097 4096)),
             [], fresh_limiter)
  /\ ~ accepted_by_characters forbidden_env fresh_limiter wide_message.
Proof.
  assert (C : chars wide_message = 4096) by (vm_compute; reflexivity).
  assert (E : SendNotification forbidden_env fresh_limiter wide_message
              = Some (Some (MessageValidationFailed
                              (MessageTooLarge 4097 4096)),
                      [], fresh_limiter)) by (vm_compute; reflexivity).
  split; [exact C|]. split; [exact E|].
  intro H. exact (H C _ _ _ E).
Qed.

End SizeLimitFacts.
